(** * Pygol: the grid, its three neighbourhoods and the generation step

    A shallow embedding of [gol.py].  Python values are modelled as follows:
    - an [int] is a [Z]; a [float] is an IEEE-754 binary64 value, taken from
      [SpecFloat] with precision 53 and maximal exponent 1024;
    - a [str] is the list of its code points, a one-character string (a cell
      symbol) is a single code point;
    - a [list] is a [list], indexed the way Python indexes it (negative
      indices count from the end, anything else out of range raises
      [IndexError]);
    - an exception is a value of [exn], carried by [outcome];
    - the builtin [sum] adds floats as the interpreter at hand does: from
      the left up to CPython 3.11, with a compensation term from CPython
      3.12 on; the interpreter is a parameter [Python] of the program;
    - a file opened with [open(name, 'r')] is read with universal
      newlines: [CR LF] and [CR] reach the program as [LF]. *)

From Stdlib Require Import ZArith Lia Bool List Ascii SpecFloat Sorted.
From stdpp Require Import base tactics option list.

Local Open Scope Z_scope.

(** ** Proof tactics *)

(** Comparisons of coordinates are settled by linear arithmetic. *)
Ltac settle_eqb :=
  repeat match goal with
         | |- context [Z.eqb ?a ?b] => destruct (Z.eqb_spec a b); try lia
         | H : context [Z.eqb ?a ?b] |- _ =>
             destruct (Z.eqb_spec a b); try lia
         end.

(** Membership in an explicit list. *)
Ltac find_elem := repeat first [ by left | right ].

(** A cell that the loop kept was skipped by none of its tests. *)
Ltac split_skips :=
  repeat match goal with
         | H : _ || _ = false |- _ => apply orb_false_elim in H as [? ?]
         | H : (_ =? _) = false |- _ => apply Z.eqb_neq in H
         end.

(** Every comparison of two coordinates in the goal is settled by the
    bounds at hand; the comparisons of a count are left to evaluation. *)
Ltac is_coordinate a :=
  lazymatch a with
  | context [if _ then _ else _] => fail
  | _ => idtac
  end.

Ltac settle_cmp :=
  repeat match goal with
         | |- context [Z.eqb ?a ?b] =>
             is_coordinate a; destruct (Z.eqb_spec a b); try lia
         | |- context [Z.leb ?a ?b] =>
             is_coordinate a; destruct (Z.leb_spec a b); try lia
         | |- context [Z.ltb ?a ?b] =>
             is_coordinate a; destruct (Z.ltb_spec a b); try lia
         end.

(** Every test of a coordinate against a bound fails. *)
Ltac all_differ :=
  repeat match goal with
         | |- context [Z.eqb ?a ?b] =>
             rewrite (proj2 (Z.eqb_neq a b)) by lia
         end.

(** ** Exceptions *)

Inductive exn : Type :=
| IndexError
| AssertionError
| FileNotFoundError.

Inductive outcome (A : Type) : Type :=
| Returned (a : A)
| Raised (e : exn).

Arguments Returned {A} a.
Arguments Raised {A} e.

#[global] Instance outcome_ret : MRet outcome := @Returned.
#[global] Instance outcome_bind : MBind outcome :=
  λ A B f m, match m with Returned a => f a | Raised e => Raised e end.

(** [for x in l: s = body x s], stopping at the first exception. *)
Fixpoint for_each {A S : Type} (l : list A) (body : A → S → outcome S) (s : S)
  : outcome S :=
  match l with
  | [] => Returned s
  | x :: l' => s' ← body x s; for_each l' body s'
  end.

(** [range(lo, hi)] *)
Definition range (lo hi : Z) : list Z := seqZ lo (hi - lo).

(** ** Characters and strings *)

Definition char : Type := N.
Definition str : Type := list char.

Definition ord (a : ascii) : char := N_of_ascii a.

Definition chr_X : char := ord "X".
Definition chr_dot : char := ord ".".
Definition chr_nl : char := ord "010".
Definition chr_cr : char := ord "013".
Definition chr_space : char := ord " ".

Definition char_eqb (a b : char) : bool := N.eqb a b.

(** The code points that [str.isspace] accepts, which are the ones
    [str.strip] removes. *)
Definition isspace (c : char) : bool :=
  ((9 <=? c) && (c <=? 13) || (28 <=? c) && (c <=? 32) || (c =? 133)
   || (c =? 160) || (c =? 5760) || (8192 <=? c) && (c <=? 8202)
   || (c =? 8232) || (c =? 8233) || (c =? 8239) || (c =? 8287)
   || (c =? 12288))%N.

Fixpoint lstrip (s : str) : str :=
  match s with
  | c :: s' => if isspace c then lstrip s' else s
  | [] => []
  end.

Definition rstrip (s : str) : str := rev (lstrip (rev s)).

Definition strip (s : str) : str := rstrip (lstrip s).

(** [sep.join(parts)] *)
Fixpoint join (sep : str) (parts : list str) : str :=
  match parts with
  | [] => []
  | [p] => p
  | p :: ps => p ++ sep ++ join sep ps
  end.

(** ** Numbers *)

Definition prec : Z := 53.
Definition emax : Z := 1024.

Definition float : Type := spec_float.

(** [float(z)], rounding to nearest even.  (Python raises [OverflowError]
    beyond the binary64 range; the integers met here are neighbour
    counts.) *)
Definition float_of_int (z : Z) : float := binary_normalize prec emax z 0 false.

Definition fadd : float → float → float := SFadd prec emax.
Definition fmul : float → float → float := SFmul prec emax.
Definition fdiv : float → float → float := SFdiv prec emax.

(** A decimal literal [n/10] denotes the binary64 value nearest to it,
    which is what the correctly rounded quotient gives. *)
Definition tenths (n : Z) : float :=
  fdiv (float_of_int n) (float_of_int 10).

Definition lit_0_3 : float := Eval vm_compute in tenths 3.
Definition lit_2_0 : float := Eval vm_compute in float_of_int 2.
Definition lit_3_3 : float := Eval vm_compute in tenths 33.
Definition lit_2_3 : float := Eval vm_compute in tenths 23.
Definition lit_2_9 : float := Eval vm_compute in tenths 29.
Definition lit_0_0 : float := S754_zero false.
Definition lit_1_0 : float := Eval vm_compute in float_of_int 1.

Inductive pynum : Type :=
| PInt (z : Z)
| PFloat (f : float).

Definition to_float (x : pynum) : float :=
  match x with
  | PInt z => float_of_int z
  | PFloat f => f
  end.

Definition py_add (x y : pynum) : pynum :=
  match x, y with
  | PInt a, PInt b => PInt (a + b)
  | _, _ => PFloat (fadd (to_float x) (to_float y))
  end.

Definition py_mul (x y : pynum) : pynum :=
  match x, y with
  | PInt a, PInt b => PInt (a * b)
  | _, _ => PFloat (fmul (to_float x) (to_float y))
  end.

(** Python compares an [int] with a [float] exactly, not after a
    conversion. *)
Definition int_compare_float (z : Z) (f : float) : option comparison :=
  match f with
  | S754_nan => None
  | S754_infinity s => Some (if s then Gt else Lt)
  | S754_zero _ => Some (z ?= 0)
  | S754_finite s m e =>
      let sm := if s then Z.neg m else Z.pos m in
      Some (if 0 <=? e then z ?= sm * 2 ^ e else z * 2 ^ (- e) ?= sm)
  end.

Definition py_compare (x y : pynum) : option comparison :=
  match x, y with
  | PInt a, PInt b => Some (a ?= b)
  | PFloat a, PFloat b => SFcompare a b
  | PInt a, PFloat b => int_compare_float a b
  | PFloat a, PInt b => option_map CompOpp (int_compare_float b a)
  end.

Definition py_lt (x y : pynum) : bool :=
  match py_compare x y with Some Lt => true | _ => false end.

Definition py_eq (x y : pynum) : bool :=
  match py_compare x y with Some Eq => true | _ => false end.

(** ** The builtin [sum]

    Up to CPython 3.11 [sum] adds the terms from the left, starting from
    the integer 0, each addition rounded.  From CPython 3.12 on, once the
    running total is a float the float terms are added with Neumaier's
    compensation: the rounding errors are accumulated apart and added to
    the total at the end. *)

Definition fsub : float → float → float := SFsub prec emax.
Definition fabs : float → float := SFabs.

(** One compensated addition, of the float [x] to the total [f] whose
    compensation is [c]:
    [t = f + x; c += (f - t) + x if fabs(f) >= fabs(x) else (x - t) + f]. *)
Definition neumaier (acc : float * float) (x : float) : float * float :=
  let '(f, c) := acc in
  let t := fadd f x in
  (t, if SFleb (fabs x) (fabs f) then fadd c (fadd (fsub f t) x)
      else fadd c (fadd (fsub x t) f)).

(** The end of the compensated loop: [f + c] when [c] is finite and not
    zero, [f] otherwise. *)
Definition compensated (f c : float) : float :=
  match c with
  | S754_finite _ _ _ => fadd f c
  | _ => f
  end.

(** The loop over the terms once the total is a float: a float term is
    added with compensation, an [int] term is converted and added to the
    total as it is (as CPython 3.12 does; the sums of this program never
    come to it, for the neighbours of weight 1 are the first in the list:
    [neighbors_weights_in_order] below). *)
Fixpoint sum_floats (f c : float) (terms : list pynum) : float :=
  match terms with
  | [] => compensated f c
  | PFloat x :: rest =>
      let '(f', c') := neumaier (f, c) x in sum_floats f' c' rest
  | PInt z :: rest => sum_floats (fadd f (float_of_int z)) c rest
  end.

(** The loop over the terms while the total is an [int]; the first float
    term is added to it by the ordinary addition, and the loop for floats
    takes over with no compensation yet.  (The integers met here are
    neighbour counts, within the range of a C [long].) *)
Fixpoint sum_ints (i : Z) (terms : list pynum) : pynum :=
  match terms with
  | [] => PInt i
  | PInt z :: rest => sum_ints (i + z) rest
  | PFloat x :: rest =>
      PFloat (sum_floats (fadd (float_of_int i) x) lit_0_0 rest)
  end.

(** The interpreter that runs the program: whether its [sum] compensates
    (CPython 3.12 and later) or not (CPython 3.11 and earlier). *)
Class Python : Type := { sum_is_compensated : bool }.

Definition cpython_3_11 : Python := {| sum_is_compensated := false |}.
Definition cpython_3_12 : Python := {| sum_is_compensated := true |}.

(** * The program *)

Section Program.
Context {py : Python}.

(** [sum(terms)] *)
Definition py_sum (terms : list pynum) : pynum :=
  if sum_is_compensated then sum_ints 0 terms
  else foldl py_add (PInt 0) terms.

(** ** Lists and tuples *)

(** [l[i]] *)
Definition py_index {A : Type} (l : list A) (i : Z) : outcome A :=
  let n := Z.of_nat (length l) in
  let j := if i <? 0 then i + n else i in
  if (0 <=? j) && (j <? n) then
    match l !! Z.to_nat j with
    | Some x => Returned x
    | None => Raised IndexError
    end
  else Raised IndexError.

(** [l[i] = x] *)
Definition py_setindex {A : Type} (l : list A) (i : Z) (x : A)
  : outcome (list A) :=
  let n := Z.of_nat (length l) in
  let j := if i <? 0 then i + n else i in
  if (0 <=? j) && (j <? n) then Returned (<[Z.to_nat j := x]> l)
  else Raised IndexError.

(** [x in t] for a pair [t] *)
Definition tuple_in (x : Z) (t : Z * Z) : bool := (t.1 =? x) || (t.2 =? x).

(** ** class Cell *)

Record Cell : Type := mkCell { coordinate : Z * Z; weight : pynum }.

(** [Cell.__getitem__] *)
Definition Cell_getitem (self : Cell) (key : Z) : outcome Z :=
  py_index [(coordinate self).1; (coordinate self).2] key.

(** ** class Grid and its subclasses *)

Inductive grid_class : Type := ClsGrid | ClsHexGrid6 | ClsHexGrid12.

Record Grid : Type := mkGrid {
  cls : grid_class;
  size : Z;
  cells : list (list char)
}.

Definition Grid_neighbors_offset : list (Z * Z) :=
  r_idx ← range (-1) 2;
  c_idx ← range (-1) 2;
  if decide ((r_idx, c_idx) ≠ (0, 0)) then [(r_idx, c_idx)] else [].

(** [Grid.__getitem__] with a tuple key *)
Definition Grid_getitem (self : Grid) (key : Z * Z) : outcome char :=
  row ← py_index (cells self) key.1;
  py_index row key.2.

(** [Grid.getNeighbors] *)
Definition Grid_getNeighbors (self : Grid) (cell : Z * Z) : list Cell :=
  foldl (λ ret offset,
           let coordinate := (cell.1 + offset.1, cell.2 + offset.2) in
           if tuple_in (-1) coordinate || tuple_in (size self) coordinate
           then ret
           else ret ++ [mkCell coordinate (PInt 1)])
        [] Grid_neighbors_offset.

(** [Grid.live] *)
Definition Grid_live (cell_val : char) (neighbor_score : pynum) : bool :=
  char_eqb cell_val chr_X
    && (py_eq neighbor_score (PInt 2) || py_eq neighbor_score (PInt 3))
  || char_eqb cell_val chr_dot && py_eq neighbor_score (PInt 3).

Definition HexGrid6_common_neighbors_offset : list (Z * Z) :=
  [(-1, 0); (0, -1); (0, 1); (1, 0)].

(** [HexGrid6.neighbors_offset[odd]] *)
Definition HexGrid6_neighbors_offset (odd : bool) : list (Z * Z) :=
  if odd then HexGrid6_common_neighbors_offset ++ [(-1, 1); (1, 1)]
  else HexGrid6_common_neighbors_offset ++ [(-1, -1); (1, -1)].

(** [HexGrid6.getNeighbors] *)
Definition HexGrid6_getNeighbors (self : Grid) (cell : Z * Z) : list Cell :=
  let '(row, col) := cell in
  foldl (λ ret offset,
           let coordinate := (row + offset.1, col + offset.2) in
           if tuple_in (-1) coordinate || tuple_in (size self) coordinate
           then ret
           else ret ++ [mkCell coordinate (PInt 1)])
        [] (HexGrid6_neighbors_offset (row `mod` 2 =? 1)).

Definition HexGrid12_common_neighbors_offset : list (Z * Z) :=
  [(-2, 0); (2, 0)].

(** [HexGrid12.neighbors_offset[odd]] *)
Definition HexGrid12_neighbors_offset (odd : bool) : list (Z * Z) :=
  if odd
  then HexGrid12_common_neighbors_offset ++ [(-1, 2); (-1, -1); (1, -1); (1, 2)]
  else HexGrid12_common_neighbors_offset ++ [(-1, -2); (-1, 1); (1, 1); (1, -2)].

(** [HexGrid12.getNeighbors] *)
Definition HexGrid12_getNeighbors (self : Grid) (cell : Z * Z) : list Cell :=
  let ret := HexGrid6_getNeighbors self cell in
  let '(row, col) := cell in
  foldl (λ ret offset,
           let coordinate := (row + offset.1, col + offset.2) in
           if tuple_in (-1) coordinate || tuple_in (-2) coordinate
              || tuple_in (size self) coordinate
              || tuple_in (size self + 1) coordinate
           then ret
           else ret ++ [mkCell coordinate (PFloat lit_0_3)])
        ret (HexGrid12_neighbors_offset (row `mod` 2 =? 1)).

(** [HexGrid12.live] *)
Definition HexGrid12_live (cell_val : char) (neighbor_score : pynum) : bool :=
  char_eqb cell_val chr_X
    && (py_lt (PFloat lit_2_0) neighbor_score
        && py_lt neighbor_score (PFloat lit_3_3))
  || char_eqb cell_val chr_dot
     && (py_lt (PFloat lit_2_3) neighbor_score
         && py_lt neighbor_score (PFloat lit_2_9)).

(** Method resolution: the class of [self] selects the override. *)
Definition getNeighbors (self : Grid) (cell : Z * Z) : list Cell :=
  match cls self with
  | ClsGrid => Grid_getNeighbors self cell
  | ClsHexGrid6 => HexGrid6_getNeighbors self cell
  | ClsHexGrid12 => HexGrid12_getNeighbors self cell
  end.

Definition live (self : Grid) (cell_val : char) (neighbor_score : pynum)
  : bool :=
  match cls self with
  | ClsGrid | ClsHexGrid6 => Grid_live cell_val neighbor_score
  | ClsHexGrid12 => HexGrid12_live cell_val neighbor_score
  end.

(** One term of the score:
    [(0 if self[n.coordinate] == '.' else 1) * n.weight] *)
Definition score_term (self : Grid) (n : Cell) : outcome pynum :=
  v ← Grid_getitem self (coordinate n);
  mret (py_mul (if char_eqb v chr_dot then PInt 0 else PInt 1) (weight n)).

(** The body of the two loops of [update], for the cell [(row, col)]:
    it reads [self] and writes one cell of [new_cells]. *)
Definition update_cell (self : Grid) (row col : Z)
    (new_cells : list (list char)) : outcome (list (list char)) :=
  let cell := (row, col) in
  let neighbors := getNeighbors self cell in
  terms ← mapM (score_term self) neighbors;
  let score := py_sum terms in
  cell_val ← Grid_getitem self cell;
  let is_live := live self cell_val score in
  new_row ← py_index new_cells cell.1;
  new_row' ← py_setindex new_row cell.2 (if is_live then chr_X else chr_dot);
  py_setindex new_cells cell.1 new_row'.

(** [Grid.update]: [new_cells] starts as a deep copy of [self.cells], and
    replaces it once both loops are over. *)
Definition update (self : Grid) : outcome Grid :=
  let new_cells := cells self in
  new_cells ← for_each (range 0 (size self))
                (λ row new_cells,
                   for_each (range 0 (size self))
                     (λ col new_cells, update_cell self row col new_cells)
                     new_cells)
                new_cells;
  mret (mkGrid (cls self) (size self) new_cells).

(** [n] calls of [update] in a row *)
Fixpoint generations (n : nat) (self : Grid) : outcome Grid :=
  match n with
  | O => Returned self
  | S n' => self' ← update self; generations n' self'
  end.

(** [Grid.__repr__]; a row is a list of one-character strings, so
    [''.join(row)] is the string of its symbols. *)
Definition Grid_repr (self : Grid) : outcome str :=
  rows ← mapM (λ r_idx, row ← py_index (cells self) r_idx; mret (row : str))
              (range 0 (size self));
  mret (join [chr_nl] rows).

(** [HexGrid6.__repr__] *)
Definition HexGrid6_repr (self : Grid) : outcome str :=
  let offsets : list str :=
    (λ idx, if idx `mod` 2 =? 0 then [] else [chr_space])
      <$> range 0 (size self) in
  rows ← mapM (λ r_idx, row ← py_index (cells self) r_idx;
                        mret (join [chr_space] ((λ c, [c]) <$> row)))
              (range 0 (size self));
  mret (join [chr_nl] ((λ p : str * str, p.1 ++ p.2) <$> zip offsets rows)).

Definition repr (self : Grid) : outcome str :=
  match cls self with
  | ClsGrid => Grid_repr self
  | ClsHexGrid6 | ClsHexGrid12 => HexGrid6_repr self
  end.

(** ** Construction *)

(** The module-level generator of [random]: the values its successive calls
    return, and the number of calls made so far. *)
Record Random : Type := mkRandom { draws : nat → float; calls : nat }.

(** [random.random()] *)
Definition random_random (st : Random) : float * Random :=
  (draws st (calls st), mkRandom (draws st) (S (calls st))).

(** A list comprehension [[f(x) for x in l]] whose element expression
    advances a state. *)
Fixpoint comprehension {A B S : Type} (f : A → S → B * S) (l : list A) (s : S)
  : list B * S :=
  match l with
  | [] => ([], s)
  | x :: l' =>
      let '(y, s1) := f x s in
      let '(ys, s2) := comprehension f l' s1 in
      (y :: ys, s2)
  end.

(** What a file opened with [open(name, 'r')] gives to read: the
    characters of the file with every line terminator, [CR LF], [CR] or
    [LF], as one [LF] (universal newlines).  [pending_cr] holds when the
    character before was a [CR], which has been given as [LF] already. *)
Fixpoint newline_decoder (pending_cr : bool) (content : str) : str :=
  match content with
  | [] => []
  | c :: t =>
      if char_eqb c chr_cr then chr_nl :: newline_decoder true t
      else if char_eqb c chr_nl then
        if pending_cr then newline_decoder false t
        else chr_nl :: newline_decoder false t
      else c :: newline_decoder false t
  end.

Definition universal_newlines (content : str) : str :=
  newline_decoder false content.

(** [f.readlines()]: the text read is cut after each line feed. *)
Fixpoint readlines (text : str) : list str :=
  match text with
  | [] => []
  | c :: t =>
      if char_eqb c chr_nl then [c] :: readlines t
      else match readlines t with
           | [] => [[c]]
           | l :: ls => (c :: l) :: ls
           end
  end.

(** ['X' if random.random() < prob else '.'] *)
Definition random_symbol (prob : pynum) (st : Random) : char * Random :=
  let '(x, st') := random_random st in
  (if py_lt (PFloat x) prob then chr_X else chr_dot, st').

(** What the constructor prints for a row whose length is not [size]:
    the row number, counted from 1, and the expected length. *)
Inductive message : Type := RowMismatch (row_number expected : Z).

Definition message_row (m : message) : Z :=
  match m with RowMismatch row_number _ => row_number end.

Definition validate (size : Z) (cells : list (list char)) : list message :=
  (λ p : nat * list char, RowMismatch (Z.of_nat p.1 + 1) size)
    <$> filter (λ p : nat * list char, Z.of_nat (length p.2) ≠ size)
               (imap pair cells).

(** The argument of the constructor: a tuple [(size, prob)], a file name,
    or a value of another type. *)
Inductive init_arg : Type :=
| ArgTuple (size : Z) (prob : pynum)
| ArgStr (fname : str)
| ArgOther.

(** The readable files: a name is mapped to the characters of the file,
    as they are stored (decoded, line terminators untouched). *)
Definition filesystem : Type := str → option str.

(** [Grid.__init__], inherited by both subclasses.  The result is the
    object, the state of the generator and what was printed. *)
Definition Grid_init (c : grid_class) (fs : filesystem) (arg : init_arg)
    (st : Random) : outcome (Grid * Random * list message) :=
  match arg with
  | ArgTuple size prob =>
      let '(cells, st') :=
        comprehension
          (λ c_idx, comprehension (λ r_idx, random_symbol prob)
                                  (range 0 size))
          (range 0 size) st in
      Returned (mkGrid c size cells, st', [])
  | ArgStr fname =>
      match fs fname with
      | None => Raised FileNotFoundError
      | Some content =>
          let lines := readlines (universal_newlines content) in
          let cells := strip <$> lines in
          let size := Z.of_nat (length cells) in
          Returned (mkGrid c size cells, st, validate size cells)
      end
  | ArgOther => Raised AssertionError
  end.

(** [gridBuilder] *)
Definition gridBuilder (grid_type : Z) (fs : filesystem) (args : init_arg)
    (st : Random) : option (outcome (Grid * Random * list message)) :=
  if grid_type =? 8 then Some (Grid_init ClsGrid fs args st)
  else if grid_type =? 6 then Some (Grid_init ClsHexGrid6 fs args st)
  else if grid_type =? 12 then Some (Grid_init ClsHexGrid12 fs args st)
  else None.

(** ** The board as a function of the coordinates *)

(** The invariant of the data model: [size] rows of [size] cells. *)
Definition well_formed (g : Grid) : Prop :=
  Z.of_nat (length (cells g)) = size g
  ∧ Forall (λ row, Z.of_nat (length row) = size g) (cells g).

Definition in_board (s : Z) (p : Z * Z) : Prop :=
  (0 ≤ p.1 < s) ∧ (0 ≤ p.2 < s).

(** The symbol stored at a coordinate of the board, if there is one. *)
Definition symbol_at (g : Grid) (p : Z * Z) : option char :=
  if (0 <=? p.1) && (0 <=? p.2)
  then row ← cells g !! Z.to_nat p.1; row !! Z.to_nat p.2
  else None.

Definition cell_at (g : Grid) (p : Z * Z) : char :=
  default chr_dot (symbol_at g p).

(** The score of a cell, as [update] computes it. *)
Definition score (g : Grid) (cell : Z * Z) : pynum :=
  py_sum ((λ n, py_mul (if char_eqb (cell_at g (coordinate n)) chr_dot
                        then PInt 0 else PInt 1) (weight n))
            <$> getNeighbors g cell).

(** The symbol that [update] writes at [(row, col)]. *)
Definition next_symbol (g : Grid) (row col : Z) : char :=
  if live g (cell_at g (row, col)) (score g (row, col)) then chr_X
  else chr_dot.

(** The [s] by [s] array whose cell [(r, c)] holds [f r c]. *)
Definition board (s : Z) (f : Z → Z → char) : list (list char) :=
  (λ r, f r <$> range 0 s) <$> range 0 s.

Definition next_generation (g : Grid) : Grid :=
  mkGrid (cls g) (size g) (board (size g) (next_symbol g)).

(** ** Conway's rule, stated on its own

    The rule of the game of life on a board without wrap-around: a cell
    is alive when it lies on the board and holds ['X']; its neighbours are
    the eight cells around it; a live cell stays alive with 2 or 3 live
    neighbours, a dead one comes alive with exactly 3. *)

Definition count_if {A : Type} (b : A → bool) (l : list A) : Z :=
  foldr (λ x n, (if b x then 1 else 0) + n) 0 l.

Definition moore (p : Z * Z) : list (Z * Z) :=
  [(p.1 - 1, p.2 - 1); (p.1 - 1, p.2); (p.1 - 1, p.2 + 1);
   (p.1, p.2 - 1); (p.1, p.2 + 1);
   (p.1 + 1, p.2 - 1); (p.1 + 1, p.2); (p.1 + 1, p.2 + 1)].

Definition is_alive (g : Grid) (p : Z * Z) : bool :=
  match symbol_at g p with
  | Some v => char_eqb v chr_X
  | None => false
  end.

Definition alive_neighbors (g : Grid) (p : Z * Z) : Z :=
  count_if (is_alive g) (moore p).

Definition conway (g : Grid) (p : Z * Z) : bool :=
  if is_alive g p
  then (alive_neighbors g p =? 2) || (alive_neighbors g p =? 3)
  else alive_neighbors g p =? 3.

(** What the score of the code counts instead: the cells of the board
    that hold anything but ['.']. *)
Definition is_marked (g : Grid) (p : Z * Z) : bool :=
  match symbol_at g p with
  | Some v => negb (char_eqb v chr_dot)
  | None => false
  end.

Definition marked_neighbors (g : Grid) (p : Z * Z) : Z :=
  count_if (is_marked g) (moore p).

(** Every cell holds ['X'] or ['.']. *)
Definition two_symbols (g : Grid) : Prop :=
  Forall (Forall (λ v, v = chr_X ∨ v = chr_dot)) (cells g).

(** A board without a live cell. *)
Definition all_dead (g : Grid) : Prop :=
  Forall (Forall (λ v, v = chr_dot)) (cells g).

(** What [random.random()] may return: a float of the interval [0, 1). *)
Definition unit_interval (x : float) : Prop :=
  SFleb lit_0_0 x = true ∧ SFltb x lit_1_0 = true.

(** The scores of a dead board: the integer 0, or the float 0.0 once a
    term of weight 0.3 was added. *)
Definition is_zero (x : pynum) : Prop := x = PInt 0 ∨ x = PFloat lit_0_0.

(** ** Sample boards *)

Definition lit_0_5 : float := Eval vm_compute in tenths 5.

(** A generator that returns 0.5 at every call, and a machine without
    files. *)
Definition rng_half : Random := mkRandom (λ _, lit_0_5) 0.
Definition no_files : filesystem := λ _, None.


Definition board3 : Grid :=
  mkGrid ClsGrid 3 [[chr_dot; chr_X; chr_dot];
                    [chr_dot; chr_X; chr_dot];
                    [chr_dot; chr_X; chr_dot]].


Definition hexboard5 : Grid :=
  mkGrid ClsHexGrid12 5 (replicate 5 (replicate 5 chr_dot)).

(** Five rows of five dead cells, rendered. *)
Definition five_rows : str := join [chr_nl] (replicate 5 (replicate 5 chr_dot)).

(** The reading of a layout in which every symbol other than ['X'] is a
    dead cell: such a symbol is replaced by ['.']. *)
Definition deaden (g : Grid) : Grid :=
  mkGrid (cls g) (size g)
         ((λ row : list char,
             (λ v, if char_eqb v chr_X then chr_X else chr_dot) <$> row)
            <$> cells g).

Definition chr_O : char := ord "O".

(** A layout with a third symbol: the rows [XXX], [.O.] and [...]. *)
Definition marked3 : Grid :=
  mkGrid ClsGrid 3 [[chr_X; chr_X; chr_X];
                    [chr_dot; chr_O; chr_dot];
                    [chr_dot; chr_dot; chr_dot]].

(** The same layout on the Hex6 board. *)
Definition marked_hex6 : Grid := mkGrid ClsHexGrid6 3 (cells marked3).

(** The blinker centred at [(r0, c0)], lying in its row and standing in
    its column: the symbol of the cell [(r, c)]. *)
Definition hblinker (r0 c0 : Z) (r c : Z) : char :=
  if (r =? r0) && (c0 - 1 <=? c) && (c <=? c0 + 1) then chr_X else chr_dot.

Definition vblinker (r0 c0 : Z) (r c : Z) : char :=
  if (c =? c0) && (r0 - 1 <=? r) && (r <=? r0 + 1) then chr_X else chr_dot.

Definition on_board (s : Z) (q : Z * Z) : bool :=
  (0 <=? q.1) && (q.1 <? s) && (0 <=? q.2) && (q.2 <? s).

(** The blinker in the middle of the board of size 5. *)
Definition blinker5 : Grid := mkGrid ClsGrid 5 (board 5 (hblinker 2 2)).

(** A text without its final line feed, when it ends with one. *)
Fixpoint chomp (text : str) : str :=
  match text with
  | [] => []
  | [c] => if char_eqb c chr_nl then [] else [c]
  | c :: t => c :: chomp t
  end.

(** A layout: the characters of its line terminators apart (line feed
    and carriage return), no character of the text is white space. *)
Definition layout (text : str) : Prop :=
  Forall (λ c, c = chr_nl ∨ c = chr_cr ∨ isspace c = false) text.

(** A layout as the program reads it: every line ends with a line feed. *)
Definition layout_read (text : str) : Prop :=
  Forall (λ c, c = chr_nl ∨ isspace c = false) text.

(** The layout of the rows [X.] and [.X], the first ended by a carriage
    return and a line feed, the second by a carriage return alone. *)
Definition crlf_text : str :=
  [chr_X; chr_dot; chr_cr; chr_nl; chr_dot; chr_X; chr_cr].
Definition crlf_file : filesystem := λ _, Some crlf_text.

(** The file of the three lines [X], [.X.] and [X], the first ended by a
    carriage return and a line feed, the last by nothing. *)
Definition ragged_text : str :=
  [chr_X; chr_cr; chr_nl; chr_dot; chr_X; chr_dot; chr_nl; chr_X].
Definition ragged_file : filesystem := λ _, Some ragged_text.

(** The layout of two rows [X.] and [.X], each ended by a line feed, in a
    file of any name. *)
Definition diagonal_text : str :=
  [chr_X; chr_dot; chr_nl; chr_dot; chr_X; chr_nl].
Definition diagonal_file : filesystem := λ _, Some diagonal_text.

(** ** The neighbourhoods, stated by distances

    On the rectangular board two cells are adjacent when they are a king's
    move apart.  On the hexagonal boards the rows are staggered: the rows
    next to an odd row lean one column to the right of it, those next to
    an even row one column to the left. *)

Definition rect8_adjacent (p q : Z * Z) : Prop :=
  Z.max (Z.abs (q.1 - p.1)) (Z.abs (q.2 - p.2)) = 1.

Definition hex_shift (row : Z) : Z := if row `mod` 2 =? 1 then 1 else -1.

(** The inner ring of a hexagonal cell. *)
Definition hex6_adjacent (p q : Z * Z) : Prop :=
  (q.1 = p.1 ∧ Z.abs (q.2 - p.2) = 1)
  ∨ (Z.abs (q.1 - p.1) = 1 ∧ (q.2 = p.2 ∨ q.2 = p.2 + hex_shift p.1)).

(** The outer ring of a hexagonal cell. *)
Definition hex12_outer (p q : Z * Z) : Prop :=
  (Z.abs (q.1 - p.1) = 2 ∧ q.2 = p.2)
  ∨ (Z.abs (q.1 - p.1) = 1
     ∧ (q.2 = p.2 + 2 * hex_shift p.1 ∨ q.2 = p.2 - hex_shift p.1)).

(** What being a neighbour means for each class. *)
Definition adjacent (g : Grid) (p : Z * Z) (n : Cell) : Prop :=
  match cls g with
  | ClsGrid => weight n = PInt 1 ∧ rect8_adjacent p (coordinate n)
  | ClsHexGrid6 => weight n = PInt 1 ∧ hex6_adjacent p (coordinate n)
  | ClsHexGrid12 =>
      (weight n = PInt 1 ∧ hex6_adjacent p (coordinate n))
      ∨ (weight n = PFloat lit_0_3 ∧ hex12_outer p (coordinate n))
  end.

(** All the offsets that a class tries around a cell of the given row. *)
Definition offsets_tried (k : grid_class) (row : Z) : list (Z * Z) :=
  match k with
  | ClsGrid => Grid_neighbors_offset
  | ClsHexGrid6 => HexGrid6_neighbors_offset (row `mod` 2 =? 1)
  | ClsHexGrid12 =>
      HexGrid6_neighbors_offset (row `mod` 2 =? 1)
      ++ HexGrid12_neighbors_offset (row `mod` 2 =? 1)
  end.

(** How far a class looks from a cell, and how many neighbours it tries. *)
Definition reach (k : grid_class) : Z :=
  match k with ClsHexGrid12 => 2 | _ => 1 end.

Definition full_count (k : grid_class) : nat :=
  match k with ClsGrid => 8 | ClsHexGrid6 => 6 | ClsHexGrid12 => 12 end.

(** The inner and the outer ring of a hexagonal cell, cell by cell. *)
Definition hex6_ring (p : Z * Z) : list (Z * Z) :=
  [(p.1 - 1, p.2); (p.1, p.2 - 1); (p.1, p.2 + 1); (p.1 + 1, p.2);
   (p.1 - 1, p.2 + hex_shift p.1); (p.1 + 1, p.2 + hex_shift p.1)].

Definition hex12_ring (p : Z * Z) : list (Z * Z) :=
  [(p.1 - 2, p.2); (p.1 + 2, p.2);
   (p.1 - 1, p.2 + 2 * hex_shift p.1); (p.1 - 1, p.2 - hex_shift p.1);
   (p.1 + 1, p.2 - hex_shift p.1); (p.1 + 1, p.2 + 2 * hex_shift p.1)].

(** The rule of the game of life over the inner ring. *)
Definition hex6_conway (g : Grid) (p : Z * Z) : bool :=
  let n := count_if (is_alive g) (hex6_ring p) in
  if is_alive g p then (n =? 2) || (n =? 3) else n =? 3.

(** The score of a Hex12 cell with [a] live cells on its inner ring and
    [b] on its outer ring, as the sum from the left accumulates it: the
    integer [a], then 0.3 added [b] times in floating point. *)
Fixpoint hex12_total (a : Z) (b : nat) : float :=
  match b with
  | O => float_of_int a
  | S k => fadd (hex12_total a k) lit_0_3
  end.

(** The same score as the compensated sum accumulates it: the total and
    the compensation after the integer [a], a first float term (0.3 when
    [first] holds, 0.0 otherwise) and [k] more terms 0.3. *)
Fixpoint hex12_compensation (a : Z) (first : bool) (k : nat) : float * float :=
  match k with
  | O => (fadd (float_of_int a) (if first then lit_0_3 else lit_0_0),
          lit_0_0)
  | S k' => neumaier (hex12_compensation a first k') lit_0_3
  end.

(** The rule of Hex12 in tenths: a live cell stays alive for a score
    strictly between 2.0 and 3.3, a dead cell comes alive for a score
    strictly between 2.3 and 2.9.  Two live cells on the inner ring and
    three on the outer one give the score 2.9 where [sum] compensates,
    and a score just below 2.9 where it adds from the left: there the
    bound 29 is included. *)
Definition hex12_rule (alive : bool) (a b : Z) : bool :=
  if alive then (20 <? 10 * a + 3 * b) && (10 * a + 3 * b <? 33)
  else (23 <? 10 * a + 3 * b)
       && (if sum_is_compensated then 10 * a + 3 * b <? 29
           else 10 * a + 3 * b <=? 29).

Definition hex12_next (g : Grid) (p : Z * Z) : bool :=
  hex12_rule (is_alive g p) (count_if (is_alive g) (hex6_ring p))
             (count_if (is_alive g) (hex12_ring p)).

(** The symbol that the draw number [k] of a generator gives. *)
Definition drawn (prob : pynum) (st : Random) (k : nat) : char :=
  if py_lt (PFloat (draws st k)) prob then chr_X else chr_dot.

(** A computation that can raise nothing but [IndexError]. *)
Definition only_index_error {A : Type} (m : outcome A) : Prop :=
  ∀ e, m = Raised e → e = IndexError.

(** The first [size] columns of every row exist: no row is too short. *)
Definition rows_at_least (g : Grid) : Prop :=
  Z.of_nat (length (cells g)) = size g
  ∧ Forall (λ row, size g ≤ Z.of_nat (length row)) (cells g).

(** A layout with a short second row, and one with a long first row. *)
Definition short_row2 : Grid :=
  mkGrid ClsGrid 2 [[chr_X; chr_dot]; [chr_dot]].
Definition long_row2 : Grid :=
  mkGrid ClsGrid 2 [[chr_X; chr_X; chr_O]; [chr_X; chr_dot]].

(** A line of the hexagonal rendering: the symbols of the row separated
    by spaces, after one more space when the row number is odd. *)
Definition hex_line (i : nat) (row : list char) : str :=
  (if Z.of_nat i `mod` 2 =? 0 then [] else [chr_space])
  ++ join [chr_space] ((λ c, [c]) <$> row).

(** The block whose upper left cell is [(r0, c0)]: the symbol of the cell
    [(r, c)]. *)
Definition block (r0 c0 : Z) (r c : Z) : char :=
  if (r0 <=? r) && (r <=? r0 + 1) && (c0 <=? c) && (c <=? c0 + 1)
  then chr_X else chr_dot.

(** A block in the corner of the board of size 2, and a Hex6 board of
    size 3 with the middle row alive. *)
Definition block2 : Grid := mkGrid ClsGrid 2 (board 2 (block 0 0)).
Definition hexrow6 : Grid :=
  mkGrid ClsHexGrid6 3 [[chr_dot; chr_dot; chr_dot];
                        [chr_X; chr_X; chr_X];
                        [chr_dot; chr_dot; chr_dot]].

(** ** The driver *)

(** The parsed command line, but for the switch to the curses display. *)
Record Args : Type := mkArgs {
  neighbor_rules : Z;
  args_size : Z;
  fname : option str;
  gens : Z;
  gen_print : Z;
  prob : pynum
}.

(** What is written on the standard output: a warning of the constructor,
    a rendered grid, the word [None], or the header of a generation. *)
Inductive printed : Type :=
| PrintWarning (m : message)
| PrintGrid (s : str)
| PrintNone
| PrintGen (gen : Z).

(** How [main] can end otherwise than by returning: an exception of the
    grid, a division by zero, or a method called on [None]. *)
Inductive crash : Type :=
| Crash (e : exn)
| ZeroDivisionError
| AttributeError.

(** The loop of [main] over the generations, for the display without
    curses.  [grid] is [None] when [gridBuilder] returned nothing. *)
Fixpoint main_loop (gen_print : Z) (generation_numbers : list Z)
    (grid : option Grid) (out : list printed) : list printed * option crash :=
  match generation_numbers with
  | [] => (out, None)
  | gen :: rest =>
      let out := out ++ [PrintGen gen] in
      match grid with
      | None => (out, Some AttributeError)
      | Some g =>
          match update g with
          | Raised e => (out, Some (Crash e))
          | Returned g' =>
              if gen_print =? 0 then (out, Some ZeroDivisionError)
              else if gen `mod` gen_print =? 0 then
                match repr g' with
                | Raised e => (out, Some (Crash e))
                | Returned s =>
                    main_loop gen_print rest (Some g') (out ++ [PrintGrid s])
                end
              else main_loop gen_print rest (Some g') out
          end
      end
  end.

(** What [main] passes to [gridBuilder]: the file name when there is one,
    else the size and the probability. *)
Definition constructor_arg (args : Args) : init_arg :=
  match fname args with
  | Some name => ArgStr name
  | None => ArgTuple (args_size args) (prob args)
  end.

(** [main] when [args.ncurses] is false: what it prints, and the
    exception that ends it or the value it returns. *)
Definition main (args : Args) (fs : filesystem) (st : Random)
  : list printed * (crash + Z) :=
  match gridBuilder (neighbor_rules args) fs (constructor_arg args) st with
  | Some (Raised e) => ([], inl (Crash e))
  | built =>
      let grid := match built with
                  | Some (Returned (g, _, _)) => Some g
                  | _ => None
                  end in
      let out := match built with
                 | Some (Returned (_, _, warnings)) => PrintWarning <$> warnings
                 | _ => []
                 end in
      match match grid with
            | None => Returned (PrintNone)
            | Some g => s ← repr g; mret (PrintGrid s)
            end with
      | Raised e => (out, inl (Crash e))
      | Returned first =>
          match main_loop (gen_print args) (range 1 (gens args + 1)) grid
                          (out ++ [first]) with
          | (out, Some e) => (out, inl e)
          | (out, None) => (out, inr 0)
          end
      end
  end.

(** The text of a grid whose rows are all there. *)
Definition render (g : Grid) : str :=
  join [chr_nl] (match cls g with
                 | ClsGrid => cells g
                 | _ => imap hex_line (cells g)
                 end).

(** The grid after [n] generations, for a well-formed grid. *)
Definition nth_generation (n : nat) (g : Grid) : Grid :=
  Nat.iter n next_generation g.

(** What a run prints for the generation [gen]: its header, and the grid
    when the generation is a multiple of the cadence. *)
Definition generation_output (gen_print : Z) (g : Grid) (gen : Z)
  : list printed :=
  PrintGen gen
  :: (if gen `mod` gen_print =? 0
      then [PrintGrid (render (nth_generation (Z.to_nat gen) g))] else []).

(** Ten generations of a blinker, printed every third one. *)
Definition blinker_args : Args := mkArgs 8 5 (Some []) 10 3 (PFloat lit_0_5).
Definition blinker_file : filesystem :=
  λ _, Some [chr_dot; chr_dot; chr_dot; chr_nl;
             chr_X; chr_X; chr_X; chr_nl;
             chr_dot; chr_dot; chr_dot; chr_nl].

(** The blinker of the board of size 3, lying in the middle row. *)
Definition board3_lying : Grid :=
  mkGrid ClsGrid 3 [[chr_dot; chr_dot; chr_dot];
                    [chr_X; chr_X; chr_X];
                    [chr_dot; chr_dot; chr_dot]].

(** The standing blinker of the board of size 3 with one more live cell,
    in the corner [(2, 2)]. *)
Definition board3_corner : Grid :=
  mkGrid ClsGrid 3 [[chr_dot; chr_X; chr_dot];
                    [chr_dot; chr_X; chr_dot];
                    [chr_dot; chr_X; chr_X]].

(** A Hex12 board of size 5 whose dead centre [(2, 2)] has 2 live cells
    on its inner ring and 3 on its outer ring. *)
Definition hex12_brink : Grid :=
  mkGrid ClsHexGrid12 5
         [[chr_dot; chr_dot; chr_X; chr_dot; chr_dot];
          [chr_X; chr_dot; chr_dot; chr_dot; chr_dot];
          [chr_dot; chr_X; chr_dot; chr_X; chr_dot];
          [chr_dot; chr_dot; chr_dot; chr_dot; chr_dot];
          [chr_dot; chr_dot; chr_X; chr_dot; chr_dot]].

(** A Hex12 layout of size 5 with a third symbol: around the dead centre
    [(2, 2)], two [O] on the inner ring and two on the outer ring. *)
Definition marked_hex12 : Grid :=
  mkGrid ClsHexGrid12 5
         [[chr_dot; chr_dot; chr_O; chr_dot; chr_dot];
          [chr_dot; chr_dot; chr_dot; chr_dot; chr_dot];
          [chr_dot; chr_O; chr_dot; chr_O; chr_dot];
          [chr_dot; chr_dot; chr_dot; chr_dot; chr_dot];
          [chr_dot; chr_dot; chr_O; chr_dot; chr_dot]].

(** The board seen in a mirror along its diagonal. *)
Definition transpose (g : Grid) : Grid :=
  mkGrid (cls g) (size g) (board (size g) (λ r c, cell_at g (c, r))).
(** * Properties *)

(** ** Neighbourhoods *)

Section NeighborLoop.

Context {A : Type} (skip : A → bool) (mk : A → Cell).

Lemma neighbor_loop ret offsets :
  foldl (λ ret offset, if skip offset then ret else ret ++ [mk offset])
        ret offsets
  = ret ++ (mk <$> filter (λ o, skip o = false) offsets).
Proof.
  revert ret. induction offsets as [|o offsets IH]; intros ret; simpl.
  - by rewrite app_nil_r.
  - rewrite IH, filter_cons. destruct (skip o) eqn:E.
    + by rewrite decide_False by done.
    + rewrite decide_True by done. by rewrite <- app_assoc.
Qed.

Lemma neighbor_loop_length ret offsets :
  (length (foldl (λ ret offset,
                    if skip offset then ret else ret ++ [mk offset])
                 ret offsets)
   ≤ length ret + length offsets)%nat.
Proof.
  rewrite neighbor_loop, length_app, length_fmap.
  pose proof (length_filter (λ o, skip o = false) offsets). lia.
Qed.

Lemma neighbor_loop_elem ret offsets n :
  n ∈ foldl (λ ret offset, if skip offset then ret else ret ++ [mk offset])
            ret offsets
  ↔ n ∈ ret ∨ ∃ o, o ∈ offsets ∧ skip o = false ∧ n = mk o.
Proof.
  rewrite neighbor_loop, elem_of_app, list_elem_of_fmap.
  setoid_rewrite list_elem_of_filter.
  split; (intros [?|(o & ? & ? & ?)]; [by left | right; by exists o]).
Qed.

End NeighborLoop.

Lemma Grid_neighbors_offset_eq :
  Grid_neighbors_offset
  = [(-1, -1); (-1, 0); (-1, 1); (0, -1); (0, 1); (1, -1); (1, 0); (1, 1)].
Proof. reflexivity. Qed.

Lemma Grid_getNeighbors_elem g cell n :
  n ∈ Grid_getNeighbors g cell ↔
  ∃ o, o ∈ Grid_neighbors_offset
       ∧ tuple_in (-1) (cell.1 + o.1, cell.2 + o.2)
         || tuple_in (size g) (cell.1 + o.1, cell.2 + o.2) = false
       ∧ n = mkCell (cell.1 + o.1, cell.2 + o.2) (PInt 1).
Proof.
  etrans;
    [apply (neighbor_loop_elem
              (λ o, tuple_in (-1) (cell.1 + o.1, cell.2 + o.2)
                    || tuple_in (size g) (cell.1 + o.1, cell.2 + o.2))
              (λ o, mkCell (cell.1 + o.1, cell.2 + o.2) (PInt 1)))|].
  rewrite elem_of_nil. tauto.
Qed.

Lemma Grid_getNeighbors_in_board g cell n :
  in_board (size g) cell → n ∈ Grid_getNeighbors g cell →
  in_board (size g) (coordinate n) ∧ weight n = PInt 1.
Proof.
  intros [Hr Hc] (o & Ho & Hskip & ->)%Grid_getNeighbors_elem.
  split; [|done]. rewrite Grid_neighbors_offset_eq in Ho.
  unfold tuple_in in Hskip. simpl in *.
  split_skips.
  unfold in_board; simpl.
  repeat (apply elem_of_cons in Ho as [->|Ho]; [simpl in *; lia|]).
  by apply elem_of_nil in Ho.
Qed.

Lemma Grid_getNeighbors_length g cell :
  (length (Grid_getNeighbors g cell) ≤ 8)%nat.
Proof.
  apply (neighbor_loop_length
           (λ o, tuple_in (-1) (cell.1 + o.1, cell.2 + o.2)
                 || tuple_in (size g) (cell.1 + o.1, cell.2 + o.2))
           (λ o, mkCell (cell.1 + o.1, cell.2 + o.2) (PInt 1))
           [] Grid_neighbors_offset).
Qed.

Lemma Grid_getNeighbors_corner g r c :
  2 ≤ size g → (r = 0 ∨ r = size g - 1) → (c = 0 ∨ c = size g - 1) →
  length (Grid_getNeighbors g (r, c)) = 3%nat.
Proof.
  intros Hs Hr Hc. unfold Grid_getNeighbors.
  rewrite Grid_neighbors_offset_eq. unfold tuple_in. simpl.
  destruct Hr as [-> | ->], Hc as [-> | ->]; settle_eqb; reflexivity.
Qed.

(** C5.  On a Rect8 grid of size [s], the neighbours of a coordinate of the
    board are at most 8 cells, each of them on the board and of weight 1
    (which equals 1.0); and when [s >= 2] each of the four corners has
    exactly 3 neighbours. *)
Theorem rect8_neighbors (g : Grid) (r c : Z) :
  cls g = ClsGrid → 0 ≤ r < size g → 0 ≤ c < size g →
  (length (getNeighbors g (r, c)) ≤ 8)%nat
  ∧ (∀ n, n ∈ getNeighbors g (r, c) →
          (0 ≤ (coordinate n).1 < size g ∧ 0 ≤ (coordinate n).2 < size g)
          ∧ weight n = PInt 1 ∧ py_eq (weight n) (PFloat lit_1_0) = true)
  ∧ (2 ≤ size g →
     ∀ corner, corner ∈ [(0, 0); (0, size g - 1);
                         (size g - 1, 0); (size g - 1, size g - 1)] →
               length (getNeighbors g corner) = 3%nat).
Proof.
  intros Hcls Hr Hc. unfold getNeighbors. rewrite Hcls.
  split; [apply Grid_getNeighbors_length|]. split.
  - intros n Hn.
    destruct (Grid_getNeighbors_in_board g (r, c) n) as [Hb Hw]; [done..|].
    by rewrite Hw.
  - intros Hs corner Hcorner.
    repeat (apply elem_of_cons in Hcorner as [->|Hcorner];
            [apply Grid_getNeighbors_corner; lia|]).
    by apply elem_of_nil in Hcorner.
Qed.

Lemma HexGrid6_getNeighbors_elem g r c n :
  n ∈ HexGrid6_getNeighbors g (r, c) ↔
  ∃ o, o ∈ HexGrid6_neighbors_offset (r `mod` 2 =? 1)
       ∧ tuple_in (-1) (r + o.1, c + o.2)
         || tuple_in (size g) (r + o.1, c + o.2) = false
       ∧ n = mkCell (r + o.1, c + o.2) (PInt 1).
Proof.
  etrans;
    [apply (neighbor_loop_elem
              (λ o, tuple_in (-1) (r + o.1, c + o.2)
                    || tuple_in (size g) (r + o.1, c + o.2))
              (λ o, mkCell (r + o.1, c + o.2) (PInt 1)))|].
  rewrite elem_of_nil. tauto.
Qed.

Lemma HexGrid6_getNeighbors_in_board g cell n :
  in_board (size g) cell → n ∈ HexGrid6_getNeighbors g cell →
  in_board (size g) (coordinate n) ∧ weight n = PInt 1.
Proof.
  destruct cell as [r c].
  intros [Hr Hc] (o & Ho & Hskip & ->)%HexGrid6_getNeighbors_elem.
  split; [|done]. unfold tuple_in in Hskip. simpl in *.
  split_skips.
  unfold in_board; simpl.
  destruct (r `mod` 2 =? 1); simpl in Ho;
    repeat (apply elem_of_cons in Ho as [->|Ho]; [simpl in *; lia|]);
    by apply elem_of_nil in Ho.
Qed.

Lemma HexGrid6_getNeighbors_length g cell :
  (length (HexGrid6_getNeighbors g cell) ≤ 6)%nat.
Proof.
  destruct cell as [r c].
  etrans;
    [apply (neighbor_loop_length
              (λ o, tuple_in (-1) (r + o.1, c + o.2)
                    || tuple_in (size g) (r + o.1, c + o.2))
              (λ o, mkCell (r + o.1, c + o.2) (PInt 1)))|].
  by destruct (r `mod` 2 =? 1).
Qed.

(** The cells that [HexGrid12.getNeighbors] appends to the inherited ones. *)
Lemma HexGrid12_getNeighbors_split g r c :
  HexGrid12_getNeighbors g (r, c)
  = HexGrid6_getNeighbors g (r, c)
    ++ ((λ o, mkCell (r + o.1, c + o.2) (PFloat lit_0_3))
          <$> filter (λ o, tuple_in (-1) (r + o.1, c + o.2)
                           || tuple_in (-2) (r + o.1, c + o.2)
                           || tuple_in (size g) (r + o.1, c + o.2)
                           || tuple_in (size g + 1) (r + o.1, c + o.2)
                           = false)
                     (HexGrid12_neighbors_offset (r `mod` 2 =? 1))).
Proof.
  apply (neighbor_loop
           (λ o, tuple_in (-1) (r + o.1, c + o.2)
                 || tuple_in (-2) (r + o.1, c + o.2)
                 || tuple_in (size g) (r + o.1, c + o.2)
                 || tuple_in (size g + 1) (r + o.1, c + o.2))
           (λ o, mkCell (r + o.1, c + o.2) (PFloat lit_0_3))).
Qed.

Lemma HexGrid12_getNeighbors_in_board g cell n :
  in_board (size g) cell → n ∈ HexGrid12_getNeighbors g cell →
  in_board (size g) (coordinate n).
Proof.
  destruct cell as [r c]. intros Hcell.
  rewrite HexGrid12_getNeighbors_split, elem_of_app.
  intros [Hn|Hn]; [by eapply HexGrid6_getNeighbors_in_board|].
  apply list_elem_of_fmap in Hn as (o & -> & Ho).
  apply list_elem_of_filter in Ho as [Hskip Ho].
  destruct Hcell as [Hr Hc]. unfold tuple_in in Hskip. simpl in *.
  split_skips.
  unfold in_board; simpl.
  destruct (r `mod` 2 =? 1); simpl in Ho;
    repeat (apply elem_of_cons in Ho as [->|Ho]; [simpl in *; lia|]);
    by apply elem_of_nil in Ho.
Qed.

Lemma getNeighbors_in_board g cell n :
  in_board (size g) cell → n ∈ getNeighbors g cell →
  in_board (size g) (coordinate n).
Proof.
  unfold getNeighbors. intros Hcell Hn. destruct (cls g).
  - by eapply Grid_getNeighbors_in_board.
  - by eapply HexGrid6_getNeighbors_in_board.
  - by eapply HexGrid12_getNeighbors_in_board.
Qed.

(** C2, as the code has it.  On a Hex12 grid, the neighbours of a coordinate
    of the board are the inherited Hex6 neighbours (at most 6, each of
    weight 1) followed by at most 6 more cells, at most 12 in all; every
    one of the added cells has weight 0.3, the two far axial ones at the
    offsets (-2,0) and (2,0) included, which are present as soon as their
    row is on the board. *)
Theorem hex12_neighbors (g : Grid) (r c : Z) :
  cls g = ClsHexGrid12 → 0 ≤ r < size g → 0 ≤ c < size g →
  ∃ extra,
    getNeighbors g (r, c) = HexGrid6_getNeighbors g (r, c) ++ extra
    ∧ (length (getNeighbors g (r, c)) ≤ 12)%nat
    ∧ (length (HexGrid6_getNeighbors g (r, c)) ≤ 6)%nat
    ∧ (∀ n, n ∈ HexGrid6_getNeighbors g (r, c) → weight n = PInt 1)
    ∧ (length extra ≤ 6)%nat
    ∧ (∀ n, n ∈ extra →
            weight n = PFloat lit_0_3
            ∧ ∃ o, o ∈ HexGrid12_neighbors_offset (r `mod` 2 =? 1)
                   ∧ coordinate n = (r + o.1, c + o.2))
    ∧ (0 ≤ r - 2 → mkCell (r - 2, c) (PFloat lit_0_3) ∈ extra)
    ∧ (r + 2 < size g → mkCell (r + 2, c) (PFloat lit_0_3) ∈ extra).
Proof.
  intros Hcls Hr Hc. unfold getNeighbors. rewrite Hcls.
  rewrite HexGrid12_getNeighbors_split.
  pose proof (HexGrid6_getNeighbors_length g (r, c)) as H6.
  match goal with
  | |- context [filter ?P ?l] =>
      assert (length (filter P l) ≤ 6)%nat as H12
  end.
  { etrans; [apply length_filter|]. by destruct (r `mod` 2 =? 1). }
  eexists. split; [reflexivity|].
  rewrite length_app, !length_fmap.
  split; [lia|]. split; [done|]. split.
  { intros n Hn.
    by destruct (HexGrid6_getNeighbors_in_board g (r, c) n). }
  split; [done|]. split.
  { intros n (o & -> & Ho)%list_elem_of_fmap.
    apply list_elem_of_filter in Ho as [_ Ho]. split; [done|]. by exists o. }
  split.
  - intros Hfar. apply list_elem_of_fmap. exists (-2, 0). split.
    { simpl. do 2 f_equal; lia. }
    apply list_elem_of_filter. split.
    + unfold tuple_in. simpl. settle_eqb; reflexivity.
    + destruct (r `mod` 2 =? 1); simpl; find_elem.
  - intros Hfar. apply list_elem_of_fmap. exists (2, 0). split.
    { simpl. do 2 f_equal; lia. }
    apply list_elem_of_filter. split.
    + unfold tuple_in. simpl. settle_eqb; reflexivity.
    + destruct (r `mod` 2 =? 1); simpl; find_elem.
Qed.

(** ** Indexing, comprehensions and loops *)

Lemma py_index_lookup {A} (l : list A) i x :
  0 ≤ i → l !! Z.to_nat i = Some x → py_index l i = Returned x.
Proof.
  intros Hi Hx. unfold py_index.
  pose proof (lookup_lt_Some _ _ _ Hx) as Hlt.
  destruct (Z.ltb_spec i 0); [lia|].
  destruct (Z.leb_spec 0 i); [|lia].
  destruct (Z.ltb_spec i (Z.of_nat (length l))); [|lia].
  simpl. by rewrite Hx.
Qed.

Lemma py_setindex_insert {A} (l : list A) i x :
  0 ≤ i < Z.of_nat (length l) →
  py_setindex l i x = Returned (<[Z.to_nat i := x]> l).
Proof.
  intros Hi. unfold py_setindex.
  destruct (Z.ltb_spec i 0); [lia|].
  destruct (Z.leb_spec 0 i); [|lia].
  destruct (Z.ltb_spec i (Z.of_nat (length l))); [|lia].
  reflexivity.
Qed.

Lemma mapM_Returned {A B} (f : A → outcome B) (h : A → B) l :
  (∀ x, x ∈ l → f x = Returned (h x)) → mapM f l = Returned (h <$> l).
Proof.
  induction l as [|x l IH]; intros Hf; [done|].
  simpl. rewrite Hf by left. simpl.
  rewrite IH; [done|]. intros y Hy. apply Hf. by right.
Qed.

Lemma for_each_app {A S} (l1 l2 : list A) (body : A → S → outcome S) s :
  for_each (l1 ++ l2) body s = s' ← for_each l1 body s; for_each l2 body s'.
Proof.
  revert s. induction l1 as [|x l1 IH]; intros s; [done|].
  simpl. destruct (body x s) as [s1|e]; simpl; [apply IH | done].
Qed.

(** A loop over [range(0, n)] whose [k]-th round replaces the element of
    index [k] of a list leaves the elements [F 0], ..., [F (n - 1)].  The
    list may be a part of the state of the loop: [emb] puts it back in. *)
Lemma for_each_fill {A St} (emb : list A → St) (body : Z → St → outcome St)
    (F : Z → A) (l : list A) :
  (∀ (k : nat) pre x,
      length pre = k → l !! k = Some x →
      body (Z.of_nat k) (emb (pre ++ drop k l))
      = Returned (emb (pre ++ F (Z.of_nat k) :: drop (S k) l))) →
  ∀ k : nat, (k ≤ length l)%nat →
    for_each (seqZ 0 (Z.of_nat k)) body (emb l)
    = Returned (emb ((F <$> seqZ 0 (Z.of_nat k)) ++ drop k l)).
Proof.
  intros Hbody k. induction k as [|k IH]; intros Hk; [done|].
  rewrite seqZ_S, for_each_app, IH by lia. simpl.
  destruct (lookup_lt_is_Some_2 l k) as [x Hx]; [lia|].
  rewrite (Hbody k _ x), fmap_app, <- app_assoc; [done| |done].
  by rewrite length_fmap, length_seqZ, Nat2Z.id.
Qed.

Lemma for_each_fill_all {A St} (emb : list A → St)
    (body : Z → St → outcome St)
    (F : Z → A) (l : list A) :
  (∀ (k : nat) pre x,
      length pre = k → l !! k = Some x →
      body (Z.of_nat k) (emb (pre ++ drop k l))
      = Returned (emb (pre ++ F (Z.of_nat k) :: drop (S k) l))) →
  for_each (range 0 (Z.of_nat (length l))) body (emb l)
  = Returned (emb (F <$> range 0 (Z.of_nat (length l)))).
Proof.
  intros Hbody. unfold range. rewrite Z.sub_0_r.
  rewrite (for_each_fill emb body F l Hbody) by done.
  by rewrite drop_all, app_nil_r.
Qed.

(** ** One generation *)

Lemma well_formed_lookup g (p : Z * Z) :
  well_formed g → in_board (size g) p →
  ∃ row v, cells g !! Z.to_nat p.1 = Some row
           ∧ Z.of_nat (length row) = size g
           ∧ row !! Z.to_nat p.2 = Some v.
Proof.
  intros [Hlen Hrows] [Hr Hc].
  destruct (lookup_lt_is_Some_2 (cells g) (Z.to_nat p.1)) as [row Hrow];
    [lia|].
  pose proof (Forall_lookup_1 _ _ _ _ Hrows Hrow) as Hrowlen.
  simpl in Hrowlen.
  destruct (lookup_lt_is_Some_2 row (Z.to_nat p.2)) as [v Hv]; [lia|].
  by exists row, v.
Qed.

Lemma Grid_getitem_cell_at g p :
  well_formed g → in_board (size g) p →
  Grid_getitem g p = Returned (cell_at g p).
Proof.
  intros Hwf Hp.
  destruct (well_formed_lookup g p Hwf Hp) as (row & v & Hrow & _ & Hv).
  destruct Hp as [Hr Hc].
  unfold Grid_getitem, cell_at, symbol_at.
  rewrite (py_index_lookup _ _ row) by (done || lia). simpl.
  rewrite (py_index_lookup _ _ v) by (done || lia).
  destruct (Z.leb_spec 0 p.1); [|lia]. destruct (Z.leb_spec 0 p.2); [|lia].
  simpl. rewrite Hrow. simpl. by rewrite Hv.
Qed.

Lemma score_terms g cell :
  well_formed g → in_board (size g) cell →
  mapM (score_term g) (getNeighbors g cell)
  = Returned ((λ n, py_mul (if char_eqb (cell_at g (coordinate n)) chr_dot
                            then PInt 0 else PInt 1) (weight n))
                <$> getNeighbors g cell).
Proof.
  intros Hwf Hcell. apply mapM_Returned. intros n Hn.
  unfold score_term. rewrite Grid_getitem_cell_at; [done..|].
  by eapply getNeighbors_in_board.
Qed.

Lemma update_cell_spec g (i k : nat) rows_pre rows_post pre row x :
  well_formed g → in_board (size g) (Z.of_nat i, Z.of_nat k) →
  length rows_pre = i → length pre = k → row !! k = Some x →
  update_cell g (Z.of_nat i) (Z.of_nat k)
              (rows_pre ++ (pre ++ drop k row) :: rows_post)
  = Returned (rows_pre
              ++ (pre ++ next_symbol g (Z.of_nat i) (Z.of_nat k)
                      :: drop (S k) row) :: rows_post).
Proof.
  intros Hwf Hcell Hi Hk Hx. unfold update_cell.
  rewrite score_terms by done. simpl.
  rewrite Grid_getitem_cell_at by done. simpl.
  fold (score g (Z.of_nat i, Z.of_nat k)).
  fold (next_symbol g (Z.of_nat i) (Z.of_nat k)).
  rewrite (py_index_lookup _ _ (pre ++ drop k row)); [|lia|]; last first.
  { rewrite Nat2Z.id, <- Hi. apply list_lookup_middle. done. }
  simpl. rewrite (drop_S _ _ _ Hx).
  rewrite py_setindex_insert; last first.
  { rewrite length_app. simpl. lia. }
  simpl. rewrite py_setindex_insert; last first.
  { rewrite length_app. simpl. lia. }
  rewrite !Nat2Z.id. f_equal.
  rewrite <- Hi, <- Hk.
  rewrite (insert_app_r_alt pre), (insert_app_r_alt rows_pre) by lia.
  by rewrite !Nat.sub_diag.
Qed.

(** [update] returns, and what it returns is the board of the symbols
    computed from the old one. *)
Lemma update_next_generation g :
  well_formed g → update g = Returned (next_generation g).
Proof.
  intros Hwf. pose proof Hwf as [Hlen Hrows].
  unfold update, next_generation, board.
  set (inner := λ (row : Z) (new_cells : list (list char)),
         for_each (range 0 (size g))
           (λ col nc, update_cell g row col nc) new_cells).
  assert (∀ s, s = Z.of_nat (length (cells g)) →
               for_each (range 0 s) inner (cells g)
               = Returned ((λ r, next_symbol g r <$> range 0 (size g))
                             <$> range 0 s)) as ->; [|done..].
  intros s ->. apply (for_each_fill_all (λ l, l)).
  intros i rows_pre row Hi Hrow.
  pose proof (Forall_lookup_1 _ _ _ _ Hrows Hrow) as Hrowlen.
  simpl in Hrowlen.
  pose proof (lookup_lt_Some _ _ _ Hrow) as Hilt.
  rewrite (drop_S _ _ _ Hrow). unfold inner. rewrite <- Hrowlen.
  apply (for_each_fill_all (λ r, rows_pre ++ r :: drop (S i) (cells g))).
  intros k pre x Hk Hx.
  pose proof (lookup_lt_Some _ _ _ Hx) as Hklt.
  apply (update_cell_spec g i k rows_pre _ pre row x); try done.
  split; simpl; lia.
Qed.

(** ** Boards *)

Lemma range_lookup (s : Z) (i : nat) :
  Z.of_nat i < s → range 0 s !! i = Some (Z.of_nat i).
Proof.
  intros Hi. unfold range. by rewrite lookup_seqZ_lt by lia.
Qed.

Lemma range_length (s : Z) : length (range 0 s) = Z.to_nat s.
Proof. unfold range. rewrite length_seqZ. f_equal. lia. Qed.

Lemma board_ext s f f' :
  (∀ r c, 0 ≤ r < s → 0 ≤ c < s → f r c = f' r c) →
  board s f = board s f'.
Proof.
  intros Hf. unfold board. apply list_fmap_ext. intros i r Hr.
  apply lookup_seqZ in Hr as [-> Hi].
  apply list_fmap_ext. intros j c Hc.
  apply lookup_seqZ in Hc as [-> Hj].
  apply Hf; lia.
Qed.

Lemma board_lookup s f (r c : Z) :
  0 ≤ r < s → 0 ≤ c < s →
  board s f !! Z.to_nat r = Some (f r <$> range 0 s)
  ∧ (f r <$> range 0 s) !! Z.to_nat c = Some (f r c).
Proof.
  intros Hr Hc. unfold board.
  rewrite !list_lookup_fmap, !range_lookup by lia.
  simpl. by rewrite !Z2Nat.id by lia.
Qed.

Lemma symbol_at_board k s f p :
  in_board s p → symbol_at (mkGrid k s (board s f)) p = Some (f p.1 p.2).
Proof.
  intros [Hr Hc]. unfold symbol_at. simpl.
  destruct (board_lookup s f p.1 p.2 Hr Hc) as [-> Hv].
  destruct (Z.leb_spec 0 p.1); [|lia]. destruct (Z.leb_spec 0 p.2); [|lia].
  done.
Qed.

Lemma board_well_formed k s f : 0 ≤ s → well_formed (mkGrid k s (board s f)).
Proof.
  intros Hs. unfold well_formed, board. simpl.
  rewrite length_fmap, range_length. split; [lia|].
  apply Forall_fmap, Forall_forall. intros r _. simpl.
  rewrite length_fmap, range_length. lia.
Qed.

Lemma well_formed_size g : well_formed g → 0 ≤ size g.
Proof. intros [Hlen _]. lia. Qed.

(** A well-formed grid is the board of its own symbols. *)
Lemma well_formed_board g :
  well_formed g → cells g = board (size g) (λ r c, cell_at g (r, c)).
Proof.
  intros Hwf. pose proof Hwf as [Hlen Hrows].
  apply list_eq. intros i. unfold board. rewrite list_lookup_fmap.
  destruct (decide (Z.of_nat i < size g)) as [Hi|Hi].
  - rewrite range_lookup by done. simpl.
    destruct (lookup_lt_is_Some_2 (cells g) i) as [row Hrow]; [lia|].
    rewrite Hrow. f_equal.
    pose proof (Forall_lookup_1 _ _ _ _ Hrows Hrow) as Hrowlen.
    simpl in Hrowlen.
    apply list_eq. intros j. rewrite list_lookup_fmap.
    destruct (decide (Z.of_nat j < size g)) as [Hj|Hj].
    + rewrite range_lookup by done. simpl.
      destruct (lookup_lt_is_Some_2 row j) as [v Hv]; [lia|].
      rewrite Hv. unfold cell_at, symbol_at. simpl.
      destruct (Z.leb_spec 0 (Z.of_nat i)); [|lia].
      destruct (Z.leb_spec 0 (Z.of_nat j)); [|lia].
      simpl. rewrite !Nat2Z.id, Hrow. simpl. by rewrite Hv.
    + rewrite (lookup_ge_None_2 row) by lia.
      rewrite (lookup_ge_None_2 (range 0 (size g)));
        [done | rewrite range_length; lia].
  - rewrite (lookup_ge_None_2 (cells g)) by lia.
    rewrite (lookup_ge_None_2 (range 0 (size g)));
      [done | rewrite range_length; lia].
Qed.

Lemma next_generation_well_formed g :
  well_formed g → well_formed (next_generation g).
Proof. intros Hwf. by apply board_well_formed, well_formed_size. Qed.

Lemma next_generation_symbol g p :
  in_board (size g) p →
  symbol_at (next_generation g) p = Some (next_symbol g p.1 p.2).
Proof. apply symbol_at_board. Qed.

Lemma symbol_at_in_board g q :
  well_formed g → in_board (size g) q → symbol_at g q = Some (cell_at g q).
Proof.
  intros Hwf Hq.
  destruct (well_formed_lookup g q Hwf Hq) as (row & v & Hrow & _ & Hv).
  destruct Hq as [Hr Hc]. unfold cell_at, symbol_at.
  destruct (Z.leb_spec 0 q.1); [|lia]. destruct (Z.leb_spec 0 q.2); [|lia].
  simpl. rewrite Hrow. simpl. by rewrite Hv.
Qed.

Lemma symbol_at_off_board g q :
  well_formed g → ¬ in_board (size g) q → symbol_at g q = None.
Proof.
  intros [Hlen Hrows] Hq. unfold symbol_at, in_board in *.
  destruct (Z.leb_spec 0 q.1); [|done]. destruct (Z.leb_spec 0 q.2); [|done].
  simpl.
  destruct (cells g !! Z.to_nat q.1) as [row|] eqn:Hrow; [|done]. simpl.
  pose proof (lookup_lt_Some _ _ _ Hrow) as Hlt.
  pose proof (Forall_lookup_1 _ _ _ _ Hrows Hrow) as Hrowlen.
  simpl in Hrowlen. apply lookup_ge_None_2. lia.
Qed.

Lemma next_symbol_X_or_dot g r c :
  next_symbol g r c = chr_X ∨ next_symbol g r c = chr_dot.
Proof. unfold next_symbol. destruct (live _ _ _); auto. Qed.

(** C10.  [update] keeps the shape of the cell array: on a grid of [size]
    rows of [size] cells it returns, the grid it leaves has [size] rows of
    [size] cells again, and its [size] (and its class) are the old ones. *)
Theorem update_preserves_shape (g : Grid) :
  Z.of_nat (length (cells g)) = size g →
  Forall (λ row, Z.of_nat (length row) = size g) (cells g) →
  ∃ g', update g = Returned g'
        ∧ size g' = size g
        ∧ cls g' = cls g
        ∧ Z.of_nat (length (cells g')) = size g
        ∧ Forall (λ row, Z.of_nat (length row) = size g) (cells g').
Proof.
  intros Hlen Hrows. assert (well_formed g) as Hwf by done.
  exists (next_generation g).
  split; [by apply update_next_generation|].
  destruct (next_generation_well_formed g Hwf) as [Hlen' Hrows'].
  done.
Qed.

(** C9.  On a well-formed grid, of any class and with any symbols in
    its cells, [update] returns a grid of the same class and size that
    is well-formed again: it has a cell at each coordinate of the [size]
    by [size] board and nowhere else, and each of these cells, like every
    element of every row of the new array, holds ['X'] or ['.']. *)
Theorem update_symbols (g : Grid) :
  well_formed g →
  ∃ g', update g = Returned g'
        ∧ cls g' = cls g ∧ size g' = size g ∧ well_formed g'
        ∧ (∀ p, in_board (size g) p →
                symbol_at g' p = Some chr_X ∨ symbol_at g' p = Some chr_dot)
        ∧ (∀ p, ¬ in_board (size g) p → symbol_at g' p = None)
        ∧ ∀ row v, row ∈ cells g' → v ∈ row → v = chr_X ∨ v = chr_dot.
Proof.
  intros Hwf. exists (next_generation g).
  split; [by apply update_next_generation|].
  split; [done|]. split; [done|].
  split; [by apply next_generation_well_formed|]. split; [|split].
  - intros p Hp. rewrite next_generation_symbol by done.
    destruct (next_symbol_X_or_dot g p.1 p.2) as [-> | ->]; auto.
  - intros p Hp. apply symbol_at_off_board; [|done].
    by apply next_generation_well_formed.
  - intros row v Hrow Hv. simpl in Hrow. unfold board in Hrow.
    apply list_elem_of_fmap in Hrow as (r & -> & _).
    apply list_elem_of_fmap in Hv as (c & -> & _).
    apply next_symbol_X_or_dot.
Qed.

(** ** Boards without a live cell *)

Lemma cell_at_all_dead g p : all_dead g → cell_at g p = chr_dot.
Proof.
  intros Hdead. unfold cell_at, symbol_at.
  destruct ((0 <=? p.1) && (0 <=? p.2)); [|done].
  destruct (cells g !! Z.to_nat p.1) as [row|] eqn:Hrow; [|done]. simpl.
  destruct (row !! Z.to_nat p.2) as [v|] eqn:Hv; [|done]. simpl.
  pose proof (Forall_lookup_1 _ _ _ _ Hdead Hrow) as Hrowdead.
  apply (Forall_lookup_1 _ _ _ _ Hrowdead Hv).
Qed.

Lemma getNeighbors_weight g cell n :
  n ∈ getNeighbors g cell →
  weight n = PInt 1 ∨ weight n = PFloat lit_0_3.
Proof.
  unfold getNeighbors. destruct cell as [r c]. destruct (cls g).
  - intros (o & _ & _ & ->)%Grid_getNeighbors_elem. by left.
  - intros (o & _ & _ & ->)%HexGrid6_getNeighbors_elem. by left.
  - rewrite HexGrid12_getNeighbors_split, elem_of_app.
    intros [(o & _ & _ & ->)%HexGrid6_getNeighbors_elem|Hn]; [by left|].
    apply list_elem_of_fmap in Hn as (o & -> & _). by right.
Qed.

(** The neighbours of weight 1 come first: in the terms of a score no
    integer follows a float. *)
Lemma neighbors_weights_in_order g cell :
  ∃ inner outer,
    getNeighbors g cell = inner ++ outer
    ∧ Forall (λ n, weight n = PInt 1) inner
    ∧ Forall (λ n, weight n = PFloat lit_0_3) outer.
Proof.
  unfold getNeighbors. destruct cell as [r c]. destruct (cls g).
  - exists (Grid_getNeighbors g (r, c)), []. rewrite app_nil_r.
    split; [done|]. split; [|constructor]. apply Forall_forall.
    by intros n (o & _ & _ & ->)%Grid_getNeighbors_elem.
  - exists (HexGrid6_getNeighbors g (r, c)), []. rewrite app_nil_r.
    split; [done|]. split; [|constructor]. apply Forall_forall.
    by intros n (o & _ & _ & ->)%HexGrid6_getNeighbors_elem.
  - rewrite HexGrid12_getNeighbors_split. eexists _, _.
    split; [done|]. split; apply Forall_forall.
    + by intros n (o & _ & _ & ->)%HexGrid6_getNeighbors_elem.
    + by intros n (o & -> & _)%list_elem_of_fmap.
Qed.

Lemma py_add_zero x y : is_zero x → is_zero y → is_zero (py_add x y).
Proof. intros [-> | ->] [-> | ->]; vm_compute; auto. Qed.

Lemma sum_floats_zero terms :
  Forall is_zero terms → sum_floats lit_0_0 lit_0_0 terms = lit_0_0.
Proof.
  induction terms as [|t terms IH]; intros Hterms; [done|].
  apply Forall_cons in Hterms as [[-> | ->] Hterms]; by apply IH.
Qed.

Lemma sum_ints_zero terms : Forall is_zero terms → is_zero (sum_ints 0 terms).
Proof.
  induction terms as [|t terms IH]; intros Hterms; [by left|].
  apply Forall_cons in Hterms as [[-> | ->] Hterms]; [by apply IH|].
  right. simpl. f_equal. by apply sum_floats_zero.
Qed.

Lemma py_sum_zero terms : Forall is_zero terms → is_zero (py_sum terms).
Proof.
  unfold py_sum. destruct sum_is_compensated; [apply sum_ints_zero|].
  assert (is_zero (PInt 0)) as Hacc by (by left).
  revert Hacc. generalize (PInt 0).
  induction terms as [|t terms IH]; intros acc Hacc Hterms; [done|].
  apply Forall_cons in Hterms as [Ht Hterms]. simpl.
  apply IH; [by apply py_add_zero | done].
Qed.

Lemma score_all_dead g cell : all_dead g → is_zero (score g cell).
Proof.
  intros Hdead. unfold score. apply py_sum_zero.
  apply Forall_fmap, Forall_forall. intros n Hn. simpl.
  rewrite cell_at_all_dead by done.
  destruct (getNeighbors_weight g cell n Hn) as [-> | ->];
    vm_compute; auto.
Qed.

Lemma live_dot_zero g x : is_zero x → live g chr_dot x = false.
Proof. intros [-> | ->]; unfold live; by destruct (cls g). Qed.

Lemma next_symbol_all_dead g r c : all_dead g → next_symbol g r c = chr_dot.
Proof.
  intros Hdead. unfold next_symbol.
  rewrite cell_at_all_dead by done.
  by rewrite (live_dot_zero g _ (score_all_dead g (r, c) Hdead)).
Qed.

Lemma update_all_dead g :
  well_formed g → all_dead g → update g = Returned g.
Proof.
  intros Hwf Hdead. rewrite update_next_generation by done. f_equal.
  destruct g as [k s cs]. unfold next_generation. simpl. f_equal.
  rewrite (well_formed_board (mkGrid k s cs) Hwf) at 2. simpl.
  apply board_ext. intros r c _ _.
  by rewrite next_symbol_all_dead, cell_at_all_dead.
Qed.

Lemma generations_all_dead n g :
  well_formed g → all_dead g → generations n g = Returned g.
Proof.
  intros Hwf Hdead. induction n as [|n IH]; [done|].
  simpl. by rewrite update_all_dead.
Qed.

(** ** Random construction *)

Arguments random_symbol : simpl never.

Lemma random_row_spec prob (l : list Z) st :
  ∃ row st',
    comprehension (λ r_idx, random_symbol prob) l st = (row, st')
    ∧ length row = length l
    ∧ Forall (λ v, v = chr_X ∨ v = chr_dot) row
    ∧ draws st' = draws st
    ∧ calls st' = (calls st + length l)%nat
    ∧ ((∀ k, py_lt (PFloat (draws st k)) prob = false) →
       row = replicate (length l) chr_dot).
Proof.
  revert st. induction l as [|i l IH]; intros st.
  - exists [], st. simpl. repeat split; auto with lia.
  - simpl.
    destruct (IH (mkRandom (draws st) (S (calls st))))
      as (row & st' & -> & Hlen & Hsym & Hdraws & Hcalls & Hdead).
    simpl in *. eexists _, st'. split; [reflexivity|].
    repeat split; simpl; auto with lia.
    + constructor; [|done]. destruct (py_lt _ _); auto.
    + intros Hlt. by rewrite Hlt, Hdead.
Qed.

Lemma random_rows_spec prob (inner outer : list Z) st :
  ∃ rows st',
    comprehension (λ c_idx, comprehension (λ r_idx, random_symbol prob) inner)
                  outer st = (rows, st')
    ∧ length rows = length outer
    ∧ Forall (λ row, length row = length inner
                     ∧ Forall (λ v, v = chr_X ∨ v = chr_dot) row) rows
    ∧ draws st' = draws st
    ∧ calls st' = (calls st + length outer * length inner)%nat
    ∧ ((∀ k, py_lt (PFloat (draws st k)) prob = false) →
       rows = replicate (length outer) (replicate (length inner) chr_dot)).
Proof.
  revert st. induction outer as [|i outer IH]; intros st.
  - exists [], st. simpl. repeat split; auto with lia.
  - simpl.
    destruct (random_row_spec prob inner st)
      as (row & st1 & -> & Hlen1 & Hsym1 & Hdraws1 & Hcalls1 & Hdead1).
    destruct (IH st1)
      as (rows & st' & -> & Hlen & Hsym & Hdraws & Hcalls & Hdead).
    exists (row :: rows), st'. split; [reflexivity|].
    repeat split; simpl; auto with lia; try congruence.
    intros Hlt. rewrite Hdead1 by done. rewrite Hdead; [done|].
    intros k. by rewrite Hdraws1.
Qed.

Lemma Grid_init_random c fs s prob st :
  ∃ rows st',
    Grid_init c fs (ArgTuple s prob) st = Returned (mkGrid c s rows, st', [])
    ∧ length rows = Z.to_nat s
    ∧ Forall (λ row, length row = Z.to_nat s
                     ∧ Forall (λ v, v = chr_X ∨ v = chr_dot) row) rows
    ∧ ((∀ k, py_lt (PFloat (draws st k)) prob = false) →
       rows = replicate (Z.to_nat s) (replicate (Z.to_nat s) chr_dot)).
Proof.
  destruct (random_rows_spec prob (range 0 s) (range 0 s) st)
    as (rows & st' & Hrows & Hlen & Hsym & _ & _ & Hdead).
  exists rows, st'. unfold Grid_init. rewrite Hrows.
  by rewrite range_length in *.
Qed.

Lemma unit_interval_not_negative x :
  unit_interval x → py_lt (PFloat x) (PFloat lit_0_0) = false.
Proof.
  intros [Hle _]. unfold py_lt. simpl.
  destruct x as [s|s| |s m e]; simpl in *; try done; by destruct s.
Qed.

(** C6.  Whatever its class and its size, a well-formed grid without a live
    cell is left as it is by [update], hence by any number of calls of it;
    and the Rect8 grid of size 5 built with probability 0.0 renders as five
    rows of five ['.'] at the start and after each of 3 generations. *)
Theorem all_dead_stays_dead (g : Grid) (n : nat) (fs : filesystem)
    (st : Random) :
  well_formed g → all_dead g → (∀ k, unit_interval (draws st k)) →
  update g = Returned g
  ∧ generations n g = Returned g
  ∧ ∃ g5 st',
      Grid_init ClsGrid fs (ArgTuple 5 (PFloat lit_0_0)) st
      = Returned (g5, st', [])
      ∧ ∀ k : nat, (k ≤ 3)%nat →
          ∃ g', generations k g5 = Returned g'
                ∧ repr g' = Returned five_rows.
Proof.
  intros Hwf Hdead Hdraws.
  split; [by apply update_all_dead|].
  split; [by apply generations_all_dead|].
  destruct (Grid_init_random ClsGrid fs 5 (PFloat lit_0_0) st)
    as (rows & st' & Hinit & _ & _ & Hrows).
  rewrite Hrows in Hinit
    by (intros k; apply unit_interval_not_negative, Hdraws).
  eexists _, st'. split; [exact Hinit|].
  intros k _.
  exists (mkGrid ClsGrid 5 (replicate 5 (replicate 5 chr_dot))).
  split; [|reflexivity].
  apply generations_all_dead.
  - split; [reflexivity|]. repeat constructor.
  - repeat constructor.
Qed.

(** C3, as the code has it.  The random construction checks neither the
    size nor the probability: for every size, probability and state of the
    generator it returns a grid, which keeps the size it was given and has
    [max(size, 0)] rows of [max(size, 0)] cells, each ['X'] or ['.']; for a
    size that is not positive the grid has no cell. *)
Theorem init_random_total (c : grid_class) (fs : filesystem) (s : Z)
    (prob : pynum) (st : Random) :
  ∃ rows st',
    Grid_init c fs (ArgTuple s prob) st = Returned (mkGrid c s rows, st', [])
    ∧ length rows = Z.to_nat s
    ∧ Forall (λ row, length row = Z.to_nat s
                     ∧ Forall (λ v, v = chr_X ∨ v = chr_dot) row) rows
    ∧ (s ≤ 0 → rows = []).
Proof.
  destruct (Grid_init_random c fs s prob st)
    as (rows & st' & Hinit & Hlen & Hsym & _).
  exists rows, st'. repeat split; try done.
  intros Hs. apply length_zero_iff_nil. lia.
Qed.

(** ** The score of a Rect8 cell *)

Lemma py_sum_ints {A} (h : A → Z) (l : list A) (a : Z) :
  foldl py_add (PInt a) ((λ x, PInt (h x)) <$> l)
  = PInt (a + foldr (λ x n, h x + n) 0 l).
Proof.
  revert a. induction l as [|x l IH]; intros a; simpl.
  - f_equal. lia.
  - rewrite IH. f_equal. lia.
Qed.

Lemma sum_ints_app {A} (h : A → Z) (l : list A) (a : Z) rest :
  sum_ints a (((λ x, PInt (h x)) <$> l) ++ rest)
  = sum_ints (a + foldr (λ x n, h x + n) 0 l) rest.
Proof.
  revert a. induction l as [|x l IH]; intros a; simpl.
  - f_equal. lia.
  - rewrite IH. f_equal. lia.
Qed.

(** A sum of integers is the same for both interpreters. *)
Lemma py_sum_all_ints {A} (h : A → Z) (l : list A) :
  py_sum ((λ x, PInt (h x)) <$> l) = PInt (foldr (λ x n, h x + n) 0 l).
Proof.
  unfold py_sum. destruct sum_is_compensated.
  - rewrite <- (app_nil_r (_ <$> l)). by rewrite sum_ints_app.
  - by rewrite py_sum_ints.
Qed.

Lemma foldr_filter_skip {A} (h : A → Z) (skip : A → bool) (l : list A) :
  foldr (λ x n, h x + n) 0 (filter (λ o, skip o = false) l)
  = foldr (λ x n, (if skip x then 0 else h x) + n) 0 l.
Proof.
  induction l as [|x l IH]; [done|].
  rewrite filter_cons. simpl. destruct (skip x) eqn:E.
  - by rewrite decide_False by done.
  - rewrite decide_True by done. simpl. by rewrite IH.
Qed.

Lemma foldr_add_ext {A} (h h' : A → Z) (l : list A) :
  (∀ x, x ∈ l → h x = h' x) →
  foldr (λ x n, h x + n) 0 l = foldr (λ x n, h' x + n) 0 l.
Proof.
  induction l as [|x l IH]; intros Hh; [done|].
  simpl. rewrite Hh by left. rewrite IH; [done|].
  intros y Hy. apply Hh. by right.
Qed.

Lemma count_if_fmap {A B} (b : B → bool) (f : A → B) (l : list A) :
  count_if b (f <$> l) = foldr (λ x n, (if b (f x) then 1 else 0) + n) 0 l.
Proof.
  unfold count_if. induction l as [|x l IH]; [done|]. simpl. by f_equal.
Qed.

Lemma moore_offsets p :
  moore p = (λ o, (p.1 + o.1, p.2 + o.2)) <$> Grid_neighbors_offset.
Proof.
  rewrite Grid_neighbors_offset_eq. unfold moore. simpl.
  by rewrite !Z.add_0_r.
Qed.

Lemma rect8_score g p :
  cls g = ClsGrid → well_formed g → in_board (size g) p →
  score g p = PInt (marked_neighbors g p).
Proof.
  intros Hcls Hwf Hp. unfold score, getNeighbors. rewrite Hcls.
  unfold Grid_getNeighbors, marked_neighbors. rewrite moore_offsets.
  pose proof Grid_neighbors_offset_eq as Hoffsets.
  remember Grid_neighbors_offset as offsets eqn:E. clear E.
  rewrite (neighbor_loop
             (λ o, tuple_in (-1) (p.1 + o.1, p.2 + o.2)
                   || tuple_in (size g) (p.1 + o.1, p.2 + o.2))
             (λ o, mkCell (p.1 + o.1, p.2 + o.2) (PInt 1))).
  simpl. rewrite <- list_fmap_compose.
  rewrite (list_fmap_ext _
             (λ o, PInt (if char_eqb (cell_at g (p.1 + o.1, p.2 + o.2))
                              chr_dot then 0 else 1))); last first.
  { intros i o _. simpl. by destruct (char_eqb _ _). }
  rewrite py_sum_all_ints, foldr_filter_skip. f_equal.
  rewrite count_if_fmap. apply foldr_add_ext. intros o Ho.
  rewrite Hoffsets in Ho. unfold is_marked.
  destruct Hp as [Hr Hc].
  destruct (tuple_in (-1) _ || tuple_in (size g) _) eqn:Hskip.
  - rewrite symbol_at_off_board; [done..|].
    unfold tuple_in in Hskip. simpl in Hskip. unfold in_board. simpl.
    apply orb_true_iff in Hskip as [Hskip|Hskip];
      apply orb_true_iff in Hskip as [Hskip|Hskip];
      apply Z.eqb_eq in Hskip; lia.
  - rewrite symbol_at_in_board; [by destruct (char_eqb _ _)|done|].
    unfold tuple_in in Hskip. simpl in Hskip. split_skips.
    unfold in_board; simpl.
    repeat (apply elem_of_cons in Ho as [->|Ho]; [simpl in *; lia|]).
    by apply elem_of_nil in Ho.
Qed.

Lemma Grid_live_int v n :
  Grid_live v (PInt n)
  = char_eqb v chr_X && ((n =? 2) || (n =? 3))
    || char_eqb v chr_dot && (n =? 3).
Proof.
  unfold Grid_live, py_eq. simpl. by rewrite !Z.eqb_compare.
Qed.

Lemma rect8_next_symbol g p :
  cls g = ClsGrid → well_formed g → in_board (size g) p →
  next_symbol g p.1 p.2
  = if char_eqb (cell_at g p) chr_X
       && ((marked_neighbors g p =? 2) || (marked_neighbors g p =? 3))
       || char_eqb (cell_at g p) chr_dot && (marked_neighbors g p =? 3)
    then chr_X else chr_dot.
Proof.
  intros Hcls Hwf Hp. unfold next_symbol, live.
  rewrite <- surjective_pairing, rect8_score, Hcls by done.
  by rewrite Grid_live_int.
Qed.

(** ** Conway's rule on Rect8 *)

Lemma symbol_at_elem g q v :
  symbol_at g q = Some v → ∃ row, row ∈ cells g ∧ v ∈ row.
Proof.
  unfold symbol_at. destruct ((0 <=? q.1) && (0 <=? q.2)); [|done].
  destruct (cells g !! Z.to_nat q.1) as [row|] eqn:Hrow; [|done]. simpl.
  intros Hv. exists row. split; by eapply list_elem_of_lookup_2.
Qed.

Lemma two_symbols_at g q v :
  two_symbols g → symbol_at g q = Some v → v = chr_X ∨ v = chr_dot.
Proof.
  intros Htwo (row & Hrow & Hv)%symbol_at_elem.
  unfold two_symbols in Htwo. rewrite Forall_forall in Htwo.
  specialize (Htwo row Hrow). rewrite Forall_forall in Htwo. auto.
Qed.

Lemma two_symbols_marked g q : two_symbols g → is_marked g q = is_alive g q.
Proof.
  intros Htwo. unfold is_marked, is_alive.
  destruct (symbol_at g q) as [v|] eqn:Hv; [|done].
  by destruct (two_symbols_at g q v Htwo Hv) as [-> | ->].
Qed.

Lemma two_symbols_neighbors g p :
  two_symbols g → marked_neighbors g p = alive_neighbors g p.
Proof.
  intros Htwo. unfold marked_neighbors, alive_neighbors, count_if.
  apply foldr_add_ext. intros q _. by rewrite two_symbols_marked.
Qed.

Lemma two_symbols_next g p :
  cls g = ClsGrid → well_formed g → two_symbols g → in_board (size g) p →
  next_symbol g p.1 p.2 = if conway g p then chr_X else chr_dot.
Proof.
  intros Hcls Hwf Htwo Hp. rewrite rect8_next_symbol by done.
  rewrite two_symbols_neighbors by done. unfold conway, is_alive.
  pose proof (symbol_at_in_board g p Hwf Hp) as Hv. rewrite Hv.
  destruct (two_symbols_at g p _ Htwo Hv) as [-> | ->]; simpl.
  - by rewrite orb_false_r.
  - done.
Qed.

Lemma next_generation_two_symbols g : two_symbols (next_generation g).
Proof.
  unfold two_symbols, next_generation, board. simpl.
  apply Forall_fmap, Forall_forall. intros r _. simpl.
  apply Forall_fmap, Forall_forall. intros c _. simpl.
  apply next_symbol_X_or_dot.
Qed.

(** C1.  On a Rect8 grid whose cells all hold ['X'] or ['.'], [update]
    returns, and the grid it leaves is the synchronous Conway step of the
    old one: at every coordinate the new cell is alive exactly when
    [conway] says so of the old grid, that is, for a live cell, when it
    had 2 or 3 live neighbours, and for a dead one, when it had exactly 3.
    The new symbol is a function of the old grid alone. *)
Theorem rect8_update_is_conway (g : Grid) :
  cls g = ClsGrid → well_formed g → two_symbols g →
  ∃ g', update g = Returned g'
        ∧ cls g' = ClsGrid ∧ size g' = size g
        ∧ well_formed g' ∧ two_symbols g'
        ∧ ∀ p, in_board (size g) p →
               symbol_at g' p = Some (if conway g p then chr_X else chr_dot)
               ∧ is_alive g' p = conway g p
               ∧ (is_alive g p = true →
                  (is_alive g' p = true
                   ↔ alive_neighbors g p = 2 ∨ alive_neighbors g p = 3))
               ∧ (is_alive g p = false →
                  (is_alive g' p = true ↔ alive_neighbors g p = 3)).
Proof.
  intros Hcls Hwf Htwo. exists (next_generation g).
  split; [by apply update_next_generation|].
  split; [done|]. split; [done|].
  split; [by apply next_generation_well_formed|].
  split; [apply next_generation_two_symbols|].
  intros p Hp.
  assert (symbol_at (next_generation g) p
          = Some (if conway g p then chr_X else chr_dot)) as Hsym.
  { rewrite next_generation_symbol by done. f_equal.
    by apply two_symbols_next. }
  assert (is_alive (next_generation g) p = conway g p) as Halive.
  { unfold is_alive at 1. rewrite Hsym. by destruct (conway g p). }
  split; [done|]. split; [done|]. rewrite Halive. unfold conway.
  split; intros ->.
  - rewrite orb_true_iff, !Z.eqb_eq. done.
  - by rewrite Z.eqb_eq.
Qed.

(** ** The score of a cell, class by class *)

Lemma on_board_spec s q : on_board s q = true ↔ in_board s q.
Proof.
  unfold on_board, in_board.
  destruct (Z.leb_spec 0 q.1), (Z.ltb_spec q.1 s), (Z.leb_spec 0 q.2),
    (Z.ltb_spec q.2 s); simpl; split; intros; (done || lia).
Qed.

Lemma is_marked_board k s f q :
  0 ≤ s →
  is_marked (mkGrid k s (board s f)) q
  = on_board s q && negb (char_eqb (f q.1 q.2) chr_dot).
Proof.
  intros Hs. unfold is_marked.
  pose proof (on_board_spec s q) as Hq. destruct (on_board s q).
  - by rewrite symbol_at_board by by apply Hq.
  - rewrite symbol_at_off_board; [done|by apply board_well_formed|].
    intros Hin. by apply Hq in Hin.
Qed.

Lemma count_if_ext {A} (b b' : A → bool) (l : list A) :
  (∀ x, b x = b' x) → count_if b l = count_if b' l.
Proof.
  intros Hb. unfold count_if. apply foldr_add_ext. intros x _.
  by rewrite Hb.
Qed.

Lemma count_if_bounds {A} (b : A → bool) (l : list A) :
  0 ≤ count_if b l ≤ Z.of_nat (length l).
Proof.
  unfold count_if. induction l as [|x l IH]; simpl; [lia|].
  destruct (b x); lia.
Qed.

(** The terms of the score that come from a table of offsets whose test
    skips exactly the cells off the board: their marks. *)
Lemma ring_terms g r c (T : list (Z * Z)) (skip : Z * Z → bool) (w : pynum) :
  well_formed g →
  (∀ o, o ∈ T → skip o = negb (on_board (size g) (r + o.1, c + o.2))) →
  (λ n, py_mul (if char_eqb (cell_at g (coordinate n)) chr_dot
                then PInt 0 else PInt 1) (weight n))
    <$> ((λ o, mkCell (r + o.1, c + o.2) w)
           <$> filter (λ o, skip o = false) T)
  = (λ o, py_mul (if is_marked g (r + o.1, c + o.2)
                  then PInt 1 else PInt 0) w)
      <$> filter (λ o, skip o = false) T.
Proof.
  intros Hwf Hskip. rewrite <- list_fmap_compose.
  apply list_fmap_ext. intros i o Ho. simpl.
  apply list_elem_of_lookup_2, list_elem_of_filter in Ho as [Hkept Ho].
  rewrite Hskip in Hkept by done. apply negb_false_iff in Hkept.
  apply on_board_spec in Hkept. unfold is_marked.
  rewrite symbol_at_in_board by done. by destruct (char_eqb _ _).
Qed.

Lemma ring_count g r c (T : list (Z * Z)) (skip : Z * Z → bool) :
  well_formed g →
  (∀ o, o ∈ T → skip o = negb (on_board (size g) (r + o.1, c + o.2))) →
  count_if (λ o, is_marked g (r + o.1, c + o.2))
           (filter (λ o, skip o = false) T)
  = count_if (is_marked g) ((λ o, (r + o.1, c + o.2)) <$> T).
Proof.
  intros Hwf Hskip. rewrite count_if_fmap. unfold count_if.
  rewrite (foldr_filter_skip
             (λ o, if is_marked g (r + o.1, c + o.2) then 1 else 0)).
  apply foldr_add_ext. intros o Ho. rewrite Hskip by done.
  destruct (on_board (size g) _) eqn:E; [done|]. simpl.
  unfold is_marked. rewrite symbol_at_off_board; [done..|].
  intros Hin. apply on_board_spec in Hin. congruence.
Qed.

Lemma py_sum_int_marks {A} (b : A → bool) (l : list A) (a : Z) :
  foldl py_add (PInt a)
        ((λ x, py_mul (if b x then PInt 1 else PInt 0) (PInt 1)) <$> l)
  = PInt (a + count_if b l).
Proof.
  rewrite (list_fmap_ext _ (λ x, PInt (if b x then 1 else 0)) l);
    [|by intros i x _; simpl; destruct (b x)].
  apply py_sum_ints.
Qed.

(** The tests of the loops skip exactly the cells off the board. *)
Lemma skip_unit g r c (o : Z * Z) :
  in_board (size g) (r, c) → -1 ≤ o.1 ≤ 1 → -1 ≤ o.2 ≤ 1 →
  tuple_in (-1) (r + o.1, c + o.2)
  || tuple_in (size g) (r + o.1, c + o.2)
  = negb (on_board (size g) (r + o.1, c + o.2)).
Proof.
  intros [Hr Hc] Ho1 Ho2. unfold tuple_in, on_board. simpl in *.
  destruct (Z.eqb_spec (r + o.1) (-1)), (Z.eqb_spec (c + o.2) (-1)),
    (Z.eqb_spec (r + o.1) (size g)), (Z.eqb_spec (c + o.2) (size g)),
    (Z.leb_spec 0 (r + o.1)), (Z.ltb_spec (r + o.1) (size g)),
    (Z.leb_spec 0 (c + o.2)), (Z.ltb_spec (c + o.2) (size g));
    simpl; (done || lia).
Qed.

Lemma skip_far g r c (o : Z * Z) :
  in_board (size g) (r, c) → -2 ≤ o.1 ≤ 2 → -2 ≤ o.2 ≤ 2 →
  tuple_in (-1) (r + o.1, c + o.2)
  || tuple_in (-2) (r + o.1, c + o.2)
  || tuple_in (size g) (r + o.1, c + o.2)
  || tuple_in (size g + 1) (r + o.1, c + o.2)
  = negb (on_board (size g) (r + o.1, c + o.2)).
Proof.
  intros [Hr Hc] Ho1 Ho2. unfold tuple_in, on_board. simpl in *.
  destruct (Z.leb_spec 0 (r + o.1)), (Z.ltb_spec (r + o.1) (size g)),
    (Z.leb_spec 0 (c + o.2)), (Z.ltb_spec (c + o.2) (size g)); simpl;
    try (all_differ; reflexivity);
    apply orb_true_iff;
    rewrite !orb_true_iff, !Z.eqb_eq; lia.
Qed.

Lemma hex6_offsets_unit odd o :
  o ∈ HexGrid6_neighbors_offset odd → -1 ≤ o.1 ≤ 1 ∧ -1 ≤ o.2 ≤ 1.
Proof.
  intros Ho. destruct odd; simpl in Ho;
    repeat (apply elem_of_cons in Ho as [->|Ho]; [simpl; lia|]);
    by apply elem_of_nil in Ho.
Qed.

Lemma hex12_offsets_far odd o :
  o ∈ HexGrid12_neighbors_offset odd → -2 ≤ o.1 ≤ 2 ∧ -2 ≤ o.2 ≤ 2.
Proof.
  intros Ho. destruct odd; simpl in Ho;
    repeat (apply elem_of_cons in Ho as [->|Ho]; [simpl; lia|]);
    by apply elem_of_nil in Ho.
Qed.

Lemma hex6_ring_offsets p :
  hex6_ring p
  = (λ o, (p.1 + o.1, p.2 + o.2))
      <$> HexGrid6_neighbors_offset (p.1 `mod` 2 =? 1).
Proof.
  unfold hex6_ring, hex_shift.
  destruct (p.1 `mod` 2 =? 1); simpl; by rewrite !Z.add_0_r.
Qed.

Lemma hex12_ring_offsets p :
  hex12_ring p
  = (λ o, (p.1 + o.1, p.2 + o.2))
      <$> HexGrid12_neighbors_offset (p.1 `mod` 2 =? 1).
Proof.
  unfold hex12_ring, hex_shift.
  destruct (p.1 `mod` 2 =? 1); simpl; by rewrite !Z.add_0_r.
Qed.

(** The terms of the score that the inner ring gives are integers: 1 for
    each cell of the ring that is on the board and holds anything but
    ['.'], 0 for the others. *)
Lemma hex6_terms g p :
  well_formed g → in_board (size g) p →
  ∃ kept : list (Z * Z),
    (λ n, py_mul (if char_eqb (cell_at g (coordinate n)) chr_dot
                  then PInt 0 else PInt 1) (weight n))
      <$> HexGrid6_getNeighbors g p
    = (λ o, PInt (if is_marked g (p.1 + o.1, p.2 + o.2) then 1 else 0))
        <$> kept
    ∧ foldr (λ o n, (if is_marked g (p.1 + o.1, p.2 + o.2) then 1 else 0)
                    + n) 0 kept
      = count_if (is_marked g) (hex6_ring p).
Proof.
  intros Hwf Hp. rewrite hex6_ring_offsets. destruct p as [r c].
  unfold HexGrid6_getNeighbors.
  rewrite (neighbor_loop
             (λ o, tuple_in (-1) (r + o.1, c + o.2)
                   || tuple_in (size g) (r + o.1, c + o.2))
             (λ o, mkCell (r + o.1, c + o.2) (PInt 1))).
  cbn [fst snd app].
  assert (∀ o, o ∈ HexGrid6_neighbors_offset (r `mod` 2 =? 1) →
               tuple_in (-1) (r + o.1, c + o.2)
               || tuple_in (size g) (r + o.1, c + o.2)
               = negb (on_board (size g) (r + o.1, c + o.2))) as Hskip.
  { intros o [Ho1 Ho2]%hex6_offsets_unit. by apply skip_unit. }
  rewrite (ring_terms g r c _ _ (PInt 1) Hwf Hskip).
  eexists. split.
  - apply list_fmap_ext. intros i o _. simpl.
    by destruct (is_marked g (r + o.1, c + o.2)).
  - by rewrite <- (ring_count g r c _ _ Hwf Hskip).
Qed.

Lemma hex6_score g p :
  cls g = ClsHexGrid6 → well_formed g → in_board (size g) p →
  score g p = PInt (count_if (is_marked g) (hex6_ring p)).
Proof.
  intros Hcls Hwf Hp. unfold score, getNeighbors. rewrite Hcls.
  destruct (hex6_terms g p Hwf Hp) as (kept & Hterms & <-).
  rewrite Hterms. apply py_sum_all_ints.
Qed.

Lemma up_to_six (a : Z) :
  0 ≤ a ≤ 6 → a = 0 ∨ a = 1 ∨ a = 2 ∨ a = 3 ∨ a = 4 ∨ a = 5 ∨ a = 6.
Proof. lia. Qed.

(** Adding the 0.0 of a dead cell of the outer ring leaves every score
    that can be reached as it is. *)
Lemma hex12_total_zero a (k : nat) :
  0 ≤ a ≤ 6 → (k ≤ 6)%nat →
  fadd (hex12_total a k) lit_0_0 = hex12_total a k.
Proof.
  intros Ha Hk.
  destruct (up_to_six a Ha) as [-> | [-> | [-> | [-> | [-> | [-> | ->]]]]]];
    do 7 (destruct k as [|k]; [vm_compute; reflexivity|]); lia.
Qed.

Lemma outer_sum {A} (b : A → bool) (l : list A) a (k : nat) :
  0 ≤ a ≤ 6 → (k + length l ≤ 6)%nat →
  foldl py_add (PFloat (hex12_total a k))
        ((λ x, py_mul (if b x then PInt 1 else PInt 0) (PFloat lit_0_3))
           <$> l)
  = PFloat (hex12_total a (k + Z.to_nat (count_if b l))).
Proof.
  intros Ha. revert k. induction l as [|x l IH]; intros k Hk.
  - unfold count_if. simpl. by rewrite Nat.add_0_r.
  - rewrite fmap_cons. cbn [foldl]. simpl in Hk.
    pose proof (count_if_bounds b l) as Hb.
    change (count_if b (x :: l))
      with ((if b x then 1 else 0) + count_if b l).
    destruct (b x).
    + change (py_add (PFloat (hex12_total a k))
                     (py_mul (PInt 1) (PFloat lit_0_3)))
        with (PFloat (hex12_total a (S k))).
      rewrite IH by lia. do 2 f_equal. lia.
    + change (py_add (PFloat (hex12_total a k))
                     (py_mul (PInt 0) (PFloat lit_0_3)))
        with (PFloat (fadd (hex12_total a k) lit_0_0)).
      rewrite hex12_total_zero by lia. rewrite IH by lia.
      do 2 f_equal.
Qed.

Lemma outer_sum_int {A} (b : A → bool) (l : list A) a :
  0 ≤ a ≤ 6 → (length l ≤ 6)%nat → l ≠ [] →
  foldl py_add (PInt a)
        ((λ x, py_mul (if b x then PInt 1 else PInt 0) (PFloat lit_0_3))
           <$> l)
  = PFloat (hex12_total a (Z.to_nat (count_if b l))).
Proof.
  intros Ha Hl Hne. destruct l as [|x l]; [done|].
  rewrite fmap_cons. cbn [foldl]. simpl in Hl.
  pose proof (count_if_bounds b l) as Hb.
  change (count_if b (x :: l)) with ((if b x then 1 else 0) + count_if b l).
  destruct (b x).
  - change (py_add (PInt a) (py_mul (PInt 1) (PFloat lit_0_3)))
      with (PFloat (hex12_total a 1)).
    rewrite outer_sum by lia. do 2 f_equal. lia.
  - change (py_add (PInt a) (py_mul (PInt 0) (PFloat lit_0_3)))
      with (PFloat (fadd (hex12_total a 0) lit_0_0)).
    rewrite hex12_total_zero by lia. rewrite outer_sum by lia.
    do 2 f_equal.
Qed.

(** The compensated sum: adding the 0.0 of a dead cell of the outer ring
    leaves the total and the compensation as they are. *)
Lemma sum_floats_float f c x rest :
  sum_floats f c (PFloat x :: rest)
  = sum_floats (neumaier (f, c) x).1 (neumaier (f, c) x).2 rest.
Proof. reflexivity. Qed.

Lemma hex12_compensation_zero a first (k : nat) :
  0 ≤ a ≤ 6 → (k ≤ 5)%nat →
  neumaier (hex12_compensation a first k) lit_0_0
  = hex12_compensation a first k.
Proof.
  intros Ha Hk.
  destruct (up_to_six a Ha) as [-> | [-> | [-> | [-> | [-> | [-> | ->]]]]]];
    destruct first;
    do 6 (destruct k as [|k]; [vm_compute; reflexivity|]); lia.
Qed.

Lemma outer_compensated {A} (b : A → bool) (l : list A) a first (k : nat) :
  0 ≤ a ≤ 6 → (k + length l ≤ 5)%nat →
  sum_floats (hex12_compensation a first k).1
             (hex12_compensation a first k).2
             ((λ x, py_mul (if b x then PInt 1 else PInt 0)
                           (PFloat lit_0_3)) <$> l)
  = compensated
      (hex12_compensation a first (k + Z.to_nat (count_if b l))).1
      (hex12_compensation a first (k + Z.to_nat (count_if b l))).2.
Proof.
  intros Ha. revert k. induction l as [|x l IH]; intros k Hk.
  - unfold count_if. simpl. by rewrite Nat.add_0_r.
  - rewrite fmap_cons. simpl in Hk.
    pose proof (count_if_bounds b l) as Hb.
    change (count_if b (x :: l))
      with ((if b x then 1 else 0) + count_if b l).
    destruct (b x).
    + change (py_mul (PInt 1) (PFloat lit_0_3)) with (PFloat lit_0_3).
      rewrite sum_floats_float, <- surjective_pairing.
      change (neumaier (hex12_compensation a first k) lit_0_3)
        with (hex12_compensation a first (S k)).
      rewrite IH by lia.
      by replace (S k + Z.to_nat (count_if b l))%nat
        with (k + Z.to_nat (1 + count_if b l))%nat by lia.
    + change (py_mul (PInt 0) (PFloat lit_0_3)) with (PFloat lit_0_0).
      rewrite sum_floats_float, <- surjective_pairing.
      rewrite hex12_compensation_zero by lia. by rewrite IH by lia.
Qed.

Lemma outer_compensated_int {A} (b : A → bool) (x : A) (l : list A) a :
  0 ≤ a ≤ 6 → (length l ≤ 5)%nat →
  sum_ints a ((λ x, py_mul (if b x then PInt 1 else PInt 0)
                           (PFloat lit_0_3)) <$> x :: l)
  = PFloat (compensated
              (hex12_compensation a (b x) (Z.to_nat (count_if b l))).1
              (hex12_compensation a (b x) (Z.to_nat (count_if b l))).2).
Proof.
  intros Ha Hl. rewrite fmap_cons. destruct (b x).
  - change (py_mul (PInt 1) (PFloat lit_0_3)) with (PFloat lit_0_3).
    cbn [sum_ints]. f_equal.
    by apply (outer_compensated b l a true 0).
  - change (py_mul (PInt 0) (PFloat lit_0_3)) with (PFloat lit_0_0).
    cbn [sum_ints]. f_equal.
    by apply (outer_compensated b l a false 0).
Qed.

(** The two float tests of [HexGrid12.live], on every score that can be
    reached, for each way of summing. *)
Lemma hex12_live_total v a (b : nat) :
  sum_is_compensated = false → 0 ≤ a ≤ 6 → (b ≤ 6)%nat →
  HexGrid12_live v (PFloat (hex12_total a b))
  = char_eqb v chr_X && hex12_rule true a (Z.of_nat b)
    || char_eqb v chr_dot && hex12_rule false a (Z.of_nat b).
Proof.
  intros Hmode Ha Hb. unfold HexGrid12_live, hex12_rule. rewrite Hmode.
  destruct (up_to_six a Ha) as [-> | [-> | [-> | [-> | [-> | [-> | ->]]]]]];
    do 7 (destruct b as [|b];
          [do 2 f_equal; vm_compute; reflexivity|]); lia.
Qed.

Lemma hex12_live_compensated v a first (k : nat) :
  sum_is_compensated = true → 0 ≤ a ≤ 6 → (k ≤ 5)%nat →
  HexGrid12_live
    v (PFloat (compensated (hex12_compensation a first k).1
                           (hex12_compensation a first k).2))
  = char_eqb v chr_X
      && hex12_rule true a ((if first then 1 else 0) + Z.of_nat k)
    || char_eqb v chr_dot
       && hex12_rule false a ((if first then 1 else 0) + Z.of_nat k).
Proof.
  intros Hmode Ha Hk. unfold HexGrid12_live, hex12_rule. rewrite Hmode.
  destruct (up_to_six a Ha) as [-> | [-> | [-> | [-> | [-> | [-> | ->]]]]]];
    destruct first;
    do 6 (destruct k as [|k];
          [do 2 f_equal; vm_compute; reflexivity|]); lia.
Qed.

Lemma hex12_live_int v a :
  0 ≤ a ≤ 6 →
  HexGrid12_live v (PInt a)
  = char_eqb v chr_X && hex12_rule true a 0
    || char_eqb v chr_dot && hex12_rule false a 0.
Proof.
  intros Ha. unfold HexGrid12_live, hex12_rule.
  destruct (up_to_six a Ha) as [-> | [-> | [-> | [-> | [-> | [-> | ->]]]]]];
    destruct sum_is_compensated; do 2 f_equal; vm_compute; reflexivity.
Qed.

(** Whether a Hex12 cell is alive in the next generation, by the cells
    of its two rings that hold anything but ['.']. *)
Lemma hex12_live_score g p v :
  cls g = ClsHexGrid12 → well_formed g → in_board (size g) p →
  live g v (score g p)
  = char_eqb v chr_X
      && hex12_rule true (count_if (is_marked g) (hex6_ring p))
                         (count_if (is_marked g) (hex12_ring p))
    || char_eqb v chr_dot
       && hex12_rule false (count_if (is_marked g) (hex6_ring p))
                           (count_if (is_marked g) (hex12_ring p)).
Proof.
  intros Hcls Hwf Hp. unfold live, score, getNeighbors.
  rewrite Hcls, hex12_ring_offsets.
  pose proof (count_if_bounds (is_marked g) (hex6_ring p)) as Ha.
  change (Z.of_nat (length (hex6_ring p))) with 6 in Ha.
  destruct (hex6_terms g p Hwf Hp) as (inner & Hinner & Hcount).
  destruct p as [r c]. rewrite HexGrid12_getNeighbors_split.
  rewrite fmap_app, Hinner.
  cbn [fst snd] in *.
  set (a := count_if (is_marked g) (hex6_ring (r, c))) in *.
  assert (∀ o, o ∈ HexGrid12_neighbors_offset (r `mod` 2 =? 1) →
               tuple_in (-1) (r + o.1, c + o.2)
               || tuple_in (-2) (r + o.1, c + o.2)
               || tuple_in (size g) (r + o.1, c + o.2)
               || tuple_in (size g + 1) (r + o.1, c + o.2)
               = negb (on_board (size g) (r + o.1, c + o.2))) as Hskip.
  { intros o [Ho1 Ho2]%hex12_offsets_far. by apply skip_far. }
  rewrite (ring_terms g r c _ _ (PFloat lit_0_3) Hwf Hskip).
  rewrite <- (ring_count g r c _ _ Hwf Hskip).
  match goal with
  | |- context [filter ?P ?T] =>
      assert (length (filter P T) ≤ 6)%nat as Hlen
        by (etrans; [apply length_filter|]; by destruct (r `mod` 2 =? 1));
      generalize dependent (filter P T)
  end.
  intros kept Hlen.
  pose proof (count_if_bounds
                (λ o : Z * Z, is_marked g (r + o.1, c + o.2)) kept) as Hb.
  unfold py_sum. destruct sum_is_compensated eqn:Hmode.
  - rewrite sum_ints_app, Z.add_0_l, Hcount.
    destruct kept as [|o kept].
    + cbn [fmap list_fmap sum_ints]. by rewrite hex12_live_int.
    + simpl in Hlen.
      pose proof (count_if_bounds
                    (λ o : Z * Z, is_marked g (r + o.1, c + o.2)) kept)
        as Hb'.
      rewrite (outer_compensated_int
                 (λ o, is_marked g (r + o.1, c + o.2))) by (done || lia).
      rewrite hex12_live_compensated by (done || lia).
      by rewrite Z2Nat.id by lia.
  - rewrite foldl_app, py_sum_ints, Z.add_0_l, Hcount.
    destruct kept as [|o kept].
    + cbn [fmap list_fmap foldl]. by rewrite hex12_live_int.
    + rewrite (outer_sum_int (λ o, is_marked g (r + o.1, c + o.2)))
        by (done || lia).
      rewrite hex12_live_total by (done || lia).
      by rewrite Z2Nat.id by lia.
Qed.

(** One term of the score: the weight of the neighbour when its cell
    holds anything but ['.'], zero otherwise. *)
Lemma score_term_weight g p n :
  well_formed g → in_board (size g) p → n ∈ getNeighbors g p →
  (weight n = PInt 1 ∨ weight n = PFloat lit_0_3)
  ∧ (cell_at g (coordinate n) ≠ chr_dot →
     score_term g n = Returned (weight n))
  ∧ (cell_at g (coordinate n) = chr_dot →
     ∃ z, score_term g n = Returned z ∧ is_zero z).
Proof.
  intros Hwf Hp Hn.
  pose proof (getNeighbors_weight g p n Hn) as Hw. split; [done|].
  unfold score_term.
  rewrite Grid_getitem_cell_at
    by (done || by apply (getNeighbors_in_board g p)).
  simpl. split.
  - intros Hv. apply N.eqb_neq in Hv. unfold char_eqb. rewrite Hv.
    by destruct Hw as [-> | ->].
  - intros ->. eexists. split; [reflexivity|].
    destruct Hw as [-> | ->]; [by left | by right].
Qed.

Lemma hex6_next_symbol g p :
  cls g = ClsHexGrid6 → well_formed g → in_board (size g) p →
  next_symbol g p.1 p.2
  = if char_eqb (cell_at g p) chr_X
       && ((count_if (is_marked g) (hex6_ring p) =? 2)
           || (count_if (is_marked g) (hex6_ring p) =? 3))
       || char_eqb (cell_at g p) chr_dot
          && (count_if (is_marked g) (hex6_ring p) =? 3)
    then chr_X else chr_dot.
Proof.
  intros Hcls Hwf Hp. unfold next_symbol, live.
  rewrite <- surjective_pairing, hex6_score, Hcls by done.
  by rewrite Grid_live_int.
Qed.

(** C4, as the code has it.  On a well-formed grid of any class, a
    neighbour adds its weight (1, or 0.3 on the outer ring of Hex12) to
    the score of a cell when it holds anything but ['.'], a third symbol
    as much as ['X'], and zero when it holds ['.'].  So the score of a
    Rect8 or Hex6 cell is the number of its neighbours on the board that
    hold anything but ['.'], and a Hex12 cell is decided by ten times
    that number on its inner ring plus three times that number on its
    outer ring.  A cell that holds ['X'] is decided by the survival rule
    of its class and a cell that holds ['.'] by the birth rule, while a
    cell that holds a third symbol is written ['.'] whatever its score. *)
Theorem other_symbols (g : Grid) (p : Z * Z) :
  well_formed g → in_board (size g) p →
  ∃ g', update g = Returned g'
        ∧ (cell_at g p ≠ chr_X → cell_at g p ≠ chr_dot →
           symbol_at g' p = Some chr_dot)
        ∧ (∀ n, n ∈ getNeighbors g p →
                (weight n = PInt 1 ∨ weight n = PFloat lit_0_3)
                ∧ (cell_at g (coordinate n) ≠ chr_dot →
                   score_term g n = Returned (weight n))
                ∧ (cell_at g (coordinate n) = chr_dot →
                   ∃ z, score_term g n = Returned z ∧ is_zero z))
        ∧ (cls g = ClsGrid →
           score g p = PInt (marked_neighbors g p)
           ∧ (cell_at g p = chr_X →
              symbol_at g' p
              = Some (if (marked_neighbors g p =? 2)
                         || (marked_neighbors g p =? 3)
                      then chr_X else chr_dot))
           ∧ (cell_at g p = chr_dot →
              symbol_at g' p
              = Some (if marked_neighbors g p =? 3
                      then chr_X else chr_dot)))
        ∧ (cls g = ClsHexGrid6 →
           score g p = PInt (count_if (is_marked g) (hex6_ring p))
           ∧ (cell_at g p = chr_X →
              symbol_at g' p
              = Some (if (count_if (is_marked g) (hex6_ring p) =? 2)
                         || (count_if (is_marked g) (hex6_ring p) =? 3)
                      then chr_X else chr_dot))
           ∧ (cell_at g p = chr_dot →
              symbol_at g' p
              = Some (if count_if (is_marked g) (hex6_ring p) =? 3
                      then chr_X else chr_dot)))
        ∧ (cls g = ClsHexGrid12 →
           (cell_at g p = chr_X →
            symbol_at g' p
            = Some (if hex12_rule true
                         (count_if (is_marked g) (hex6_ring p))
                         (count_if (is_marked g) (hex12_ring p))
                    then chr_X else chr_dot))
           ∧ (cell_at g p = chr_dot →
              symbol_at g' p
              = Some (if hex12_rule false
                           (count_if (is_marked g) (hex6_ring p))
                           (count_if (is_marked g) (hex12_ring p))
                      then chr_X else chr_dot))).
Proof.
  intros Hwf Hp. exists (next_generation g).
  split; [by apply update_next_generation|].
  rewrite next_generation_symbol by done.
  split; [|split; [|split; [|split]]].
  - intros HX Hdot. f_equal. unfold next_symbol.
    rewrite <- surjective_pairing.
    apply N.eqb_neq in HX, Hdot.
    unfold live, Grid_live, HexGrid12_live, char_eqb.
    by destruct (cls g); rewrite HX, Hdot.
  - intros n Hn. by apply (score_term_weight g p).
  - intros Hcls. split; [by apply rect8_score|].
    rewrite rect8_next_symbol by done.
    split; intros ->; simpl; [by rewrite orb_false_r | done].
  - intros Hcls. split; [by apply hex6_score|].
    rewrite hex6_next_symbol by done.
    split; intros ->; simpl; [by rewrite orb_false_r | done].
  - intros Hcls. unfold next_symbol.
    rewrite <- surjective_pairing, hex12_live_score by done.
    split; intros ->; simpl; [by rewrite orb_false_r | done].
Qed.

(** ** The blinker *)

(** The step of a Rect8 board given by a function. *)
Lemma rect8_board_step s f f' :
  0 ≤ s →
  (∀ r c, 0 ≤ r < s → 0 ≤ c < s →
     (if char_eqb (f r c) chr_X
         && ((count_if (λ q, on_board s q
                             && negb (char_eqb (f q.1 q.2) chr_dot))
                       (moore (r, c)) =? 2)
             || (count_if (λ q, on_board s q
                                && negb (char_eqb (f q.1 q.2) chr_dot))
                          (moore (r, c)) =? 3))
         || char_eqb (f r c) chr_dot
            && (count_if (λ q, on_board s q
                               && negb (char_eqb (f q.1 q.2) chr_dot))
                         (moore (r, c)) =? 3)
      then chr_X else chr_dot) = f' r c) →
  update (mkGrid ClsGrid s (board s f))
  = Returned (mkGrid ClsGrid s (board s f')).
Proof.
  intros Hs Hstep.
  pose proof (board_well_formed ClsGrid s f Hs) as Hwf.
  rewrite update_next_generation by done.
  unfold next_generation. simpl. do 2 f_equal.
  apply board_ext. intros r c Hr Hc. rewrite <- Hstep by done.
  rewrite (rect8_next_symbol _ (r, c)) by done.
  unfold cell_at. rewrite symbol_at_board by done. simpl.
  unfold marked_neighbors.
  by rewrite (count_if_ext _ _ _ (λ q, is_marked_board ClsGrid s f q Hs)).
Qed.

Lemma hblinker_step s r0 c0 :
  1 ≤ r0 → r0 + 1 < s → 1 ≤ c0 → c0 + 1 < s →
  update (mkGrid ClsGrid s (board s (hblinker r0 c0)))
  = Returned (mkGrid ClsGrid s (board s (vblinker r0 c0))).
Proof.
  intros Hr0 Hr1 Hc0 Hc1. apply rect8_board_step; [lia|].
  intros r c Hr Hc.
  unfold hblinker, vblinker, on_board, count_if, moore. simpl.
  settle_cmp; reflexivity.
Qed.

Lemma vblinker_step s r0 c0 :
  1 ≤ r0 → r0 + 1 < s → 1 ≤ c0 → c0 + 1 < s →
  update (mkGrid ClsGrid s (board s (vblinker r0 c0)))
  = Returned (mkGrid ClsGrid s (board s (hblinker r0 c0))).
Proof.
  intros Hr0 Hr1 Hc0 Hc1. apply rect8_board_step; [lia|].
  intros r c Hr Hc.
  unfold hblinker, vblinker, on_board, count_if, moore. simpl.
  settle_cmp; reflexivity.
Qed.

(** C8.  On a Rect8 grid whose only live cells are the three cells
    [(r0, c0 - 1)], [(r0, c0)], [(r0, c0 + 1)] of one row, with a row of the
    board above and below them, one [update] gives a grid that differs from
    the first one and the next [update] gives the first grid back: the
    blinker has period exactly 2. *)
Theorem blinker_period_two (g : Grid) (r0 c0 : Z) :
  cls g = ClsGrid → well_formed g →
  1 ≤ r0 → r0 + 1 < size g → 1 ≤ c0 → c0 + 1 < size g →
  (∀ p, in_board (size g) p → cell_at g p = hblinker r0 c0 p.1 p.2) →
  ∃ g1, update g = Returned g1
        ∧ g1 ≠ g
        ∧ update g1 = Returned g
        ∧ generations 2 g = Returned g.
Proof.
  intros Hcls Hwf Hr0 Hr1 Hc0 Hc1 Hcells.
  assert (g = mkGrid ClsGrid (size g) (board (size g) (hblinker r0 c0)))
    as Hg.
  { pose proof (well_formed_board g Hwf) as Hboard.
    destruct g as [k s cs]. simpl in *. subst k. f_equal.
    rewrite Hboard. apply board_ext. intros r c Hr Hc.
    by apply (Hcells (r, c)). }
  set (s := size g) in *. rewrite Hg.
  pose proof (hblinker_step s r0 c0 Hr0 Hr1 Hc0 Hc1) as Hh.
  pose proof (vblinker_step s r0 c0 Hr0 Hr1 Hc0 Hc1) as Hv.
  exists (mkGrid ClsGrid s (board s (vblinker r0 c0))).
  split; [done|]. split; [|split; [done|]].
  - intros E.
    apply (f_equal (λ g', symbol_at g' (r0, c0 - 1))) in E.
    rewrite !symbol_at_board in E by (split; simpl; lia).
    unfold hblinker, vblinker in E. simpl in E.
    revert E. settle_cmp. discriminate.
  - simpl. rewrite Hh. simpl. by rewrite Hv.
Qed.

(** ** Loading a layout and rendering it *)

Lemma lstrip_snoc c s :
  isspace c = false → lstrip (s ++ [c]) = lstrip s ++ [c].
Proof.
  intros Hc. induction s as [|x s IH]; simpl.
  - by rewrite Hc.
  - by destruct (isspace x).
Qed.

Lemma rstrip_cons c s : isspace c = false → rstrip (c :: s) = c :: rstrip s.
Proof.
  intros Hc. unfold rstrip. simpl.
  by rewrite lstrip_snoc, rev_app_distr.
Qed.

Lemma strip_cons c s : isspace c = false → strip (c :: s) = c :: rstrip s.
Proof. intros Hc. unfold strip. simpl. rewrite Hc. by apply rstrip_cons. Qed.

Lemma readlines_nil text : readlines text = [] → text = [].
Proof.
  destruct text as [|c t]; [done|]. simpl.
  destruct (char_eqb c chr_nl); [done|]. by destruct (readlines t).
Qed.

(** The first line of a layout starts with a character that [strip]
    keeps, unless it is a line feed alone. *)
Lemma readlines_head text l ls :
  layout_read text → readlines text = l :: ls → strip l = rstrip l.
Proof.
  destruct text as [|c t]; [done|].
  intros [Hc _]%Forall_cons. simpl.
  destruct (char_eqb c chr_nl) eqn:E.
  - apply N.eqb_eq in E as ->. by intros [= <- _].
  - destruct Hc as [-> | Hc]; [done|].
    destruct (readlines t); intros [= <- _];
      by rewrite strip_cons, rstrip_cons by done.
Qed.

Lemma chomp_cons c t : t ≠ [] → chomp (c :: t) = c :: chomp t.
Proof. by destruct t. Qed.

Lemma join_cons_cons c p ps : join [chr_nl] ((c :: p) :: ps)
                              = c :: join [chr_nl] (p :: ps).
Proof. by destruct ps. Qed.

Lemma layout_lines text :
  layout_read text → join [chr_nl] (strip <$> readlines text) = chomp text.
Proof.
  induction text as [|c t IH]; [done|].
  intros Htext. pose proof Htext as [Hc Ht]%Forall_cons.
  specialize (IH Ht). simpl readlines.
  destruct (char_eqb c chr_nl) eqn:E.
  - apply N.eqb_eq in E as ->.
    destruct t as [|c' t']; [done|].
    rewrite chomp_cons by done. rewrite <- IH.
    destruct (readlines (c' :: t')) as [|l ls] eqn:El; [|done].
    by apply readlines_nil in El.
  - destruct Hc as [-> | Hc]; [done|].
    destruct (readlines t) as [|l ls] eqn:El.
    + apply readlines_nil in El as ->. simpl.
      rewrite strip_cons by done. simpl. by rewrite E.
    + assert (t ≠ []) as Hne by (intros ->; done).
      rewrite chomp_cons by done. rewrite <- IH.
      rewrite !fmap_cons, strip_cons by done.
      rewrite (readlines_head t l ls) by done.
      apply join_cons_cons.
Qed.

Lemma chomp_snoc body : chomp (body ++ [chr_nl]) = body.
Proof.
  induction body as [|c body IH]; [done|].
  change ((c :: body) ++ [chr_nl]) with (c :: (body ++ [chr_nl])).
  rewrite chomp_cons, IH; [done|]. by destruct body.
Qed.

Lemma chomp_id text : (∀ body, text ≠ body ++ [chr_nl]) → chomp text = text.
Proof.
  induction text as [|c t IH]; [done|]. intros Hend.
  destruct t as [|c' t'].
  - simpl. destruct (char_eqb c chr_nl) eqn:E; [|done].
    apply N.eqb_eq in E as ->. by destruct (Hend []).
  - rewrite chomp_cons by done. f_equal. apply IH.
    intros body E. apply (Hend (c :: body)). by rewrite E.
Qed.

Lemma index_all {A} (l : list A) :
  mapM (λ r_idx, row ← py_index l r_idx; mret row)
       (range 0 (Z.of_nat (length l)))
  = Returned l.
Proof.
  destruct l as [|x0 l0]; [done|].
  set (l := x0 :: l0).
  rewrite (mapM_Returned _ (λ i, default x0 (l !! Z.to_nat i))).
  - f_equal. apply list_eq. intros i. rewrite list_lookup_fmap.
    destruct (decide (i < length l)%nat) as [Hi|Hi].
    + rewrite range_lookup by lia. simpl. rewrite Nat2Z.id.
      by destruct (lookup_lt_is_Some_2 l i Hi) as [x ->].
    + rewrite (lookup_ge_None_2 l) by lia.
      rewrite lookup_ge_None_2; [done|]. rewrite range_length. lia.
  - intros i Hi. unfold range in Hi. apply elem_of_seqZ in Hi.
    destruct (lookup_lt_is_Some_2 l (Z.to_nat i)) as [x Hx]; [lia|].
    rewrite (py_index_lookup l i x) by (done || lia).
    simpl. by rewrite Hx.
Qed.

(** Reading with universal newlines. *)
Lemma newline_decoder_no_cr pending text :
  chr_cr ∉ newline_decoder pending text.
Proof.
  revert pending. induction text as [|c t IH]; intros pending; simpl.
  - apply not_elem_of_nil.
  - destruct (char_eqb c chr_cr) eqn:Ecr.
    + apply not_elem_of_cons. split; [done|]. apply IH.
    + apply N.eqb_neq in Ecr.
      destruct (char_eqb c chr_nl); [destruct pending|];
        repeat (apply not_elem_of_cons; split; [done|]); apply IH.
Qed.

Lemma universal_newlines_id text :
  chr_cr ∉ text → universal_newlines text = text.
Proof.
  unfold universal_newlines. induction text as [|c t IH]; [done|].
  intros [Hc Ht]%not_elem_of_cons. simpl.
  destruct (char_eqb c chr_cr) eqn:Ecr; [by apply N.eqb_eq in Ecr|].
  rewrite IH by done.
  destruct (char_eqb c chr_nl) eqn:Enl; [|done].
  by apply N.eqb_eq in Enl as ->.
Qed.

Lemma newline_decoder_layout pending text :
  layout text → layout_read (newline_decoder pending text).
Proof.
  revert pending. induction text as [|c t IH]; intros pending Htext.
  - constructor.
  - apply Forall_cons in Htext as [Hc Ht]. simpl.
    destruct (char_eqb c chr_cr) eqn:Ecr.
    + constructor; [by left | by apply IH].
    + apply N.eqb_neq in Ecr.
      destruct (char_eqb c chr_nl) eqn:Enl.
      * destruct pending; [by apply IH|].
        constructor; [by left | by apply IH].
      * apply N.eqb_neq in Enl.
        constructor; [|by apply IH]. right.
        by destruct Hc as [-> | [-> | Hc]].
Qed.

Lemma chomp_elem c text : c ∈ chomp text → c ∈ text.
Proof.
  induction text as [|x t IH]; [done|].
  destruct t as [|y t'].
  - simpl. by destruct (char_eqb x chr_nl); [intros ?%elem_of_nil|].
  - rewrite chomp_cons by done.
    intros [-> | Hc]%elem_of_cons; [by left|]. right. by apply IH.
Qed.

Lemma chomp_short body : chomp (body ++ [chr_nl]) ≠ body ++ [chr_nl].
Proof.
  rewrite chomp_snoc. intros E. apply (f_equal length) in E.
  rewrite length_app in E. simpl in E. lia.
Qed.

Lemma Grid_init_layout c fs fname text st :
  fs fname = Some text → layout text →
  ∃ g out, Grid_init c fs (ArgStr fname) st = Returned (g, st, out)
           ∧ cls g = c
           ∧ Grid_repr g = Returned (chomp (universal_newlines text)).
Proof.
  intros Hfile Htext. unfold Grid_init. rewrite Hfile.
  eexists _, _. split; [reflexivity|]. split; [done|].
  unfold Grid_repr. simpl. rewrite index_all. simpl.
  rewrite layout_lines; [done|]. by apply newline_decoder_layout.
Qed.

(** C7, as the code has it.  For a layout (a text in which no character
    but those of the line terminators is white space), constructing the
    Rect8 grid from the file and rendering it at once gives the text as
    it was read, every line terminator (line feed, carriage return, or
    both) as one line feed, without the final line feed.  For a layout
    whose lines end with line feeds that is the text without its final
    line feed, if it has one; and the rendering is the original text
    exactly when the text has no carriage return and does not end with a
    line feed. *)
Theorem layout_roundtrip (fs : filesystem) (fname text : str) (st : Random) :
  fs fname = Some text → layout text →
  ∃ g out,
    Grid_init ClsGrid fs (ArgStr fname) st = Returned (g, st, out)
    ∧ repr g = Returned (chomp (universal_newlines text))
    ∧ (chr_cr ∉ text →
       repr g = Returned (chomp text)
       ∧ ∀ body, text = body ++ [chr_nl] → repr g = Returned body)
    ∧ (repr g = Returned text
       ↔ (chr_cr ∉ text) ∧ (∀ body, text ≠ body ++ [chr_nl])).
Proof.
  intros Hfile Htext.
  destruct (Grid_init_layout ClsGrid fs fname text st Hfile Htext)
    as (g & out & Hinit & Hcls & Hrepr).
  exists g, out. unfold repr. rewrite Hcls, Hrepr.
  split; [done|]. split; [done|]. split.
  - intros Hcr. rewrite universal_newlines_id by done.
    split; [done|]. intros body ->. by rewrite chomp_snoc.
  - split.
    + intros [= E].
      assert (chr_cr ∉ text) as Hcr.
      { rewrite <- E. intros Hin%chomp_elem.
        by apply newline_decoder_no_cr in Hin. }
      split; [done|]. intros body ->.
      rewrite universal_newlines_id in E by done.
      by apply chomp_short in E.
    + intros [Hcr Hend].
      by rewrite universal_newlines_id, chomp_id by done.
Qed.

(** * Further properties of the code *)

(** ** The neighbourhoods, exactly *)

Lemma HexGrid12_getNeighbors_elem g r c n :
  n ∈ HexGrid12_getNeighbors g (r, c) ↔
  n ∈ HexGrid6_getNeighbors g (r, c)
  ∨ ∃ o, o ∈ HexGrid12_neighbors_offset (r `mod` 2 =? 1)
         ∧ tuple_in (-1) (r + o.1, c + o.2)
           || tuple_in (-2) (r + o.1, c + o.2)
           || tuple_in (size g) (r + o.1, c + o.2)
           || tuple_in (size g + 1) (r + o.1, c + o.2) = false
         ∧ n = mkCell (r + o.1, c + o.2) (PFloat lit_0_3).
Proof.
  rewrite HexGrid12_getNeighbors_split, elem_of_app, list_elem_of_fmap.
  setoid_rewrite list_elem_of_filter.
  split; (intros [?|(o & ? & ? & ?)]; [by left | right; by exists o]).
Qed.

Lemma rect8_geometry g p n :
  in_board (size g) p →
  n ∈ Grid_getNeighbors g p ↔
  in_board (size g) (coordinate n)
  ∧ weight n = PInt 1 ∧ rect8_adjacent p (coordinate n).
Proof.
  intros Hp. split.
  - intros Hn.
    destruct (Grid_getNeighbors_in_board g p n Hp Hn) as [Hq Hw].
    split; [done|]. split; [done|].
    apply Grid_getNeighbors_elem in Hn as (o & Ho & _ & ->).
    rewrite Grid_neighbors_offset_eq in Ho. unfold rect8_adjacent. simpl.
    repeat (apply elem_of_cons in Ho as [->|Ho]; [simpl; lia|]).
    by apply elem_of_nil in Ho.
  - destruct n as [[qr qc] w]. destruct p as [r c].
    unfold in_board, rect8_adjacent. simpl.
    intros ([Hqr Hqc] & -> & Hadj). destruct Hp as [Hr Hc]. simpl in *.
    apply Grid_getNeighbors_elem. exists (qr - r, qc - c). simpl.
    split; [|split].
    + rewrite Grid_neighbors_offset_eq.
      assert (qr - r = -1 ∨ qr - r = 0 ∨ qr - r = 1) as Hdr by lia.
      assert (qc - c = -1 ∨ qc - c = 0 ∨ qc - c = 1) as Hdc by lia.
      destruct Hdr as [E1 | [E1 | E1]], Hdc as [E2 | [E2 | E2]];
        rewrite E1, E2; first [lia | find_elem].
    + unfold tuple_in. simpl. settle_eqb; reflexivity.
    + do 2 f_equal; lia.
Qed.

Lemma hex6_geometry g p n :
  in_board (size g) p →
  n ∈ HexGrid6_getNeighbors g p ↔
  in_board (size g) (coordinate n)
  ∧ weight n = PInt 1 ∧ hex6_adjacent p (coordinate n).
Proof.
  intros Hp. split.
  - intros Hn.
    destruct (HexGrid6_getNeighbors_in_board g p n Hp Hn) as [Hq Hw].
    split; [done|]. split; [done|]. destruct p as [r c].
    apply HexGrid6_getNeighbors_elem in Hn as (o & Ho & _ & ->).
    unfold hex6_adjacent, hex_shift. simpl.
    destruct (r `mod` 2 =? 1); simpl in Ho;
      repeat (apply elem_of_cons in Ho as [->|Ho]; [simpl; lia|]);
      by apply elem_of_nil in Ho.
  - destruct n as [[qr qc] w]. destruct p as [r c].
    unfold in_board, hex6_adjacent, hex_shift. simpl.
    intros ([Hqr Hqc] & -> & Hadj). destruct Hp as [Hr Hc]. simpl in *.
    apply HexGrid6_getNeighbors_elem. exists (qr - r, qc - c). simpl.
    split; [|split].
    + assert (qr - r = -1 ∨ qr - r = 0 ∨ qr - r = 1) as Hdr by lia.
      assert (qc - c = -1 ∨ qc - c = 0 ∨ qc - c = 1) as Hdc
        by (destruct (r `mod` 2 =? 1); lia).
      destruct (r `mod` 2 =? 1);
        destruct Hdr as [E1 | [E1 | E1]], Hdc as [E2 | [E2 | E2]];
        rewrite E1, E2; first [lia | simpl; find_elem].
    + unfold tuple_in. simpl. settle_eqb; reflexivity.
    + do 2 f_equal; lia.
Qed.

Lemma hex12_outer_geometry g r c n :
  in_board (size g) (r, c) →
  (∃ o, o ∈ HexGrid12_neighbors_offset (r `mod` 2 =? 1)
        ∧ tuple_in (-1) (r + o.1, c + o.2)
          || tuple_in (-2) (r + o.1, c + o.2)
          || tuple_in (size g) (r + o.1, c + o.2)
          || tuple_in (size g + 1) (r + o.1, c + o.2) = false
        ∧ n = mkCell (r + o.1, c + o.2) (PFloat lit_0_3)) ↔
  in_board (size g) (coordinate n)
  ∧ weight n = PFloat lit_0_3 ∧ hex12_outer (r, c) (coordinate n).
Proof.
  intros [Hr Hc]. simpl in *. split.
  - intros (o & Ho & Hskip & ->).
    unfold tuple_in in Hskip. simpl in *. split_skips.
    unfold in_board, hex12_outer, hex_shift. simpl.
    destruct (r `mod` 2 =? 1); simpl in Ho;
      repeat (apply elem_of_cons in Ho as [->|Ho];
              [simpl in *; repeat split; (done || lia)|]);
      by apply elem_of_nil in Ho.
  - destruct n as [[qr qc] w].
    unfold in_board, hex12_outer, hex_shift. simpl.
    intros ([Hqr Hqc] & -> & Hadj).
    exists (qr - r, qc - c). simpl. split; [|split].
    + assert (qr - r = -2 ∨ qr - r = -1 ∨ qr - r = 1 ∨ qr - r = 2)
        as Hdr by lia.
      assert (qc - c = -2 ∨ qc - c = -1 ∨ qc - c = 0 ∨ qc - c = 1
              ∨ qc - c = 2) as Hdc
        by (destruct (r `mod` 2 =? 1); lia).
      destruct (r `mod` 2 =? 1);
        destruct Hdr as [E1 | [E1 | [E1 | E1]]],
                 Hdc as [E2 | [E2 | [E2 | [E2 | E2]]]];
        rewrite E1, E2; first [lia | simpl; find_elem].
    + unfold tuple_in. simpl. settle_eqb; reflexivity.
    + do 2 f_equal; lia.
Qed.

(** X1.  For a cell of the board, [getNeighbors] returns exactly the cells
    of the board that are adjacent to it: a king's move away on Rect8, on
    the inner ring on Hex6 (weight 1 in both), and on Hex12 on the inner
    ring with weight 1 or on the outer ring with weight 0.3.  The filter
    drops no adjacent cell of the board and keeps no cell off it. *)
Theorem neighbors_exact (g : Grid) (p : Z * Z) (n : Cell) :
  in_board (size g) p →
  n ∈ getNeighbors g p ↔ in_board (size g) (coordinate n) ∧ adjacent g p n.
Proof.
  intros Hp. unfold getNeighbors, adjacent. destruct (cls g).
  - apply rect8_geometry, Hp.
  - apply hex6_geometry, Hp.
  - destruct p as [r c].
    rewrite HexGrid12_getNeighbors_elem, hex6_geometry,
      hex12_outer_geometry by done.
    tauto.
Qed.

Lemma rect8_adjacent_sym p q : rect8_adjacent p q → rect8_adjacent q p.
Proof. unfold rect8_adjacent. lia. Qed.

Lemma hex6_adjacent_sym p q : hex6_adjacent p q → hex6_adjacent q p.
Proof.
  unfold hex6_adjacent, hex_shift.
  destruct (Z.eqb_spec (p.1 `mod` 2) 1), (Z.eqb_spec (q.1 `mod` 2) 1);
    Z.to_euclidean_division_equations; lia.
Qed.

Lemma hex12_outer_sym p q : hex12_outer p q → hex12_outer q p.
Proof.
  unfold hex12_outer, hex_shift.
  destruct (Z.eqb_spec (p.1 `mod` 2) 1), (Z.eqb_spec (q.1 `mod` 2) 1);
    Z.to_euclidean_division_equations; lia.
Qed.

(** X2.  The neighbour relation of every class is symmetric, with the same
    weight in both directions: when [getNeighbors], asked for a cell [p]
    of the board, returns the cell [q] with the weight [w], then, asked
    for [q], it returns [p] with the weight [w]. *)
Theorem neighbors_symmetric (g : Grid) (p q : Z * Z) (w : pynum) :
  in_board (size g) p →
  mkCell q w ∈ getNeighbors g p → mkCell p w ∈ getNeighbors g q.
Proof.
  intros Hp. unfold getNeighbors. destruct (cls g).
  - intros (Hq & Hw & Hadj)%rect8_geometry; [|done].
    apply rect8_geometry; [done|]. auto using rect8_adjacent_sym.
  - intros (Hq & Hw & Hadj)%hex6_geometry; [|done].
    apply hex6_geometry; [done|]. auto using hex6_adjacent_sym.
  - destruct p as [r c], q as [qr qc].
    rewrite !HexGrid12_getNeighbors_elem.
    intros [(Hq & Hw & Hadj)%hex6_geometry
           |(Hq & Hw & Hadj)%hex12_outer_geometry]; try done.
    + left. apply hex6_geometry; [done|]. auto using hex6_adjacent_sym.
    + right. apply hex12_outer_geometry; [done|].
      auto using hex12_outer_sym.
Qed.

Lemma neighbor_coordinates g p :
  ∃ kept, kept `sublist_of` offsets_tried (cls g) p.1
          ∧ coordinate <$> getNeighbors g p
            = (λ o, (p.1 + o.1, p.2 + o.2)) <$> kept.
Proof.
  destruct p as [r c]. unfold getNeighbors, offsets_tried. cbn [fst snd].
  assert (∀ (skip : Z * Z → bool) w (offs : list (Z * Z)),
            coordinate <$> ((λ o, mkCell (r + o.1, c + o.2) w)
                              <$> filter (λ o, skip o = false) offs)
            = (λ o, (r + o.1, c + o.2))
                <$> filter (λ o, skip o = false) offs) as Hcoord.
  { intros skip w offs. by rewrite <- list_fmap_compose. }
  destruct (cls g).
  - unfold Grid_getNeighbors.
    rewrite (neighbor_loop
               (λ o, tuple_in (-1) (r + o.1, c + o.2)
                     || tuple_in (size g) (r + o.1, c + o.2))
               (λ o, mkCell (r + o.1, c + o.2) (PInt 1))).
    simpl. rewrite Hcoord. eexists. split; [|reflexivity].
    apply sublist_filter.
  - unfold HexGrid6_getNeighbors.
    rewrite (neighbor_loop
               (λ o, tuple_in (-1) (r + o.1, c + o.2)
                     || tuple_in (size g) (r + o.1, c + o.2))
               (λ o, mkCell (r + o.1, c + o.2) (PInt 1))).
    simpl. rewrite Hcoord. eexists. split; [|reflexivity].
    apply sublist_filter.
  - rewrite HexGrid12_getNeighbors_split. unfold HexGrid6_getNeighbors.
    rewrite (neighbor_loop
               (λ o, tuple_in (-1) (r + o.1, c + o.2)
                     || tuple_in (size g) (r + o.1, c + o.2))
               (λ o, mkCell (r + o.1, c + o.2) (PInt 1))).
    simpl. rewrite fmap_app, !Hcoord, <- fmap_app.
    eexists. split; [|reflexivity].
    apply sublist_app; apply sublist_filter.
Qed.

Lemma offsets_tried_distinct k row :
  NoDup (offsets_tried k row) ∧ (0, 0) ∉ offsets_tried k row.
Proof.
  unfold offsets_tried.
  destruct k; [|destruct (row `mod` 2 =? 1)..];
    (split; by apply (bool_decide_unpack _); vm_compute).
Qed.

(** X3.  Whatever the class and the cell, [getNeighbors] never returns
    the cell itself and never returns a coordinate twice (so that no cell
    is counted twice in a score). *)
Theorem neighbors_distinct (g : Grid) (p : Z * Z) :
  NoDup (coordinate <$> getNeighbors g p)
  ∧ p ∉ coordinate <$> getNeighbors g p.
Proof.
  destruct (neighbor_coordinates g p) as (kept & Hsub & ->).
  destruct (offsets_tried_distinct (cls g) p.1) as [Hnodup Hzero].
  split.
  - apply NoDup_fmap_2_strong; [|by eapply sublist_NoDup].
    intros [a b] [a' b'] _ _ [= Ha Hb]. simpl in *. f_equal; lia.
  - intros ([a b] & Hp & Ho)%list_elem_of_fmap. apply Hzero.
    destruct p as [r c]. simpl in Hp. injection Hp as Ha Hb.
    assert (a = 0) as -> by lia. assert (b = 0) as -> by lia.
    by eapply elem_of_sublist.
Qed.

(** X4.  A cell that is at least as far from every edge as its class
    looks (1 row and column, 2 on Hex12) has all its neighbours: exactly 8
    on Rect8, 6 on Hex6 and 12 on Hex12. *)
Theorem interior_neighbors (g : Grid) (r c : Z) :
  reach (cls g) ≤ r < size g - reach (cls g) →
  reach (cls g) ≤ c < size g - reach (cls g) →
  length (getNeighbors g (r, c)) = full_count (cls g).
Proof.
  unfold getNeighbors, reach, full_count. intros Hr Hc.
  destruct (cls g).
  - unfold Grid_getNeighbors. rewrite Grid_neighbors_offset_eq.
    unfold tuple_in. simpl. by all_differ.
  - unfold HexGrid6_getNeighbors, tuple_in.
    destruct (r `mod` 2 =? 1); simpl; by all_differ.
  - unfold HexGrid12_getNeighbors, HexGrid6_getNeighbors, tuple_in.
    destruct (r `mod` 2 =? 1); simpl; by all_differ.
Qed.

(** ** The rule on the hexagonal boards *)

(** X5.  On a well-formed Hex6 grid over ['X'] and ['.'], [update] applies
    the rule of the game of life to the six cells of the inner ring: a
    live cell stays alive with 2 or 3 live cells among them, a dead cell
    comes alive with exactly 3, and the cells off the board count as
    dead. *)
Theorem hex6_update_rule (g : Grid) :
  cls g = ClsHexGrid6 → well_formed g → two_symbols g →
  ∃ g', update g = Returned g'
        ∧ well_formed g' ∧ two_symbols g'
        ∧ ∀ p, in_board (size g) p →
               symbol_at g' p
               = Some (if hex6_conway g p then chr_X else chr_dot)
               ∧ is_alive g' p = hex6_conway g p.
Proof.
  intros Hcls Hwf Htwo. exists (next_generation g).
  split; [by apply update_next_generation|].
  split; [by apply next_generation_well_formed|].
  split; [apply next_generation_two_symbols|].
  intros p Hp.
  assert (symbol_at (next_generation g) p
          = Some (if hex6_conway g p then chr_X else chr_dot)) as Hsym.
  { rewrite next_generation_symbol by done. f_equal.
    unfold next_symbol, live.
    rewrite <- surjective_pairing, hex6_score, Hcls, Grid_live_int by done.
    unfold hex6_conway, is_alive.
    rewrite (count_if_ext _ _ _ (λ q, two_symbols_marked g q Htwo)).
    pose proof (symbol_at_in_board g p Hwf Hp) as Hv. rewrite Hv.
    destruct (two_symbols_at g p _ Htwo Hv) as [-> | ->]; simpl;
      [by rewrite orb_false_r | done]. }
  split; [done|]. unfold is_alive at 1. rewrite Hsym.
  by destruct (hex6_conway g p).
Qed.

(** X6.  On a well-formed Hex12 grid over ['X'] and ['.'], the next state
    of a cell with [a] live cells on its inner ring and [b] on its outer
    ring is given by [10 a + 3 b]: a live cell stays alive when it is
    strictly between 20 and 33; a dead cell comes alive when it is above
    23 and below 29 where [sum] compensates (CPython 3.12 and later), and
    above 23 and up to 29 where [sum] adds from the left (CPython 3.11
    and earlier), for there 2 + 0.3 + 0.3 + 0.3 falls just below 2.9. *)
Theorem hex12_update_rule (g : Grid) :
  cls g = ClsHexGrid12 → well_formed g → two_symbols g →
  ∃ g', update g = Returned g'
        ∧ well_formed g' ∧ two_symbols g'
        ∧ ∀ p, in_board (size g) p →
               symbol_at g' p
               = Some (if hex12_next g p then chr_X else chr_dot)
               ∧ is_alive g' p = hex12_next g p.
Proof.
  intros Hcls Hwf Htwo. exists (next_generation g).
  split; [by apply update_next_generation|].
  split; [by apply next_generation_well_formed|].
  split; [apply next_generation_two_symbols|].
  intros p Hp.
  assert (symbol_at (next_generation g) p
          = Some (if hex12_next g p then chr_X else chr_dot)) as Hsym.
  { rewrite next_generation_symbol by done. f_equal.
    unfold next_symbol.
    rewrite <- surjective_pairing, hex12_live_score by done.
    unfold hex12_next, is_alive.
    rewrite !(count_if_ext _ _ _ (λ q, two_symbols_marked g q Htwo)).
    pose proof (symbol_at_in_board g p Hwf Hp) as Hv. rewrite Hv.
    destruct (two_symbols_at g p _ Htwo Hv) as [-> | ->]; simpl;
      [by rewrite orb_false_r | done]. }
  split; [done|]. unfold is_alive at 1. rewrite Hsym.
  by destruct (hex12_next g p).
Qed.

(** ** Construction from a file *)

Lemma validate_elem s (rows : list (list char)) k e :
  RowMismatch k e ∈ validate s rows ↔
  e = s ∧ ∃ (i : nat) row, k = Z.of_nat i + 1 ∧ rows !! i = Some row
                           ∧ Z.of_nat (length row) ≠ s.
Proof.
  unfold validate. rewrite list_elem_of_fmap. split.
  - intros ([i row] & [= -> ->] & Hin). split; [done|].
    apply list_elem_of_filter in Hin as [Hlen Hin]. simpl in *.
    apply elem_of_lookup_imap in Hin as (i' & row' & [= -> ->] & Hrow).
    by exists i', row'.
  - intros (-> & i & row & -> & Hrow & Hlen).
    exists (i, row). split; [done|].
    apply list_elem_of_filter. split; [done|].
    apply elem_of_lookup_imap. by exists i, row.
Qed.

Lemma validate_nil s (rows : list (list char)) :
  validate s rows = [] ↔ Forall (λ row, Z.of_nat (length row) = s) rows.
Proof.
  split.
  - intros Hnil. apply Forall_lookup. intros i row Hrow. simpl.
    destruct (decide (Z.of_nat (length row) = s)) as [|Hne]; [done|].
    assert (RowMismatch (Z.of_nat i + 1) s ∈ validate s rows) as Hin.
    { apply validate_elem. split; [done|]. by exists i, row. }
    rewrite Hnil in Hin. by apply elem_of_nil in Hin.
  - intros Hrows. apply elem_of_nil_inv. intros [k e] Hin.
    apply validate_elem in Hin as (-> & i & row & _ & Hrow & Hlen).
    apply Hlen. apply (Forall_lookup_1 _ _ _ _ Hrows Hrow).
Qed.

(** The messages come in the order of the rows, one for each row whose
    length is not the size. *)
Lemma validate_from s (rows : list (list char)) (n : nat) :
  let out := (λ p : nat * list char, RowMismatch (Z.of_nat p.1 + 1) s)
               <$> filter (λ p : nat * list char, Z.of_nat (length p.2) ≠ s)
                          (imap (λ i, pair (n + i)%nat) rows) in
  StronglySorted (λ m1 m2, message_row m1 < message_row m2) out
  ∧ Forall (λ m, Z.of_nat n < message_row m) out
  ∧ length out
    = length (filter (λ row, Z.of_nat (length row) ≠ s) rows).
Proof.
  revert n. induction rows as [|row rows IH]; intros n.
  - simpl. repeat split; constructor.
  - rewrite imap_cons.
    rewrite (imap_ext _ (λ i, pair (S n + i)%nat))
      by (intros; simpl; f_equal; lia).
    destruct (IH (S n)) as (Hsorted & Hbound & Hlen).
    rewrite !filter_cons. simpl.
    destruct (decide (Z.of_nat (length row) ≠ s)) as [Hrow|Hrow].
    + rewrite fmap_cons. simpl. split; [|split].
      * constructor; [done|].
        eapply Forall_impl; [exact Hbound|]. simpl. intros m Hm.
        rewrite Nat.add_0_r. lia.
      * constructor; [simpl; lia|].
        eapply Forall_impl; [exact Hbound|]. simpl. lia.
      * by f_equal.
    + split; [done|]. split; [|done].
      eapply Forall_impl; [exact Hbound|]. simpl. lia.
Qed.

Lemma validate_sorted s (rows : list (list char)) :
  StronglySorted (λ m1 m2, message_row m1 < message_row m2)
                 (validate s rows)
  ∧ length (validate s rows)
    = length (filter (λ row, Z.of_nat (length row) ≠ s) rows).
Proof. by destruct (validate_from s rows 0) as (? & _ & ?). Qed.

(** What [strip] leaves neither begins nor ends with white space. *)
Lemma lstrip_head s v : head (lstrip s) = Some v → isspace v = false.
Proof.
  induction s as [|c s IH]; [done|]. simpl.
  destruct (isspace c) eqn:E; [done|]. by intros [= <-].
Qed.

Lemma lstrip_suffix s : ∃ pre, s = pre ++ lstrip s.
Proof.
  induction s as [|c s [pre IH]]; [by exists []|]. simpl.
  destruct (isspace c); [|by exists []].
  exists (c :: pre). simpl. by f_equal.
Qed.

Lemma rstrip_prefix s : ∃ post, s = rstrip s ++ post.
Proof.
  destruct (lstrip_suffix (rev s)) as [pre E]. exists (rev pre).
  unfold rstrip. by rewrite <- rev_app_distr, <- E, rev_involutive.
Qed.

Lemma strip_ends s v :
  head (strip s) = Some v ∨ last (strip s) = Some v → isspace v = false.
Proof.
  unfold strip. intros [H|H].
  - apply (lstrip_head s).
    destruct (rstrip_prefix (lstrip s)) as [post E].
    rewrite E, head_app. by destruct (rstrip (lstrip s)).
  - apply (lstrip_head (rev (lstrip s))). rewrite <- H.
    unfold rstrip. rewrite (rev_alt (lstrip (rev (lstrip s)))).
    symmetry. apply last_reverse.
Qed.

(** X7.  Constructing a grid from a readable file never fails and leaves
    the random generator alone; the size is the number of rows, and no
    row begins or ends with white space.  The constructor prints one
    message for each row whose length is not the size and none for the
    others, in the order of the rows, each message with the number of its
    row counted from 1 and with the size; it prints nothing exactly when
    the grid is well-formed. *)
Theorem init_file_warnings (c : grid_class) (fs : filesystem)
    (fname text : str) (st : Random) :
  fs fname = Some text →
  ∃ g out,
    Grid_init c fs (ArgStr fname) st = Returned (g, st, out)
    ∧ cls g = c
    ∧ size g = Z.of_nat (length (cells g))
    ∧ (∀ row v, row ∈ cells g →
                head row = Some v ∨ last row = Some v → isspace v = false)
    ∧ (out = [] ↔ well_formed g)
    ∧ (∀ k e, RowMismatch k e ∈ out ↔
              e = size g
              ∧ ∃ (i : nat) row, k = Z.of_nat i + 1
                                 ∧ cells g !! i = Some row
                                 ∧ Z.of_nat (length row) ≠ size g)
    ∧ StronglySorted (λ m1 m2, message_row m1 < message_row m2) out
    ∧ length out
      = length (filter (λ row, Z.of_nat (length row) ≠ size g) (cells g)).
Proof.
  intros Hfile. unfold Grid_init. rewrite Hfile.
  eexists _, _. split; [reflexivity|]. simpl.
  split; [done|]. split; [done|]. split; [|split; [|split]].
  - intros row v (line & -> & _)%list_elem_of_fmap. apply strip_ends.
  - rewrite validate_nil. unfold well_formed. simpl. tauto.
  - intros k e. apply validate_elem.
  - apply validate_sorted.
Qed.

(** ** Random construction, draw by draw *)

Lemma random_row_draws prob (l : list Z) st :
  ∃ st',
    comprehension (λ r_idx, random_symbol prob) l st
    = ((λ j, drawn prob st (calls st + j)) <$> seq 0 (length l), st')
    ∧ draws st' = draws st
    ∧ calls st' = (calls st + length l)%nat.
Proof.
  revert st. induction l as [|i l IH]; intros st.
  - exists st. simpl. auto with lia.
  - simpl.
    destruct (IH (mkRandom (draws st) (S (calls st))))
      as (st' & -> & Hdraws & Hcalls).
    simpl in *. exists st'. repeat split; [|done|lia].
    f_equal. unfold drawn at 2. rewrite Nat.add_0_r. f_equal.
    rewrite <- fmap_S_seq, <- list_fmap_compose.
    apply list_fmap_ext. intros k j _. simpl. unfold drawn. simpl.
    by rewrite Nat.add_succ_r.
Qed.

Lemma random_rows_draws prob (inner outer : list Z) st :
  ∃ st',
    comprehension (λ c_idx, comprehension (λ r_idx, random_symbol prob) inner)
                  outer st
    = ((λ i, (λ j, drawn prob st (calls st + i * length inner + j))
               <$> seq 0 (length inner)) <$> seq 0 (length outer), st')
    ∧ draws st' = draws st
    ∧ calls st' = (calls st + length outer * length inner)%nat.
Proof.
  revert st. induction outer as [|i outer IH]; intros st.
  - exists st. simpl. auto with lia.
  - simpl.
    destruct (random_row_draws prob inner st) as (st1 & -> & Hd1 & Hc1).
    destruct (IH st1) as (st' & -> & Hdraws & Hcalls).
    exists st'. repeat split; [|congruence|lia].
    f_equal. f_equal.
    + apply list_fmap_ext. intros k j _. simpl. f_equal. lia.
    + rewrite <- fmap_S_seq, <- list_fmap_compose.
      apply list_fmap_ext. intros k i' _. simpl.
      apply list_fmap_ext. intros k' j _. simpl.
      unfold drawn. by rewrite Hd1, Hc1, Nat.add_assoc.
Qed.

(** X8.  The random construction of a grid of size [s >= 0] makes exactly
    [s * s] calls of [random.random()], and the cell of row [i] and column
    [j] is ['X'] exactly when the call number [i * s + j] returned a value
    below the probability; the grid is well-formed and holds only ['X']
    and ['.'], and nothing is printed. *)
Theorem init_random_draws (c : grid_class) (fs : filesystem) (s : Z)
    (prob : pynum) (st : Random) :
  0 ≤ s →
  ∃ g st',
    Grid_init c fs (ArgTuple s prob) st = Returned (g, st', [])
    ∧ cls g = c ∧ size g = s
    ∧ well_formed g ∧ two_symbols g
    ∧ draws st' = draws st
    ∧ calls st' = (calls st + Z.to_nat s * Z.to_nat s)%nat
    ∧ cells g
      = (λ i, (λ j, drawn prob st (calls st + i * Z.to_nat s + j))
                <$> seq 0 (Z.to_nat s)) <$> seq 0 (Z.to_nat s).
Proof.
  intros Hs. unfold Grid_init.
  destruct (random_rows_draws prob (range 0 s) (range 0 s) st)
    as (st' & -> & Hdraws & Hcalls).
  rewrite range_length in *.
  eexists _, st'. split; [reflexivity|]. simpl.
  split; [done|]. split; [done|]. split; [|split; [|done]].
  - split; simpl.
    + rewrite length_fmap, length_seq. lia.
    + apply Forall_fmap, Forall_forall. intros i _. simpl.
      rewrite length_fmap, length_seq. lia.
  - unfold two_symbols. simpl.
    apply Forall_fmap, Forall_forall. intros i _. simpl.
    apply Forall_fmap, Forall_forall. intros j _. simpl.
    unfold drawn. destruct (py_lt _ _); auto.
Qed.

Lemma unit_interval_below_one x :
  unit_interval x → py_lt (PFloat x) (PFloat lit_1_0) = true.
Proof.
  intros [_ Hlt]. unfold py_lt. simpl. unfold SFltb in Hlt.
  by destruct (SFcompare x lit_1_0) as [[]|].
Qed.

(** X9.  When [random.random()] returns values of the interval [0, 1), a
    grid constructed with the probability 1.0 has every cell alive and a
    grid constructed with the probability 0.0 has every cell dead,
    whatever the size. *)
Theorem init_random_extremes (c : grid_class) (fs : filesystem) (s : Z)
    (st : Random) :
  (∀ k, unit_interval (draws st k)) →
  (∃ st', Grid_init c fs (ArgTuple s (PFloat lit_1_0)) st
          = Returned (mkGrid c s (replicate (Z.to_nat s)
                                    (replicate (Z.to_nat s) chr_X)),
                      st', []))
  ∧ (∃ st', Grid_init c fs (ArgTuple s (PFloat lit_0_0)) st
            = Returned (mkGrid c s (replicate (Z.to_nat s)
                                      (replicate (Z.to_nat s) chr_dot)),
                        st', [])).
Proof.
  intros Hdraws. unfold Grid_init. split.
  - destruct (random_rows_draws (PFloat lit_1_0) (range 0 s) (range 0 s) st)
      as (st' & -> & _ & _).
    rewrite range_length. exists st'. do 4 f_equal.
    apply list_eq. intros i. rewrite list_lookup_fmap.
    destruct (decide (i < Z.to_nat s)%nat) as [Hi|Hi].
    + rewrite lookup_seq_lt, lookup_replicate_2 by done. simpl. f_equal.
      apply list_eq. intros j. rewrite list_lookup_fmap.
      destruct (decide (j < Z.to_nat s)%nat) as [Hj|Hj].
      * rewrite lookup_seq_lt, lookup_replicate_2 by done. simpl.
        unfold drawn. by rewrite unit_interval_below_one.
      * rewrite lookup_seq_ge by lia. symmetry.
        apply lookup_replicate_None. lia.
    + rewrite lookup_seq_ge by lia. symmetry.
      apply lookup_replicate_None. lia.
  - destruct (Grid_init_random c fs s (PFloat lit_0_0) st)
      as (rows & st' & Hinit & _ & _ & Hrows).
    exists st'. unfold Grid_init in Hinit. rewrite Hinit.
    rewrite Hrows; [done|]. intros k.
    by apply unit_interval_not_negative.
Qed.

(** ** What [update] raises, and when *)

Lemma only_index_error_bind {A B} (m : outcome A) (f : A → outcome B) :
  only_index_error m → (∀ a, only_index_error (f a)) →
  only_index_error (m ≫= f).
Proof.
  intros Hm Hf e. destruct m as [a|e']; simpl.
  - apply Hf.
  - intros [= <-]. by apply Hm.
Qed.

Lemma only_index_error_ret {A} (a : A) : only_index_error (Returned a).
Proof. by intros e. Qed.

Lemma py_index_only {A} (l : list A) i : only_index_error (py_index l i).
Proof.
  intros e. unfold py_index.
  destruct (_ && _); [destruct (l !! _)|]; congruence.
Qed.

Lemma py_setindex_only {A} (l : list A) i x :
  only_index_error (py_setindex l i x).
Proof. intros e. unfold py_setindex. destruct (_ && _); congruence. Qed.

Lemma mapM_only {A B} (f : A → outcome B) (l : list A) :
  (∀ x, only_index_error (f x)) → only_index_error (mapM f l).
Proof.
  intros Hf. induction l as [|x l IH]; [apply only_index_error_ret|].
  change (mapM f (x :: l))
    with (f x ≫= λ y, mapM f l ≫= λ k, mret (y :: k)).
  apply only_index_error_bind; [done|]. intros y.
  apply only_index_error_bind; [done|]. intros k.
  apply only_index_error_ret.
Qed.

Lemma for_each_only {A St} (l : list A) (body : A → St → outcome St) s :
  (∀ x s, only_index_error (body x s)) →
  only_index_error (for_each l body s).
Proof.
  intros Hbody. revert s.
  induction l as [|x l IH]; intros s; [apply only_index_error_ret|].
  simpl. by apply only_index_error_bind.
Qed.

Lemma Grid_getitem_only g p : only_index_error (Grid_getitem g p).
Proof.
  apply only_index_error_bind; [apply py_index_only|].
  intros row. apply py_index_only.
Qed.

Lemma update_cell_only g row col nc :
  only_index_error (update_cell g row col nc).
Proof.
  unfold update_cell.
  apply only_index_error_bind.
  { apply mapM_only. intros n.
    apply only_index_error_bind; [apply Grid_getitem_only|].
    intros v. apply only_index_error_ret. }
  intros terms. apply only_index_error_bind; [apply Grid_getitem_only|].
  intros v. apply only_index_error_bind; [apply py_index_only|].
  intros new_row. apply only_index_error_bind; [apply py_setindex_only|].
  intros new_row'. apply py_setindex_only.
Qed.

Lemma update_only g : only_index_error (update g).
Proof.
  unfold update. apply only_index_error_bind.
  - apply for_each_only. intros row nc.
    apply for_each_only. intros col nc'. apply update_cell_only.
  - intros nc. apply only_index_error_ret.
Qed.

(** A loop that returns has run its body to the end at every round. *)
Lemma for_each_Returned {A St} (l : list A) (body : A → St → outcome St)
    s s' x :
  for_each l body s = Returned s' → x ∈ l →
  ∃ s1 s2, body x s1 = Returned s2.
Proof.
  revert s. induction l as [|y l IH]; intros s Hret Hx.
  - by apply elem_of_nil in Hx.
  - simpl in Hret. destruct (body y s) as [s1|e] eqn:Hy; [|done].
    apply elem_of_cons in Hx as [-> | Hx]; [by exists s, s1|].
    by apply (IH s1).
Qed.

Lemma update_cell_reads g row col nc nc' :
  update_cell g row col nc = Returned nc' →
  ∃ v, Grid_getitem g (row, col) = Returned v.
Proof.
  unfold update_cell. destruct (mapM _ _) as [terms|]; [|done]. simpl.
  destruct (Grid_getitem g (row, col)) as [v|]; [|done]. by exists v.
Qed.

Lemma py_index_Returned {A} (l : list A) i x :
  0 ≤ i → py_index l i = Returned x → l !! Z.to_nat i = Some x.
Proof.
  intros Hi. unfold py_index. destruct (Z.ltb_spec i 0); [lia|].
  destruct (_ && _); [|done].
  destruct (l !! Z.to_nat i); [|done]. by intros [= ->].
Qed.

(** X10.  [update] can raise nothing but [IndexError]; and on a grid as
    the file constructor builds it (as many rows as its size) with a row
    shorter than the size, it does raise it. *)
Theorem update_short_row (g : Grid) :
  Z.of_nat (length (cells g)) = size g →
  Exists (λ row, Z.of_nat (length row) < size g) (cells g) →
  update g = Raised IndexError ∧ ∀ g0 e, update g0 = Raised e → e = IndexError.
Proof.
  intros Hlen Hshort. split; [|intros g0 e; apply update_only].
  destruct (update g) as [g'|e] eqn:Hup;
    [|by rewrite (update_only g e Hup)].
  exfalso. apply Exists_exists in Hshort as (row & Hrow & Hlt).
  apply list_elem_of_lookup_1 in Hrow as [i Hrow].
  pose proof (lookup_lt_Some _ _ _ Hrow) as Hi.
  unfold update in Hup.
  destruct (for_each (range 0 (size g)) _ (cells g)) as [nc|] eqn:Hloop;
    [|done].
  destruct (for_each_Returned _ _ _ _ (Z.of_nat i) Hloop) as (nc1 & nc2 & Hin).
  { unfold range. apply elem_of_seqZ. lia. }
  destruct (for_each_Returned _ _ _ _ (Z.of_nat (length row)) Hin)
    as (nc3 & nc4 & Hcell).
  { unfold range. apply elem_of_seqZ. lia. }
  apply update_cell_reads in Hcell as [v Hv].
  unfold Grid_getitem in Hv. simpl in Hv.
  rewrite (py_index_lookup _ _ row) in Hv by (lia || by rewrite Nat2Z.id).
  simpl in Hv. apply py_index_Returned in Hv; [|lia].
  apply lookup_lt_Some in Hv. lia.
Qed.

(** ** Layouts with rows that are too long *)

Lemma rows_at_least_lookup g (p : Z * Z) :
  rows_at_least g → in_board (size g) p →
  ∃ row v, cells g !! Z.to_nat p.1 = Some row
           ∧ size g ≤ Z.of_nat (length row)
           ∧ row !! Z.to_nat p.2 = Some v.
Proof.
  intros [Hlen Hrows] [Hr Hc].
  destruct (lookup_lt_is_Some_2 (cells g) (Z.to_nat p.1)) as [row Hrow];
    [lia|].
  pose proof (Forall_lookup_1 _ _ _ _ Hrows Hrow) as Hrowlen.
  simpl in Hrowlen.
  destruct (lookup_lt_is_Some_2 row (Z.to_nat p.2)) as [v Hv]; [lia|].
  by exists row, v.
Qed.

Lemma Grid_getitem_rows_at_least g p :
  rows_at_least g → in_board (size g) p →
  Grid_getitem g p = Returned (cell_at g p).
Proof.
  intros Hwide Hp.
  destruct (rows_at_least_lookup g p Hwide Hp) as (row & v & Hrow & _ & Hv).
  destruct Hp as [Hr Hc].
  unfold Grid_getitem, cell_at, symbol_at.
  rewrite (py_index_lookup _ _ row) by (done || lia). simpl.
  rewrite (py_index_lookup _ _ v) by (done || lia).
  destruct (Z.leb_spec 0 p.1); [|lia]. destruct (Z.leb_spec 0 p.2); [|lia].
  simpl. rewrite Hrow. simpl. by rewrite Hv.
Qed.

Lemma update_cell_rows_at_least g (i k : nat) rows_pre rows_post pre row x :
  rows_at_least g → in_board (size g) (Z.of_nat i, Z.of_nat k) →
  length rows_pre = i → length pre = k → row !! k = Some x →
  update_cell g (Z.of_nat i) (Z.of_nat k)
              (rows_pre ++ (pre ++ drop k row) :: rows_post)
  = Returned (rows_pre
              ++ (pre ++ next_symbol g (Z.of_nat i) (Z.of_nat k)
                      :: drop (S k) row) :: rows_post).
Proof.
  intros Hwide Hcell Hi Hk Hx. unfold update_cell.
  rewrite (mapM_Returned _
             (λ n, py_mul (if char_eqb (cell_at g (coordinate n)) chr_dot
                           then PInt 0 else PInt 1) (weight n))); last first.
  { intros n Hn. unfold score_term.
    rewrite Grid_getitem_rows_at_least; [done..|].
    by eapply getNeighbors_in_board. }
  simpl. rewrite Grid_getitem_rows_at_least by done. simpl.
  fold (score g (Z.of_nat i, Z.of_nat k)).
  fold (next_symbol g (Z.of_nat i) (Z.of_nat k)).
  rewrite (py_index_lookup _ _ (pre ++ drop k row)); [|lia|]; last first.
  { rewrite Nat2Z.id, <- Hi. apply list_lookup_middle. done. }
  simpl. rewrite (drop_S _ _ _ Hx).
  rewrite py_setindex_insert; last first.
  { rewrite length_app. simpl. lia. }
  simpl. rewrite py_setindex_insert; last first.
  { rewrite length_app. simpl. lia. }
  rewrite !Nat2Z.id. f_equal.
  rewrite <- Hi, <- Hk.
  rewrite (insert_app_r_alt pre), (insert_app_r_alt rows_pre) by lia.
  by rewrite !Nat.sub_diag.
Qed.

Lemma for_each_fill_below {A St} (emb : list A → St)
    (body : Z → St → outcome St) (F : Z → A) (l : list A) (n : nat) :
  (n ≤ length l)%nat →
  (∀ (k : nat) pre x,
      (k < n)%nat → length pre = k → l !! k = Some x →
      body (Z.of_nat k) (emb (pre ++ drop k l))
      = Returned (emb (pre ++ F (Z.of_nat k) :: drop (S k) l))) →
  for_each (seqZ 0 (Z.of_nat n)) body (emb l)
  = Returned (emb ((F <$> seqZ 0 (Z.of_nat n)) ++ drop n l)).
Proof.
  induction n as [|n IH]; intros Hn Hbody; [done|].
  rewrite seqZ_S, for_each_app.
  rewrite IH; [|lia|]; last first.
  { intros k pre x Hk Hpre Hx. apply (Hbody k pre x); (lia || done). }
  simpl.
  destruct (lookup_lt_is_Some_2 l n) as [x Hx]; [lia|].
  rewrite (Hbody n _ x), fmap_app, <- app_assoc; [done|lia| |done].
  by rewrite length_fmap, length_seqZ, Nat2Z.id.
Qed.

(** X11.  On a grid with as many rows as its size and no row shorter than
    the size, [update] returns: in every row the first [size] cells are
    rewritten from the old grid and the cells beyond them are left as
    they were (they are never read either: no neighbour lies there). *)
Theorem update_long_rows (g : Grid) :
  rows_at_least g →
  update g
  = Returned
      (mkGrid (cls g) (size g)
         (imap (λ i row, (next_symbol g (Z.of_nat i) <$> range 0 (size g))
                         ++ drop (Z.to_nat (size g)) row)
               (cells g))).
Proof.
  intros Hwide. pose proof Hwide as [Hlen Hrows]. unfold update.
  set (inner := λ (row : Z) (new_cells : list (list char)),
         for_each (range 0 (size g))
           (λ col nc, update_cell g row col nc) new_cells).
  set (F := λ r : Z,
         (next_symbol g r <$> range 0 (size g))
         ++ drop (Z.to_nat (size g))
                 (default [] (cells g !! Z.to_nat r))).
  assert (∀ s, s = Z.of_nat (length (cells g)) →
               for_each (range 0 s) inner (cells g)
               = Returned (F <$> range 0 s)) as Hloop.
  { intros s ->. apply (for_each_fill_all (λ l, l)).
    intros i rows_pre row Hi Hrow.
    pose proof (Forall_lookup_1 _ _ _ _ Hrows Hrow) as Hrowlen.
    simpl in Hrowlen.
    pose proof (lookup_lt_Some _ _ _ Hrow) as Hilt.
    rewrite (drop_S _ _ _ Hrow). unfold inner, F, range.
    rewrite Nat2Z.id, Hrow, Z.sub_0_r. simpl.
    rewrite <- (Z2Nat.id (size g)) at 1 2 by lia.
    apply (for_each_fill_below
             (λ r, rows_pre ++ r :: drop (S i) (cells g))); [lia|].
    intros k pre x Hklt Hk Hx.
    apply (update_cell_rows_at_least g i k rows_pre _ pre row x);
      try done.
    split; simpl; lia. }
  rewrite Hloop by done. simpl. do 2 f_equal.
  apply list_eq. intros i.
  rewrite list_lookup_fmap, list_lookup_imap.
  destruct (cells g !! i) as [row|] eqn:Hrow.
  - pose proof (lookup_lt_Some _ _ _ Hrow) as Hilt.
    rewrite range_lookup by lia. simpl. unfold F.
    by rewrite Nat2Z.id, Hrow.
  - apply lookup_ge_None_1 in Hrow.
    rewrite lookup_ge_None_2; [done|]. rewrite range_length. lia.
Qed.

(** ** Generations in a row *)

(** X12.  From a well-formed grid [update] can be called any number of
    times: every call returns, and the grid stays well-formed, of the same
    size and class; after the first call it holds only ['X'] and ['.']. *)
Theorem generations_closed (g : Grid) (n : nat) :
  well_formed g →
  ∃ g', generations n g = Returned g'
        ∧ well_formed g' ∧ size g' = size g ∧ cls g' = cls g
        ∧ ((0 < n)%nat → two_symbols g').
Proof.
  revert g. induction n as [|n IH]; intros g Hwf.
  - exists g. do 4 (split; [done|]). lia.
  - simpl. rewrite update_next_generation by done. simpl.
    destruct (IH (next_generation g)) as (g' & Hgen & Hwf' & Hs & Hc & Htwo);
      [by apply next_generation_well_formed|].
    exists g'. do 4 (split; [done|]). intros _.
    destruct n as [|n]; [|apply Htwo; lia].
    injection Hgen as <-. apply next_generation_two_symbols.
Qed.

(** ** Rendering *)

Lemma index_map {A B} (h : A → B) (l : list A) (s : Z) :
  length l = Z.to_nat s →
  mapM (λ r_idx, row ← py_index l r_idx; mret (h row)) (range 0 s)
  = Returned (h <$> l).
Proof.
  intros Hlen. destruct l as [|x0 l0].
  { unfold range, seqZ. simpl in Hlen.
    by replace (Z.to_nat (s - 0)) with 0%nat by lia. }
  set (l := x0 :: l0) in *.
  rewrite (mapM_Returned _ (λ i, h (default x0 (l !! Z.to_nat i)))).
  - f_equal. apply list_eq. intros i. rewrite !list_lookup_fmap.
    destruct (decide (i < length l)%nat) as [Hi|Hi].
    + rewrite range_lookup by lia. simpl. rewrite Nat2Z.id.
      by destruct (lookup_lt_is_Some_2 l i Hi) as [x ->].
    + rewrite (lookup_ge_None_2 l) by lia.
      rewrite lookup_ge_None_2; [done|]. rewrite range_length. lia.
  - intros i Hi. unfold range in Hi. apply elem_of_seqZ in Hi.
    destruct (lookup_lt_is_Some_2 l (Z.to_nat i)) as [x Hx]; [lia|].
    rewrite (py_index_lookup l i x) by (done || lia).
    simpl. by rewrite Hx.
Qed.

Lemma repr_rows g :
  length (cells g) = Z.to_nat (size g) →
  repr g
  = Returned (join [chr_nl]
                (match cls g with
                 | ClsGrid => cells g
                 | _ => imap hex_line (cells g)
                 end)).
Proof.
  intros Hlen.
  assert (HexGrid6_repr g
          = Returned (join [chr_nl] (imap hex_line (cells g)))) as Hhex.
  { unfold HexGrid6_repr.
    rewrite (index_map (λ row, join [chr_space] ((λ c, [c]) <$> row)))
      by done.
    simpl. do 2 f_equal. apply list_eq. intros i.
    rewrite list_lookup_fmap, list_lookup_imap, lookup_zip_with.
    rewrite !list_lookup_fmap.
    destruct (cells g !! i) as [row|] eqn:Hrow.
    - pose proof (lookup_lt_Some _ _ _ Hrow) as Hi.
      rewrite range_lookup by lia. done.
    - by destruct (range 0 (size g) !! i). }
  unfold repr. destruct (cls g); try done.
  unfold Grid_repr. rewrite (index_map (λ row, row)) by done.
  simpl. by rewrite list_fmap_id.
Qed.

(** X13.  Every grid that the constructor returns can be rendered:
    [repr] raises nothing and gives one line for each row, the rows as
    they are on Rect8, and on the hexagonal classes with the symbols
    separated by spaces and the rows of odd number indented by one
    space. *)
Theorem constructed_grid_renders (c : grid_class) (fs : filesystem)
    (arg : init_arg) (st st' : Random) (g : Grid) (out : list message) :
  Grid_init c fs arg st = Returned (g, st', out) →
  repr g
  = Returned (join [chr_nl]
                (match c with
                 | ClsGrid => cells g
                 | _ => imap hex_line (cells g)
                 end)).
Proof.
  intros Hinit.
  assert (cls g = c ∧ length (cells g) = Z.to_nat (size g)) as [<- Hlen].
  { destruct arg as [s prob|fname|].
    - destruct (Grid_init_random c fs s prob st)
        as (rows & st1 & Hinit' & Hlen & _).
      rewrite Hinit' in Hinit. by injection Hinit as <- _ _.
    - unfold Grid_init in Hinit. destruct (fs fname); [|done].
      injection Hinit as <- _ _. simpl. by rewrite Nat2Z.id.
    - done. }
  by apply repr_rows.
Qed.

(** ** The block *)

Lemma block_step s r0 c0 :
  0 ≤ r0 → r0 + 1 < s → 0 ≤ c0 → c0 + 1 < s →
  update (mkGrid ClsGrid s (board s (block r0 c0)))
  = Returned (mkGrid ClsGrid s (board s (block r0 c0))).
Proof.
  intros Hr0 Hr1 Hc0 Hc1. apply rect8_board_step; [lia|].
  intros r c Hr Hc.
  unfold block, on_board, count_if, moore. simpl.
  settle_cmp; reflexivity.
Qed.

(** X14.  A block of two by two live cells, alone on a Rect8 board, is a
    still life wherever it lies, against an edge or in a corner as well:
    [update], hence any number of generations, leaves the grid as it
    is. *)
Theorem block_still_life (g : Grid) (r0 c0 : Z) (n : nat) :
  cls g = ClsGrid → well_formed g →
  0 ≤ r0 → r0 + 1 < size g → 0 ≤ c0 → c0 + 1 < size g →
  (∀ p, in_board (size g) p → cell_at g p = block r0 c0 p.1 p.2) →
  update g = Returned g ∧ generations n g = Returned g.
Proof.
  intros Hcls Hwf Hr0 Hr1 Hc0 Hc1 Hcells.
  assert (g = mkGrid ClsGrid (size g) (board (size g) (block r0 c0))) as Hg.
  { pose proof (well_formed_board g Hwf) as Hboard.
    destruct g as [k s cs]. simpl in *. subst k. f_equal.
    rewrite Hboard. apply board_ext. intros r c Hr Hc.
    by apply (Hcells (r, c)). }
  assert (update g = Returned g) as Hup.
  { rewrite Hg at 1. rewrite block_step by done. by rewrite <- Hg. }
  split; [done|]. induction n as [|n IH]; [done|].
  simpl. by rewrite Hup.
Qed.

(** ** The driver *)

Lemma nth_generation_well_formed n g :
  well_formed g → well_formed (nth_generation n g).
Proof.
  intros Hwf. induction n as [|n IH]; [done|].
  by apply next_generation_well_formed.
Qed.

Lemma repr_render g : well_formed g → repr g = Returned (render g).
Proof. intros [Hlen _]. apply repr_rows. lia. Qed.

Lemma generation_output_eq gp g gen :
  generation_output gp g gen
  = PrintGen gen
    :: (if gen `mod` gp =? 0
        then [PrintGrid (render (nth_generation (Z.to_nat gen) g))] else []).
Proof. reflexivity. Qed.

Lemma main_loop_run gp g0 (m k : nat) out :
  gp ≠ 0 → well_formed g0 →
  main_loop gp (seqZ (Z.of_nat k + 1) (Z.of_nat m))
            (Some (nth_generation k g0)) out
  = (out ++ flat_map (generation_output gp g0)
                     (seqZ (Z.of_nat k + 1) (Z.of_nat m)), None).
Proof.
  intros Hgp Hwf. revert k out.
  induction m as [|m IH]; intros k out.
  - simpl. by rewrite app_nil_r.
  - rewrite seqZ_cons by lia.
    replace (Z.succ (Z.of_nat k + 1)) with (Z.of_nat (S k) + 1) by lia.
    replace (Z.pred (Z.of_nat (S m))) with (Z.of_nat m) by lia.
    cbn [main_loop flat_map].
    rewrite update_next_generation by by apply nth_generation_well_formed.
    change (next_generation (nth_generation k g0))
      with (nth_generation (S k) g0).
    destruct (Z.eqb_spec gp 0) as [|_]; [done|].
    rewrite generation_output_eq.
    replace (Z.to_nat (Z.of_nat k + 1)) with (S k) by lia.
    destruct ((Z.of_nat k + 1) `mod` gp =? 0).
    + rewrite repr_render by by apply nth_generation_well_formed.
      rewrite IH. f_equal. rewrite <- !app_assoc. done.
    + rewrite IH. f_equal. rewrite <- !app_assoc. done.
Qed.

(** X15.  When the grid is constructed and well-formed and the cadence is
    not 0, [main] returns 0 after printing the warnings of the
    constructor, the first grid, and then for each generation from 1 to
    [gens] its header, followed by the grid of that generation exactly
    when the generation number is a multiple of the cadence. *)
Theorem main_prints (args : Args) (fs : filesystem) (st st' : Random)
    (g0 : Grid) (warnings : list message) :
  gridBuilder (neighbor_rules args) fs (constructor_arg args) st
  = Some (Returned (g0, st', warnings)) →
  well_formed g0 → gen_print args ≠ 0 →
  main args fs st
  = ((PrintWarning <$> warnings)
     ++ PrintGrid (render g0)
        :: flat_map (generation_output (gen_print args) g0)
                    (range 1 (gens args + 1)),
     inr 0).
Proof.
  intros Hbuilt Hwf Hgp. unfold main. rewrite Hbuilt.
  rewrite repr_render by done. simpl. unfold range.
  destruct (Z.le_gt_cases (gens args + 1 - 1) 0) as [Hn|Hn].
  - rewrite seqZ_nil by done. simpl. done.
  - rewrite <- (Z2Nat.id (gens args + 1 - 1)) by lia.
    rewrite (main_loop_run (gen_print args) g0 _ 0) by done.
    by rewrite <- app_assoc.
Qed.

(** X16.  With the cadence 0, [main] ends with [ZeroDivisionError] in the
    first generation, after printing the first grid and the header of the
    generation 1 and after updating the grid; but with no generation to
    run it returns 0 after printing the first grid, whatever the
    cadence. *)
Theorem main_zero_cadence (args : Args) (fs : filesystem) (st st' : Random)
    (g0 : Grid) (warnings : list message) :
  gridBuilder (neighbor_rules args) fs (constructor_arg args) st
  = Some (Returned (g0, st', warnings)) →
  well_formed g0 →
  (gen_print args = 0 → 1 ≤ gens args →
   main args fs st
   = ((PrintWarning <$> warnings) ++ [PrintGrid (render g0); PrintGen 1],
      inl ZeroDivisionError))
  ∧ (gens args ≤ 0 →
     main args fs st
     = ((PrintWarning <$> warnings) ++ [PrintGrid (render g0)], inr 0)).
Proof.
  intros Hbuilt Hwf. unfold main. rewrite Hbuilt.
  rewrite repr_render by done. simpl. unfold range. split.
  - intros Hgp Hgens. rewrite seqZ_cons by lia. cbn [main_loop].
    rewrite update_next_generation by done. rewrite Hgp. simpl.
    by rewrite <- app_assoc.
  - intros Hgens. by rewrite seqZ_nil by lia.
Qed.

(** X17.  With a number of neighbours other than 8, 6 and 12,
    [gridBuilder] returns nothing, whatever the other arguments: [main]
    prints [None], and then either returns 0, when there is no generation
    to run, or ends with [AttributeError] after the header of the
    generation 1. *)
Theorem main_unknown_rules (args : Args) (fs : filesystem) (st : Random) :
  neighbor_rules args ≠ 8 → neighbor_rules args ≠ 6 →
  neighbor_rules args ≠ 12 →
  gridBuilder (neighbor_rules args) fs (constructor_arg args) st = None
  ∧ main args fs st
    = if 1 <=? gens args
      then ([PrintNone; PrintGen 1], inl AttributeError)
      else ([PrintNone], inr 0).
Proof.
  intros H8 H6 H12.
  assert (gridBuilder (neighbor_rules args) fs (constructor_arg args) st
          = None) as Hnone.
  { unfold gridBuilder.
    destruct (Z.eqb_spec (neighbor_rules args) 8); [done|].
    destruct (Z.eqb_spec (neighbor_rules args) 6); [done|].
    by destruct (Z.eqb_spec (neighbor_rules args) 12). }
  split; [done|]. unfold main. rewrite Hnone. simpl. unfold range.
  destruct (Z.leb_spec 1 (gens args)).
  - by rewrite seqZ_cons by lia.
  - by rewrite seqZ_nil by lia.
Qed.

(** ** Reading a cell *)

Lemma py_index_wrap {A} (l : list A) i :
  - Z.of_nat (length l) ≤ i < Z.of_nat (length l) →
  py_index l i = py_index l (i `mod` Z.of_nat (length l)).
Proof.
  intros Hi. destruct (Z.ltb_spec i 0) as [Hneg|Hpos].
  - assert (i `mod` Z.of_nat (length l) = i + Z.of_nat (length l)) as ->.
    { symmetry. apply (Z.mod_unique_pos _ _ (-1)); lia. }
    unfold py_index.
    destruct (Z.ltb_spec i 0); [|lia].
    by destruct (Z.ltb_spec (i + Z.of_nat (length l)) 0); [lia|].
  - by rewrite Z.mod_small by lia.
Qed.

Lemma py_index_outside {A} (l : list A) i :
  ¬ (- Z.of_nat (length l) ≤ i < Z.of_nat (length l)) →
  py_index l i = Raised IndexError.
Proof.
  intros Hi. unfold py_index.
  destruct (Z.ltb_spec i 0);
    [destruct (Z.leb_spec 0 (i + Z.of_nat (length l)))
    |destruct (Z.leb_spec 0 i)];
    simpl; try done;
    match goal with
    | |- context [Z.ltb ?a ?b] => destruct (Z.ltb_spec a b); [lia|done]
    end.
Qed.

(** X18.  Reading a cell of a well-formed grid with a coordinate off the
    board does not always raise: a negative row or column down to [-size]
    counts from the end, so that the read returns the cell at the
    coordinates taken modulo the size; the read raises [IndexError]
    exactly when a coordinate is at least [size] or below [-size]. *)
Theorem getitem_wraps (g : Grid) (r c : Z) :
  well_formed g →
  (- size g ≤ r < size g → - size g ≤ c < size g →
   Grid_getitem g (r, c)
   = Returned (cell_at g (r `mod` size g, c `mod` size g)))
  ∧ (¬ (- size g ≤ r < size g ∧ - size g ≤ c < size g) →
     Grid_getitem g (r, c) = Raised IndexError).
Proof.
  intros Hwf. pose proof Hwf as [Hlen Hrows]. split.
  - intros Hr Hc.
    assert (in_board (size g) (r `mod` size g, c `mod` size g)) as Hp.
    { split; simpl; apply Z.mod_pos_bound; lia. }
    rewrite <- Grid_getitem_cell_at by done.
    destruct (well_formed_lookup g _ Hwf Hp) as (row & v & Hrow & Hrowlen & _).
    simpl in Hrow. destruct Hp as [Hr' Hc']. simpl in *.
    unfold Grid_getitem. simpl.
    rewrite py_index_wrap, Hlen by lia.
    rewrite (py_index_lookup _ _ row) by (done || lia). simpl.
    by rewrite py_index_wrap, Hrowlen by lia.
  - intros Hout. unfold Grid_getitem. simpl.
    destruct (decide (- size g ≤ r < size g)) as [Hr|Hr].
    + assert (in_board (size g) (r `mod` size g, 0)) as Hp.
      { split; simpl; [apply Z.mod_pos_bound|]; lia. }
      destruct (well_formed_lookup g _ Hwf Hp)
        as (row & v & Hrow & Hrowlen & _).
      simpl in Hrow. destruct Hp as [Hr' _]. simpl in *.
      rewrite py_index_wrap, Hlen by lia.
      rewrite (py_index_lookup _ _ row) by (done || lia). simpl.
      apply py_index_outside. lia.
    + by rewrite py_index_outside by lia.
Qed.

(** ** Locality and symmetry of a generation *)

Lemma getNeighbors_ext g1 g2 p :
  cls g1 = cls g2 → size g1 = size g2 →
  getNeighbors g1 p = getNeighbors g2 p.
Proof.
  intros Hcls Hsize.
  unfold getNeighbors, HexGrid12_getNeighbors, HexGrid6_getNeighbors,
    Grid_getNeighbors.
  by rewrite Hcls, Hsize.
Qed.

(** X19.  A generation is local: when two well-formed grids of the same
    class and size hold the same symbol at a cell of the board and at each
    of its neighbours, [update] writes the same symbol at that cell in
    both. *)
Theorem update_local (g1 g2 : Grid) (p : Z * Z) :
  well_formed g1 → well_formed g2 →
  cls g1 = cls g2 → size g1 = size g2 → in_board (size g1) p →
  cell_at g1 p = cell_at g2 p →
  (∀ n, n ∈ getNeighbors g1 p →
        cell_at g1 (coordinate n) = cell_at g2 (coordinate n)) →
  ∃ g1' g2', update g1 = Returned g1' ∧ update g2 = Returned g2'
             ∧ symbol_at g1' p = symbol_at g2' p.
Proof.
  intros Hwf1 Hwf2 Hcls Hsize Hp Hcell Hnear.
  exists (next_generation g1), (next_generation g2).
  split; [by apply update_next_generation|].
  split; [by apply update_next_generation|].
  rewrite !next_generation_symbol by (done || by rewrite <- Hsize).
  assert (score g1 p = score g2 p) as Hscore.
  { unfold score. rewrite <- (getNeighbors_ext g1 g2 p Hcls Hsize).
    f_equal. apply list_fmap_ext. intros i n Hn.
    rewrite Hnear; [done|]. by eapply list_elem_of_lookup_2. }
  f_equal. unfold next_symbol, live.
  by rewrite <- surjective_pairing, <- Hcell, <- Hcls, <- Hscore.
Qed.

Lemma is_marked_on_board g q :
  well_formed g →
  is_marked g q
  = on_board (size g) q && negb (char_eqb (cell_at g q) chr_dot).
Proof.
  intros Hwf. unfold is_marked.
  pose proof (on_board_spec (size g) q) as Hq. destruct (on_board _ _).
  - rewrite symbol_at_in_board; [done|done|by apply Hq].
  - rewrite symbol_at_off_board; [done..|].
    intros Hin. by apply Hq in Hin.
Qed.

Lemma on_board_swap s a b : on_board s (a, b) = on_board s (b, a).
Proof.
  unfold on_board. simpl.
  by destruct (0 <=? a), (a <? s), (0 <=? b), (b <? s).
Qed.

Lemma moore_swap (H : Z * Z → bool) r c :
  count_if (λ q, H (q.2, q.1)) (moore (r, c)) = count_if H (moore (c, r)).
Proof. unfold count_if, moore. simpl. lia. Qed.

(** X20.  The Rect8 step has no preferred direction: on a well-formed
    Rect8 grid, updating the board mirrored along its diagonal gives the
    mirror image of the updated board. *)
Theorem rect8_transpose (g : Grid) :
  cls g = ClsGrid → well_formed g →
  ∃ g', update g = Returned g'
        ∧ update (transpose g) = Returned (transpose g').
Proof.
  intros Hcls Hwf. exists (next_generation g).
  split; [by apply update_next_generation|].
  unfold transpose. simpl. rewrite Hcls.
  apply rect8_board_step; [by apply well_formed_size|].
  intros r c Hr Hc.
  assert (in_board (size g) (c, r)) as Hp by done.
  unfold cell_at at 6. rewrite next_generation_symbol by done.
  cbn [default]. rewrite (rect8_next_symbol g (c, r)) by done.
  unfold marked_neighbors.
  rewrite (count_if_ext (is_marked g) _ _ (λ q, is_marked_on_board g q Hwf)).
  rewrite <- (moore_swap
                (λ q, on_board (size g) q
                      && negb (char_eqb (cell_at g q) chr_dot)) r c).
  by rewrite (count_if_ext _ _ _
                (λ q, f_equal (λ b, b && _) (on_board_swap (size g) q.2 q.1))).
Qed.

End Program.

(** * The program at work

    The properties above hold for both interpreters.  The concrete runs
    below are made with the compensated [sum] of CPython 3.12, unless
    the interpreter is named. *)

#[local] Existing Instance cpython_3_12.

(** ** The model at work *)

Example literals :
  lit_0_3 = S754_finite false 5404319552844595 (-54)
  ∧ lit_2_0 = S754_finite false 4503599627370496 (-51)
  ∧ lit_3_3 = S754_finite false 7430939385161318 (-51)
  ∧ lit_2_3 = S754_finite false 5179139571476070 (-51)
  ∧ lit_2_9 = S754_finite false 6530219459687219 (-51).
Proof. repeat split. Qed.

(** [0.3] is the double nearest to 3/10: it is within half a unit in the
    last place of it. *)
Example lit_0_3_nearest :
  2 * Z.abs (10 * 5404319552844595 - 3 * 2 ^ 54) ≤ 10.
Proof. vm_compute. discriminate. Qed.

(** In floating point [2 + 0.3] is the double [2.3]: it is not above the
    lower bound of the birth rule of Hex12. *)
Example two_plus_three_tenths :
  py_add (PInt 2) (PFloat lit_0_3) = PFloat lit_2_3
  ∧ py_lt (PFloat lit_2_3) (py_add (PInt 2) (PFloat lit_0_3)) = false.
Proof. split; reflexivity. Qed.

Example symbols :
  chr_X = 88%N ∧ chr_dot = 46%N ∧ chr_nl = 10%N ∧ chr_space = 32%N
  ∧ isspace chr_nl = true ∧ isspace chr_X = false ∧ isspace chr_dot = false.
Proof. repeat split. Qed.

Example strip_line :
  strip [chr_space; chr_X; chr_dot; chr_space; chr_nl] = [chr_X; chr_dot].
Proof. reflexivity. Qed.

Example readlines_diagonal :
  readlines diagonal_text
  = [[chr_X; chr_dot; chr_nl]; [chr_dot; chr_X; chr_nl]].
Proof. reflexivity. Qed.

(** The three line terminators are read as a line feed. *)
Example universal_newlines_crlf :
  universal_newlines crlf_text = diagonal_text
  ∧ universal_newlines [chr_X; chr_cr; chr_dot; chr_nl; chr_cr; chr_nl]
    = [chr_X; chr_nl; chr_dot; chr_nl; chr_nl].
Proof. split; reflexivity. Qed.

(** The sum of two integers and three times 0.3, on each interpreter. *)
Example sum_compensated :
  py_sum (py := cpython_3_11)
         [PInt 1; PInt 1; PFloat lit_0_3; PFloat lit_0_3; PFloat lit_0_3]
  = PFloat (S754_finite false 6530219459687218 (-51))
  ∧ py_sum (py := cpython_3_12)
           [PInt 1; PInt 1; PFloat lit_0_3; PFloat lit_0_3; PFloat lit_0_3]
    = PFloat lit_2_9.
Proof. split; reflexivity. Qed.

Example negative_index : py_index [chr_X; chr_dot] (-1) = Returned chr_dot.
Proof. reflexivity. Qed.

Example index_out_of_range : py_index [chr_X; chr_dot] 2 = Raised IndexError.
Proof. reflexivity. Qed.

Example corner_neighbors :
  coordinate <$> getNeighbors board3 (0, 0) = [(0, 1); (1, 0); (1, 1)].
Proof. reflexivity. Qed.

Example centre_of_hexboard5 :
  getNeighbors hexboard5 (2, 2)
  = [mkCell (1, 2) (PInt 1); mkCell (2, 1) (PInt 1); mkCell (2, 3) (PInt 1);
     mkCell (3, 2) (PInt 1); mkCell (1, 1) (PInt 1); mkCell (3, 1) (PInt 1);
     mkCell (0, 2) (PFloat lit_0_3); mkCell (4, 2) (PFloat lit_0_3);
     mkCell (1, 0) (PFloat lit_0_3); mkCell (1, 3) (PFloat lit_0_3);
     mkCell (3, 3) (PFloat lit_0_3); mkCell (3, 0) (PFloat lit_0_3)].
Proof. reflexivity. Qed.

Example update_board3 :
  update board3
  = Returned (mkGrid ClsGrid 3 [[chr_dot; chr_dot; chr_dot];
                                [chr_X; chr_X; chr_X];
                                [chr_dot; chr_dot; chr_dot]]).
Proof. vm_compute. reflexivity. Qed.

(** A row that is too short makes [update] raise. *)
Example update_ragged :
  update (mkGrid ClsGrid 2 [[chr_X; chr_dot]; [chr_dot]]) = Raised IndexError.
Proof. vm_compute. reflexivity. Qed.

Example hex_repr :
  repr (mkGrid ClsHexGrid6 2 [[chr_X; chr_dot]; [chr_dot; chr_X]])
  = Returned [chr_X; chr_space; chr_dot; chr_nl;
              chr_space; chr_dot; chr_space; chr_X].
Proof. reflexivity. Qed.

Example init_without_file :
  Grid_init ClsGrid no_files (ArgStr []) rng_half = Raised FileNotFoundError
  ∧ Grid_init ClsGrid no_files ArgOther rng_half = Raised AssertionError.
Proof. split; reflexivity. Qed.

(** ** Neighbourhoods *)

Lemma rect8_neighbors_witness :
  (length (getNeighbors board3 (1%Z, 1%Z)) ≤ 8)%nat
  ∧ (∀ n, n ∈ getNeighbors board3 (1, 1) →
          (0 ≤ (coordinate n).1 < size board3
           ∧ 0 ≤ (coordinate n).2 < size board3)
          ∧ weight n = PInt 1 ∧ py_eq (weight n) (PFloat lit_1_0) = true)
  ∧ (2 ≤ size board3 →
     ∀ corner, corner ∈ [(0, 0); (0, size board3 - 1);
                         (size board3 - 1, 0);
                         (size board3 - 1, size board3 - 1)] →
               length (getNeighbors board3 corner) = 3%nat).
Proof. apply (rect8_neighbors board3 1 1); [reflexivity | simpl; lia..]. Defined.

Lemma hex12_neighbors_witness :
  ∃ extra,
    getNeighbors hexboard5 (2, 2)
    = HexGrid6_getNeighbors hexboard5 (2, 2) ++ extra
    ∧ (length (getNeighbors hexboard5 (2%Z, 2%Z)) ≤ 12)%nat
    ∧ (length (HexGrid6_getNeighbors hexboard5 (2%Z, 2%Z)) ≤ 6)%nat
    ∧ (∀ n, n ∈ HexGrid6_getNeighbors hexboard5 (2, 2) → weight n = PInt 1)
    ∧ (length extra ≤ 6)%nat
    ∧ (∀ n, n ∈ extra →
            weight n = PFloat lit_0_3
            ∧ ∃ o, o ∈ HexGrid12_neighbors_offset (2 `mod` 2 =? 1)
                   ∧ coordinate n = (2 + o.1, 2 + o.2))
    ∧ (0 ≤ 2 - 2 → mkCell (2 - 2, 2) (PFloat lit_0_3) ∈ extra)
    ∧ (2 + 2 < size hexboard5
       → mkCell (2 + 2, 2) (PFloat lit_0_3) ∈ extra).
Proof.
  apply (hex12_neighbors hexboard5 2 2); [reflexivity | simpl; lia..].
Defined.

(** C2, as the claim words it, fails: on the Hex12 board of size 5 the
    neighbours of (2,2) at the far axial offsets (-2,0) and (2,0) do not
    carry the weight 1.0. *)
Lemma hex12_far_axial_weight_counterexample :
  ¬ (∀ n, n ∈ getNeighbors hexboard5 (2, 2) →
          coordinate n = (2 - 2, 2) ∨ coordinate n = (2 + 2, 2) →
          py_eq (weight n) (PFloat lit_1_0) = true).
Proof.
  intros H.
  specialize (H (mkCell (0, 2) (PFloat lit_0_3))).
  assert (py_eq (PFloat lit_0_3) (PFloat lit_1_0) = false) as E
    by (vm_compute; reflexivity).
  simpl in H. rewrite E in H.
  assert (false = true) as F; [|discriminate F].
  apply H; [|by left].
  vm_compute. find_elem.
Qed.

(** ** One generation *)

Lemma update_preserves_shape_witness :
  ∃ g', update board3 = Returned g'
        ∧ size g' = size board3
        ∧ cls g' = cls board3
        ∧ Z.of_nat (length (cells g')) = size board3
        ∧ Forall (λ row, Z.of_nat (length row) = size board3) (cells g').
Proof.
  apply (update_preserves_shape board3); [reflexivity|].
  repeat constructor.
Defined.

Lemma update_symbols_witness :
  ∃ g', update marked3 = Returned g'
        ∧ cls g' = cls marked3 ∧ size g' = size marked3 ∧ well_formed g'
        ∧ (∀ p, in_board (size marked3) p →
                symbol_at g' p = Some chr_X ∨ symbol_at g' p = Some chr_dot)
        ∧ (∀ p, ¬ in_board (size marked3) p → symbol_at g' p = None)
        ∧ ∀ row v, row ∈ cells g' → v ∈ row → v = chr_X ∨ v = chr_dot.
Proof.
  apply (update_symbols marked3).
  split; [reflexivity|]. repeat constructor.
Defined.

(** ** Dead boards and random construction *)

Lemma all_dead_stays_dead_witness :
  update hexboard5 = Returned hexboard5
  ∧ generations 3 hexboard5 = Returned hexboard5
  ∧ ∃ g5 st',
      Grid_init ClsGrid no_files (ArgTuple 5 (PFloat lit_0_0)) rng_half
      = Returned (g5, st', [])
      ∧ ∀ k : nat, (k ≤ 3)%nat →
          ∃ g', generations k g5 = Returned g'
                ∧ repr g' = Returned five_rows.
Proof.
  apply (all_dead_stays_dead hexboard5 3 no_files rng_half).
  - split; [reflexivity|]. repeat constructor.
  - repeat constructor.
  - intros k. split; reflexivity.
Defined.

(** C3, as the claim words it, fails: with the size 0, and with the
    probability 2.0, the construction returns a grid and raises nothing. *)
Lemma init_random_counterexample :
  (0 ≤ 0
   ∧ Grid_init ClsGrid no_files (ArgTuple 0 (PFloat lit_0_5)) rng_half
     = Returned (mkGrid ClsGrid 0 [], rng_half, []))
  ∧ (py_lt (PInt 1) (PFloat lit_2_0) = true
     ∧ Grid_init ClsGrid no_files (ArgTuple 2 (PFloat lit_2_0)) rng_half
       = Returned (mkGrid ClsGrid 2 [[chr_X; chr_X]; [chr_X; chr_X]],
                   mkRandom (draws rng_half) 4, [])).
Proof. repeat split; (lia || reflexivity). Qed.

(** ** Conway's rule and the other symbols *)

Lemma rect8_update_is_conway_witness :
  ∃ g', update board3 = Returned g'
        ∧ cls g' = ClsGrid ∧ size g' = size board3
        ∧ well_formed g' ∧ two_symbols g'
        ∧ ∀ p, in_board (size board3) p →
               symbol_at g' p
               = Some (if conway board3 p then chr_X else chr_dot)
               ∧ is_alive g' p = conway board3 p
               ∧ (is_alive board3 p = true →
                  (is_alive g' p = true
                   ↔ alive_neighbors board3 p = 2
                     ∨ alive_neighbors board3 p = 3))
               ∧ (is_alive board3 p = false →
                  (is_alive g' p = true ↔ alive_neighbors board3 p = 3)).
Proof.
  apply (rect8_update_is_conway board3).
  - reflexivity.
  - split; [reflexivity|]. repeat constructor.
  - unfold two_symbols. simpl.
    repeat match goal with
           | |- Forall _ _ => constructor
           | |- _ ∨ _ => (by left) || (by right)
           end.
Defined.

Lemma other_symbols_witness :
  (∃ g', update marked3 = Returned g'
          ∧ (cell_at marked3 (1, 1) ≠ chr_X → cell_at marked3 (1, 1) ≠ chr_dot →
             symbol_at g' (1, 1) = Some chr_dot)
          ∧ (∀ n, n ∈ getNeighbors marked3 (1, 1) →
                  (weight n = PInt 1 ∨ weight n = PFloat lit_0_3)
                  ∧ (cell_at marked3 (coordinate n) ≠ chr_dot →
                     score_term marked3 n = Returned (weight n))
                  ∧ (cell_at marked3 (coordinate n) = chr_dot →
                     ∃ z, score_term marked3 n = Returned z ∧ is_zero z))
          ∧ (cls marked3 = ClsGrid →
             score marked3 (1, 1) = PInt (marked_neighbors marked3 (1, 1))
             ∧ (cell_at marked3 (1, 1) = chr_X →
                symbol_at g' (1, 1)
                = Some (if (marked_neighbors marked3 (1, 1) =? 2)
                           || (marked_neighbors marked3 (1, 1) =? 3)
                        then chr_X else chr_dot))
             ∧ (cell_at marked3 (1, 1) = chr_dot →
                symbol_at g' (1, 1)
                = Some (if marked_neighbors marked3 (1, 1) =? 3
                        then chr_X else chr_dot)))
          ∧ (cls marked3 = ClsHexGrid6 →
             score marked3 (1, 1) = PInt (count_if (is_marked marked3) (hex6_ring (1, 1)))
             ∧ (cell_at marked3 (1, 1) = chr_X →
                symbol_at g' (1, 1)
                = Some (if (count_if (is_marked marked3) (hex6_ring (1, 1)) =? 2)
                           || (count_if (is_marked marked3) (hex6_ring (1, 1)) =? 3)
                        then chr_X else chr_dot))
             ∧ (cell_at marked3 (1, 1) = chr_dot →
                symbol_at g' (1, 1)
                = Some (if count_if (is_marked marked3) (hex6_ring (1, 1)) =? 3
                        then chr_X else chr_dot)))
          ∧ (cls marked3 = ClsHexGrid12 →
             (cell_at marked3 (1, 1) = chr_X →
              symbol_at g' (1, 1)
              = Some (if hex12_rule true
                           (count_if (is_marked marked3) (hex6_ring (1, 1)))
                           (count_if (is_marked marked3) (hex12_ring (1, 1)))
                      then chr_X else chr_dot))
             ∧ (cell_at marked3 (1, 1) = chr_dot →
                symbol_at g' (1, 1)
                = Some (if hex12_rule false
                             (count_if (is_marked marked3) (hex6_ring (1, 1)))
                             (count_if (is_marked marked3) (hex12_ring (1, 1)))
                        then chr_X else chr_dot))))
  ∧ (∃ g', update marked_hex6 = Returned g'
          ∧ (cell_at marked_hex6 (1, 0) ≠ chr_X → cell_at marked_hex6 (1, 0) ≠ chr_dot →
             symbol_at g' (1, 0) = Some chr_dot)
          ∧ (∀ n, n ∈ getNeighbors marked_hex6 (1, 0) →
                  (weight n = PInt 1 ∨ weight n = PFloat lit_0_3)
                  ∧ (cell_at marked_hex6 (coordinate n) ≠ chr_dot →
                     score_term marked_hex6 n = Returned (weight n))
                  ∧ (cell_at marked_hex6 (coordinate n) = chr_dot →
                     ∃ z, score_term marked_hex6 n = Returned z ∧ is_zero z))
          ∧ (cls marked_hex6 = ClsGrid →
             score marked_hex6 (1, 0) = PInt (marked_neighbors marked_hex6 (1, 0))
             ∧ (cell_at marked_hex6 (1, 0) = chr_X →
                symbol_at g' (1, 0)
                = Some (if (marked_neighbors marked_hex6 (1, 0) =? 2)
                           || (marked_neighbors marked_hex6 (1, 0) =? 3)
                        then chr_X else chr_dot))
             ∧ (cell_at marked_hex6 (1, 0) = chr_dot →
                symbol_at g' (1, 0)
                = Some (if marked_neighbors marked_hex6 (1, 0) =? 3
                        then chr_X else chr_dot)))
          ∧ (cls marked_hex6 = ClsHexGrid6 →
             score marked_hex6 (1, 0) = PInt (count_if (is_marked marked_hex6) (hex6_ring (1, 0)))
             ∧ (cell_at marked_hex6 (1, 0) = chr_X →
                symbol_at g' (1, 0)
                = Some (if (count_if (is_marked marked_hex6) (hex6_ring (1, 0)) =? 2)
                           || (count_if (is_marked marked_hex6) (hex6_ring (1, 0)) =? 3)
                        then chr_X else chr_dot))
             ∧ (cell_at marked_hex6 (1, 0) = chr_dot →
                symbol_at g' (1, 0)
                = Some (if count_if (is_marked marked_hex6) (hex6_ring (1, 0)) =? 3
                        then chr_X else chr_dot)))
          ∧ (cls marked_hex6 = ClsHexGrid12 →
             (cell_at marked_hex6 (1, 0) = chr_X →
              symbol_at g' (1, 0)
              = Some (if hex12_rule true
                           (count_if (is_marked marked_hex6) (hex6_ring (1, 0)))
                           (count_if (is_marked marked_hex6) (hex12_ring (1, 0)))
                      then chr_X else chr_dot))
             ∧ (cell_at marked_hex6 (1, 0) = chr_dot →
                symbol_at g' (1, 0)
                = Some (if hex12_rule false
                             (count_if (is_marked marked_hex6) (hex6_ring (1, 0)))
                             (count_if (is_marked marked_hex6) (hex12_ring (1, 0)))
                        then chr_X else chr_dot))))
  ∧ (∃ g', update marked_hex12 = Returned g'
          ∧ (cell_at marked_hex12 (2, 2) ≠ chr_X → cell_at marked_hex12 (2, 2) ≠ chr_dot →
             symbol_at g' (2, 2) = Some chr_dot)
          ∧ (∀ n, n ∈ getNeighbors marked_hex12 (2, 2) →
                  (weight n = PInt 1 ∨ weight n = PFloat lit_0_3)
                  ∧ (cell_at marked_hex12 (coordinate n) ≠ chr_dot →
                     score_term marked_hex12 n = Returned (weight n))
                  ∧ (cell_at marked_hex12 (coordinate n) = chr_dot →
                     ∃ z, score_term marked_hex12 n = Returned z ∧ is_zero z))
          ∧ (cls marked_hex12 = ClsGrid →
             score marked_hex12 (2, 2) = PInt (marked_neighbors marked_hex12 (2, 2))
             ∧ (cell_at marked_hex12 (2, 2) = chr_X →
                symbol_at g' (2, 2)
                = Some (if (marked_neighbors marked_hex12 (2, 2) =? 2)
                           || (marked_neighbors marked_hex12 (2, 2) =? 3)
                        then chr_X else chr_dot))
             ∧ (cell_at marked_hex12 (2, 2) = chr_dot →
                symbol_at g' (2, 2)
                = Some (if marked_neighbors marked_hex12 (2, 2) =? 3
                        then chr_X else chr_dot)))
          ∧ (cls marked_hex12 = ClsHexGrid6 →
             score marked_hex12 (2, 2) = PInt (count_if (is_marked marked_hex12) (hex6_ring (2, 2)))
             ∧ (cell_at marked_hex12 (2, 2) = chr_X →
                symbol_at g' (2, 2)
                = Some (if (count_if (is_marked marked_hex12) (hex6_ring (2, 2)) =? 2)
                           || (count_if (is_marked marked_hex12) (hex6_ring (2, 2)) =? 3)
                        then chr_X else chr_dot))
             ∧ (cell_at marked_hex12 (2, 2) = chr_dot →
                symbol_at g' (2, 2)
                = Some (if count_if (is_marked marked_hex12) (hex6_ring (2, 2)) =? 3
                        then chr_X else chr_dot)))
          ∧ (cls marked_hex12 = ClsHexGrid12 →
             (cell_at marked_hex12 (2, 2) = chr_X →
              symbol_at g' (2, 2)
              = Some (if hex12_rule true
                           (count_if (is_marked marked_hex12) (hex6_ring (2, 2)))
                           (count_if (is_marked marked_hex12) (hex12_ring (2, 2)))
                      then chr_X else chr_dot))
             ∧ (cell_at marked_hex12 (2, 2) = chr_dot →
                symbol_at g' (2, 2)
                = Some (if hex12_rule false
                             (count_if (is_marked marked_hex12) (hex6_ring (2, 2)))
                             (count_if (is_marked marked_hex12) (hex12_ring (2, 2)))
                        then chr_X else chr_dot)))).
Proof.
  split; [|split].
  - apply (other_symbols marked3 (1, 1)).
    + split; [reflexivity|]. repeat constructor.
    + split; simpl; lia.
  - apply (other_symbols marked_hex6 (1, 0)).
    + split; [reflexivity|]. repeat constructor.
    + split; simpl; lia.
  - apply (other_symbols marked_hex12 (2, 2)).
    + split; [reflexivity|]. repeat constructor.
    + split; simpl; lia.
Defined.

(** On the Hex6 layout the dead cell [(1, 0)] has the neighbours [X], [X]
    and [O] and is born. *)
Example other_symbols_hex6 :
  count_if (is_marked marked_hex6) (hex6_ring (1, 0)) = 3
  ∧ ∃ g', update marked_hex6 = Returned g'
          ∧ symbol_at g' (1, 0) = Some chr_X.
Proof.
  split; [reflexivity|]. eexists. split; [vm_compute; reflexivity|].
  reflexivity.
Qed.

(** The same on Hex12, with either interpreter: the [O] of the two rings
    count for 1 and for 0.3, so that the dead centre, with the score 2.6,
    is born; read as dead cells they would leave it dead. *)
Example other_symbols_hex12 :
  (∃ g', update (py := cpython_3_11) marked_hex12 = Returned g'
         ∧ symbol_at g' (2, 2) = Some chr_X)
  ∧ (∃ g', update (py := cpython_3_12) marked_hex12 = Returned g'
           ∧ symbol_at g' (2, 2) = Some chr_X)
  ∧ (∃ g', update (py := cpython_3_11) (deaden marked_hex12) = Returned g'
           ∧ symbol_at g' (2, 2) = Some chr_dot)
  ∧ (∃ g', update (py := cpython_3_12) (deaden marked_hex12) = Returned g'
           ∧ symbol_at g' (2, 2) = Some chr_dot).
Proof.
  repeat split; eexists; (split; [vm_compute; reflexivity | reflexivity]).
Qed.

(** C4, as the claim words it, fails: on the layout [XXX], [.O.], [...]
    the step is not the step of the layout read with [O] as a dead cell.
    The [O] in the middle has 3 live neighbours and is not born, and it
    counts in the score of the cells around it: the two corners survive
    and the two cells beside it are born. *)
Lemma other_symbols_counterexample :
  update marked3
  = Returned (mkGrid ClsGrid 3 [[chr_X; chr_X; chr_X];
                                [chr_X; chr_dot; chr_X];
                                [chr_dot; chr_dot; chr_dot]])
  ∧ update (deaden marked3)
    = Returned (mkGrid ClsGrid 3 [[chr_dot; chr_X; chr_dot];
                                  [chr_dot; chr_X; chr_dot];
                                  [chr_dot; chr_dot; chr_dot]])
  ∧ update marked3 ≠ update (deaden marked3).
Proof.
  assert (update marked3
          = Returned (mkGrid ClsGrid 3 [[chr_X; chr_X; chr_X];
                                        [chr_X; chr_dot; chr_X];
                                        [chr_dot; chr_dot; chr_dot]])) as E1
    by (vm_compute; reflexivity).
  assert (update (deaden marked3)
          = Returned (mkGrid ClsGrid 3 [[chr_dot; chr_X; chr_dot];
                                        [chr_dot; chr_X; chr_dot];
                                        [chr_dot; chr_dot; chr_dot]])) as E2
    by (vm_compute; reflexivity).
  split; [done|]. split; [done|]. rewrite E1, E2. discriminate.
Qed.

(** ** The blinker *)

Lemma blinker_period_two_witness :
  ∃ g1, update blinker5 = Returned g1
        ∧ g1 ≠ blinker5
        ∧ update g1 = Returned blinker5
        ∧ generations 2 blinker5 = Returned blinker5.
Proof.
  apply (blinker_period_two blinker5 2 2); try (simpl; lia).
  - reflexivity.
  - apply board_well_formed. lia.
  - intros p Hp. unfold cell_at, blinker5.
    by rewrite symbol_at_board.
Defined.

(** ** Loading a layout and rendering it *)

Lemma layout_roundtrip_witness :
  (∃ g out,
    Grid_init ClsGrid crlf_file (ArgStr []) rng_half = Returned (g, rng_half, out)
    ∧ repr g = Returned (chomp (universal_newlines crlf_text))
    ∧ (chr_cr ∉ crlf_text →
       repr g = Returned (chomp crlf_text)
       ∧ ∀ body, crlf_text = body ++ [chr_nl] → repr g = Returned body)
    ∧ (repr g = Returned crlf_text
       ↔ (chr_cr ∉ crlf_text) ∧ (∀ body, crlf_text ≠ body ++ [chr_nl])))
  ∧ (∃ g out,
    Grid_init ClsGrid diagonal_file (ArgStr []) rng_half = Returned (g, rng_half, out)
    ∧ repr g = Returned (chomp (universal_newlines diagonal_text))
    ∧ (chr_cr ∉ diagonal_text →
       repr g = Returned (chomp diagonal_text)
       ∧ ∀ body, diagonal_text = body ++ [chr_nl] → repr g = Returned body)
    ∧ (repr g = Returned diagonal_text
       ↔ (chr_cr ∉ diagonal_text) ∧ (∀ body, diagonal_text ≠ body ++ [chr_nl]))).
Proof.
  split.
  - apply (layout_roundtrip crlf_file [] crlf_text rng_half).
    + reflexivity.
    + unfold layout, crlf_text.
      repeat match goal with
             | |- Forall _ _ => constructor
             | |- _ ∨ _ =>
                 first [ by left | by right; left | by right; right ]
             end.
  - apply (layout_roundtrip diagonal_file [] diagonal_text rng_half).
    + reflexivity.
    + unfold layout, diagonal_text.
      repeat match goal with
             | |- Forall _ _ => constructor
             | |- _ ∨ _ =>
                 first [ by left | by right; left | by right; right ]
             end.
Defined.

(** The file of [crlf_text] is rendered as [X.], a line feed, [.X]. *)
Example crlf_rendered :
  ∃ g, Grid_init ClsGrid crlf_file (ArgStr []) rng_half
       = Returned (g, rng_half, [])
       ∧ repr g = Returned [chr_X; chr_dot; chr_nl; chr_dot; chr_X].
Proof. eexists. split; reflexivity. Qed.

(** C7, as the claim words it, fails: the layout of the rows [X.] and
    [.X], each ended by a line feed, is rendered without the last line
    feed, which is not the text of the file. *)
Lemma layout_roundtrip_counterexample :
  layout diagonal_text
  ∧ ∃ g,
      Grid_init ClsGrid diagonal_file (ArgStr []) rng_half
      = Returned (g, rng_half, [])
      ∧ repr g = Returned [chr_X; chr_dot; chr_nl; chr_dot; chr_X]
      ∧ repr g ≠ Returned diagonal_text.
Proof.
  split.
  - unfold layout, diagonal_text.
    repeat match goal with
           | |- Forall _ _ => constructor
           | |- _ ∨ _ => first [ by left | by right; left | by right; right ]
           end.
  - eexists. split; [reflexivity|]. split; [reflexivity|]. discriminate.
Qed.

(** ** The neighbourhoods, exactly *)

Lemma neighbors_exact_witness :
  mkCell (0, 2) (PFloat lit_0_3) ∈ getNeighbors hexboard5 (2, 2) ↔
  in_board (size hexboard5) (coordinate (mkCell (0, 2) (PFloat lit_0_3)))
  ∧ adjacent hexboard5 (2, 2) (mkCell (0, 2) (PFloat lit_0_3)).
Proof.
  apply (neighbors_exact hexboard5 (2, 2)). split; simpl; lia.
Defined.

Lemma neighbors_symmetric_witness :
  mkCell (2, 2) (PFloat lit_0_3) ∈ getNeighbors hexboard5 (0, 2).
Proof.
  apply (neighbors_symmetric hexboard5 (2, 2) (0, 2) (PFloat lit_0_3)).
  - split; simpl; lia.
  - vm_compute. find_elem.
Defined.

Lemma interior_neighbors_witness :
  length (getNeighbors hexboard5 (2, 2)) = full_count (cls hexboard5).
Proof. apply (interior_neighbors hexboard5 2 2); simpl; lia. Defined.

(** ** Construction *)

Lemma init_file_warnings_witness :
  (∃ g out,
     Grid_init ClsGrid ragged_file (ArgStr []) rng_half
     = Returned (g, rng_half, out)
     ∧ cls g = ClsGrid
     ∧ size g = Z.of_nat (length (cells g))
     ∧ (∀ row v, row ∈ cells g →
                 head row = Some v ∨ last row = Some v → isspace v = false)
     ∧ (out = [] ↔ well_formed g)
     ∧ (∀ k e, RowMismatch k e ∈ out ↔
               e = size g
               ∧ ∃ (i : nat) row, k = Z.of_nat i + 1
                                  ∧ cells g !! i = Some row
                                  ∧ Z.of_nat (length row) ≠ size g)
     ∧ StronglySorted (λ m1 m2, message_row m1 < message_row m2) out
     ∧ length out
       = length (filter (λ row, Z.of_nat (length row) ≠ size g) (cells g)))
  ∧ Grid_init ClsGrid ragged_file (ArgStr []) rng_half
    = Returned (mkGrid ClsGrid 3 [[chr_X]; [chr_dot; chr_X; chr_dot]; [chr_X]],
                rng_half, [RowMismatch 1 3; RowMismatch 3 3]).
Proof.
  split; [|reflexivity].
  apply (init_file_warnings ClsGrid ragged_file [] ragged_text rng_half).
  reflexivity.
Defined.

Lemma init_random_draws_witness :
  ∃ g st',
    Grid_init ClsGrid no_files (ArgTuple 2 (PFloat lit_2_0)) rng_half
    = Returned (g, st', [])
    ∧ cls g = ClsGrid ∧ size g = 2
    ∧ well_formed g ∧ two_symbols g
    ∧ draws st' = draws rng_half
    ∧ calls st' = (calls rng_half + Z.to_nat 2 * Z.to_nat 2)%nat
    ∧ cells g
      = (λ i, (λ j, drawn (PFloat lit_2_0) rng_half
                          (calls rng_half + i * Z.to_nat 2 + j))
                <$> seq 0 (Z.to_nat 2)) <$> seq 0 (Z.to_nat 2).
Proof.
  apply (init_random_draws ClsGrid no_files 2 (PFloat lit_2_0) rng_half).
  lia.
Defined.

Lemma init_random_extremes_witness :
  (∃ st', Grid_init ClsGrid no_files (ArgTuple 2 (PFloat lit_1_0)) rng_half
          = Returned (mkGrid ClsGrid 2
                        (replicate (Z.to_nat 2)
                           (replicate (Z.to_nat 2) chr_X)),
                      st', []))
  ∧ (∃ st', Grid_init ClsGrid no_files (ArgTuple 2 (PFloat lit_0_0)) rng_half
            = Returned (mkGrid ClsGrid 2
                          (replicate (Z.to_nat 2)
                             (replicate (Z.to_nat 2) chr_dot)),
                        st', [])).
Proof.
  apply (init_random_extremes ClsGrid no_files 2 rng_half).
  intros k. split; reflexivity.
Defined.

(** ** Layouts that are not square *)

Lemma update_short_row_witness :
  update short_row2 = Raised IndexError
  ∧ ∀ g0 e, update g0 = Raised e → e = IndexError.
Proof.
  apply (update_short_row short_row2); [reflexivity|].
  apply Exists_cons_tl, Exists_cons_hd. simpl. lia.
Defined.

Lemma update_long_rows_witness :
  update long_row2
  = Returned
      (mkGrid (cls long_row2) (size long_row2)
         (imap (λ i row,
                  (next_symbol long_row2 (Z.of_nat i)
                     <$> range 0 (size long_row2))
                  ++ drop (Z.to_nat (size long_row2)) row)
               (cells long_row2))).
Proof.
  apply (update_long_rows long_row2).
  split; [reflexivity|]. repeat constructor; simpl; lia.
Defined.

(** ** Generations, rendering and the block *)

Lemma generations_closed_witness :
  ∃ g', generations 4 marked3 = Returned g'
        ∧ well_formed g' ∧ size g' = size marked3 ∧ cls g' = cls marked3
        ∧ ((0 < 4)%nat → two_symbols g').
Proof.
  apply (generations_closed marked3 4).
  split; [reflexivity|]. repeat constructor.
Defined.

Lemma constructed_grid_renders_witness :
  repr (mkGrid ClsHexGrid6 2 [[chr_X; chr_dot]; [chr_dot; chr_X]])
  = Returned (join [chr_nl]
                (imap hex_line
                   (cells (mkGrid ClsHexGrid6 2
                             [[chr_X; chr_dot]; [chr_dot; chr_X]])))).
Proof.
  apply (constructed_grid_renders ClsHexGrid6 diagonal_file (ArgStr [])
           rng_half rng_half _ []).
  reflexivity.
Defined.

Lemma block_still_life_witness :
  update block2 = Returned block2 ∧ generations 3 block2 = Returned block2.
Proof.
  apply (block_still_life block2 0 0 3); try (simpl; lia).
  - reflexivity.
  - apply board_well_formed. lia.
  - intros p Hp. unfold cell_at, block2. by rewrite symbol_at_board.
Defined.

(** ** The driver *)

Lemma main_prints_witness :
  main blinker_args blinker_file rng_half
  = ((PrintWarning <$> [])
     ++ PrintGrid (render board3_lying)
        :: flat_map (generation_output (gen_print blinker_args) board3_lying)
                    (range 1 (gens blinker_args + 1)),
     inr 0).
Proof.
  apply (main_prints blinker_args blinker_file rng_half rng_half
           board3_lying []).
  - reflexivity.
  - split; [reflexivity|]. repeat constructor.
  - discriminate.
Defined.

Lemma main_zero_cadence_witness :
  (gen_print (mkArgs 8 5 (Some []) 10 0 (PFloat lit_0_5)) = 0 →
   1 ≤ gens (mkArgs 8 5 (Some []) 10 0 (PFloat lit_0_5)) →
   main (mkArgs 8 5 (Some []) 10 0 (PFloat lit_0_5)) blinker_file rng_half
   = ((PrintWarning <$> [])
      ++ [PrintGrid (render board3_lying); PrintGen 1],
      inl ZeroDivisionError))
  ∧ (gens (mkArgs 8 5 (Some []) 10 0 (PFloat lit_0_5)) ≤ 0 →
     main (mkArgs 8 5 (Some []) 10 0 (PFloat lit_0_5)) blinker_file rng_half
     = ((PrintWarning <$> []) ++ [PrintGrid (render board3_lying)], inr 0)).
Proof.
  apply (main_zero_cadence (mkArgs 8 5 (Some []) 10 0 (PFloat lit_0_5))
           blinker_file rng_half rng_half board3_lying []).
  - reflexivity.
  - split; [reflexivity|]. repeat constructor.
Defined.

Lemma main_unknown_rules_witness :
  gridBuilder (neighbor_rules (mkArgs 7 5 None 2 1 (PFloat lit_0_5)))
              no_files
              (constructor_arg (mkArgs 7 5 None 2 1 (PFloat lit_0_5)))
              rng_half = None
  ∧ main (mkArgs 7 5 None 2 1 (PFloat lit_0_5)) no_files rng_half
    = if 1 <=? gens (mkArgs 7 5 None 2 1 (PFloat lit_0_5))
      then ([PrintNone; PrintGen 1], inl AttributeError)
      else ([PrintNone], inr 0).
Proof.
  apply (main_unknown_rules (mkArgs 7 5 None 2 1 (PFloat lit_0_5))
           no_files rng_half); discriminate.
Defined.

(** ** Reading a cell, locality and symmetry *)

Lemma getitem_wraps_witness :
  (- size board3 ≤ -1 < size board3 → - size board3 ≤ -2 < size board3 →
   Grid_getitem board3 (-1, -2)
   = Returned (cell_at board3 ((-1) `mod` size board3,
                               (-2) `mod` size board3)))
  ∧ (¬ (- size board3 ≤ -1 < size board3 ∧ - size board3 ≤ -2 < size board3)
     → Grid_getitem board3 (-1, -2) = Raised IndexError).
Proof.
  apply (getitem_wraps board3 (-1) (-2)).
  split; [reflexivity|]. repeat constructor.
Defined.

Lemma update_local_witness :
  board3 ≠ board3_corner
  ∧ ∃ g1' g2', update board3 = Returned g1'
               ∧ update board3_corner = Returned g2'
               ∧ symbol_at g1' (0, 0) = symbol_at g2' (0, 0).
Proof.
  split; [discriminate|].
  apply (update_local board3 board3_corner (0, 0)).
  - split; [reflexivity|]. repeat constructor.
  - split; [reflexivity|]. repeat constructor.
  - reflexivity.
  - reflexivity.
  - split; simpl; lia.
  - reflexivity.
  - intros n Hn.
    change (getNeighbors board3 (0, 0))
      with [mkCell (0, 1) (PInt 1); mkCell (1, 0) (PInt 1);
            mkCell (1, 1) (PInt 1)] in Hn.
    repeat (apply elem_of_cons in Hn as [-> | Hn]; [reflexivity|]).
    by apply elem_of_nil in Hn.
Defined.

(** Away from the corner the two boards are not updated alike. *)
Example update_corner :
  update board3
  = Returned (mkGrid ClsGrid 3 [[chr_dot; chr_dot; chr_dot];
                                [chr_X; chr_X; chr_X];
                                [chr_dot; chr_dot; chr_dot]])
  ∧ update board3_corner
    = Returned (mkGrid ClsGrid 3 [[chr_dot; chr_dot; chr_dot];
                                  [chr_X; chr_X; chr_dot];
                                  [chr_dot; chr_X; chr_X]]).
Proof. split; vm_compute; reflexivity. Qed.

Lemma rect8_transpose_witness :
  ∃ g', update board3 = Returned g'
        ∧ update (transpose board3) = Returned (transpose g').
Proof.
  apply (rect8_transpose board3); [reflexivity|].
  split; [reflexivity|]. repeat constructor.
Defined.

(** ** The hexagonal rules *)

Lemma hex6_update_rule_witness :
  ∃ g', update hexrow6 = Returned g'
        ∧ well_formed g' ∧ two_symbols g'
        ∧ ∀ p, in_board (size hexrow6) p →
               symbol_at g' p
               = Some (if hex6_conway hexrow6 p then chr_X else chr_dot)
               ∧ is_alive g' p = hex6_conway hexrow6 p.
Proof.
  apply (hex6_update_rule hexrow6).
  - reflexivity.
  - split; [reflexivity|]. repeat constructor.
  - unfold two_symbols. simpl.
    repeat match goal with
           | |- Forall _ _ => constructor
           | |- _ ∨ _ => (by left) || (by right)
           end.
Defined.

Lemma hex12_update_rule_witness :
  ∃ g', update hex12_brink = Returned g'
        ∧ well_formed g' ∧ two_symbols g'
        ∧ ∀ p, in_board (size hex12_brink) p →
               symbol_at g' p
               = Some (if hex12_next hex12_brink p then chr_X else chr_dot)
               ∧ is_alive g' p = hex12_next hex12_brink p.
Proof.
  apply (hex12_update_rule hex12_brink).
  - reflexivity.
  - split; [reflexivity|]. repeat constructor.
  - unfold two_symbols. simpl.
    repeat match goal with
           | |- Forall _ _ => constructor
           | |- _ ∨ _ => (by left) || (by right)
           end.
Defined.

(** The dead centre of [hex12_brink] has 2 live cells on its inner ring
    and 3 on its outer ring.  Where [sum] adds from the left the score is
    not the double 2.9 but the one before it, and the cell is born; where
    [sum] compensates the score is 2.9 and the cell stays dead.  With 3
    and 1 the score is the double 3.3 either way and a live cell dies. *)
Example hex12_float_bounds :
  hex12_total 2 3 ≠ lit_2_9
  ∧ HexGrid12_live chr_dot (PFloat (hex12_total 2 3)) = true
  ∧ compensated (hex12_compensation 2 true 2).1
                (hex12_compensation 2 true 2).2 = lit_2_9
  ∧ HexGrid12_live chr_dot (PFloat lit_2_9) = false
  ∧ hex12_total 3 1 = lit_3_3
  ∧ HexGrid12_live chr_X (PFloat (hex12_total 3 1)) = false.
Proof. repeat split; (discriminate || reflexivity). Qed.

Example hex12_brink_born :
  hex12_next (py := cpython_3_11) hex12_brink (2, 2) = true
  ∧ hex12_next (py := cpython_3_12) hex12_brink (2, 2) = false
  ∧ (∃ g', update (py := cpython_3_11) hex12_brink = Returned g'
           ∧ symbol_at g' (2, 2) = Some chr_X)
  ∧ (∃ g', update (py := cpython_3_12) hex12_brink = Returned g'
           ∧ symbol_at g' (2, 2) = Some chr_dot).
Proof.
  split; [reflexivity|]. split; [reflexivity|].
  split; eexists; (split; [vm_compute; reflexivity | reflexivity]).
Qed.

Example update_hexrow6 :
  update hexrow6
  = Returned (mkGrid ClsHexGrid6 3 [[chr_dot; chr_dot; chr_dot];
                                    [chr_dot; chr_X; chr_dot];
                                    [chr_dot; chr_dot; chr_dot]]).
Proof. vm_compute. reflexivity. Qed.
